(** * Smart Trello MCP server: name resolution, TTL cache, response cleaner

    A shallow embedding of [src/utils/resolver.ts], [src/utils/cache.ts],
    [src/utils/cleaner.ts] and of the card-stitching step of
    [src/tools/snapshot.ts], followed by the properties proved about them.

    Modelling conventions.
    - A JavaScript string is a Rocq [string]; its characters are the code
      units 0..255 (Latin-1), on which [toLowerCase] and [trim] are written
      out exactly as ECMAScript defines them.
    - A JavaScript number that the resolver computes (a similarity score) is
      a [JsNumber]: an exact rational, an infinity or [NaN]. Binary64
      rounding is not modelled; every comparison of the source is kept.
      Where a difference of scores is exactly 0.05, binary64 may compute
      a value below 0.05: there the source may return no match where
      [fuzzyMatch] returns one.
    - [Date.now()] is an integer number of milliseconds ([Z]); the cache
      lifetime is a whole number of minutes.
    - The two [Map]s of the cache are [gmap]s; the insertion order of the
      board names, which only the loop of [invalidateBoard] observes, is
      an argument of that method.
    - A thrown exception is the [Err] branch of a [Result]; what a [fetch]
      produces is an argument of the function that awaits it, and the state
      a function mutates (the cache, the memo of the allow-list) is passed
      in and returned. *)

From stdpp Require Import base option list gmap strings.
From Stdlib Require Import ZArith QArith Qabs Lia Lqa Ascii String DecimalString Permutation Sorted.

#[local] Set Warnings "-register-all".

Local Open Scope Z_scope.
Local Open Scope string_scope.
Local Open Scope list_scope.

(** ** JavaScript strings *)

(** [String.prototype.toLowerCase] on one code unit: A-Z and the Latin-1
    capitals U+00C0..U+00DE (U+00D7, the multiplication sign, excepted) move
    up by 32; every other code unit below 256 is its own lower case. *)
Definition lowerChar (c : ascii) : ascii :=
  let n := N_of_ascii c in
  if ((65 <=? n) && (n <=? 90))%N then ascii_of_N (n + 32)
  else if ((192 <=? n) && (n <=? 222) && negb (n =? 215))%N then ascii_of_N (n + 32)
  else c.

Fixpoint toLowerCase (s : string) : string :=
  match s with
  | EmptyString => EmptyString
  | String c s' => String (lowerChar c) (toLowerCase s')
  end.

(** White space and line terminators below 256: TAB, LF, VT, FF, CR, SP and
    NBSP. *)
Definition isWhiteSpace (c : ascii) : bool :=
  let n := N_of_ascii c in
  ((9 <=? n) && (n <=? 13) || (n =? 32) || (n =? 160))%N.

Fixpoint trimStart (s : string) : string :=
  match s with
  | EmptyString => EmptyString
  | String c s' => if isWhiteSpace c then trimStart s' else s
  end.

Fixpoint trimEnd (s : string) : string :=
  match s with
  | EmptyString => EmptyString
  | String c s' =>
      match trimEnd s' with
      | EmptyString => if isWhiteSpace c then EmptyString else String c EmptyString
      | t => String c t
      end
  end.

Definition trim (s : string) : string := trimEnd (trimStart s).

(** [Array.prototype.join] on strings. *)
Fixpoint join (sep : string) (l : list string) : string :=
  match l with
  | [] => ""
  | [x] => x
  | x :: l' => x ++ sep ++ join sep l'
  end.

(** [Array.prototype.slice(0, n)]. *)
Definition slice0 {A} (n : nat) (l : list A) : list A := firstn n l.

Definition dquote : string := String (ascii_of_nat 34) EmptyString.
Definition newline : string := String (ascii_of_nat 10) EmptyString.

(** ** JavaScript numbers *)

Inductive JsNumber : Type :=
| NaN
| PosInf
| NegInf
| Fin (q : Q).

Definition Qlt_bool (a b : Q) : bool := negb (Qle_bool b a).

(** [n / m] for two lengths or counts. *)
Definition jsDivNat (n m : nat) : JsNumber :=
  match m with
  | O => match n with O => NaN | _ => PosInf end
  | _ => Fin (Z.of_nat n # Pos.of_nat m)
  end.

Definition jsSub (x y : JsNumber) : JsNumber :=
  match x, y with
  | NaN, _ | _, NaN => NaN
  | PosInf, PosInf | NegInf, NegInf => NaN
  | PosInf, _ => PosInf
  | NegInf, _ => NegInf
  | Fin _, PosInf => NegInf
  | Fin _, NegInf => PosInf
  | Fin a, Fin b => Fin (a - b)
  end.

Definition jsAbs (x : JsNumber) : JsNumber :=
  match x with
  | NaN => NaN
  | PosInf | NegInf => PosInf
  | Fin a => Fin (Qabs a)
  end.

(** [x < y]; false as soon as one side is [NaN]. *)
Definition jsLt (x y : JsNumber) : bool :=
  match x, y with
  | NaN, _ | _, NaN => false
  | _, NegInf => false
  | PosInf, _ => false
  | NegInf, _ => true
  | Fin _, PosInf => true
  | Fin a, Fin b => Qlt_bool a b
  end.

(** [x >= y]; false as soon as one side is [NaN]. *)
Definition jsGe (x y : JsNumber) : bool :=
  match x, y with
  | NaN, _ | _, NaN => false
  | PosInf, _ => true
  | _, NegInf => true
  | NegInf, _ => false
  | Fin _, PosInf => false
  | Fin a, Fin b => Qle_bool b a
  end.

(** [x === y] on numbers: [NaN] is equal to nothing. *)
Definition jsEqb (x y : JsNumber) : bool :=
  match x, y with
  | Fin a, Fin b => Qeq_bool a b
  | PosInf, PosInf | NegInf, NegInf => true
  | _, _ => false
  end.

Definition jsOne : JsNumber := Fin 1.
Definition jsZero : JsNumber := Fin 0.

(** ** resolver.ts: the similarity scorer *)

(** One pass of the inner loop [for j = 1 .. a.length] on row [i]: [prev] is
    the part of row [i-1] from column [j-1] on, [left] is
    [matrix[i][j-1]]. *)
Fixpoint fillRow (bi : ascii) (a : string) (prev : list nat) (left : nat) : list nat :=
  match a, prev with
  | String aj a', diag :: ((up :: _) as prev') =>
      let v :=
        if Ascii.eqb bi aj then diag
        else Nat.min (diag + 1) (Nat.min (left + 1) (up + 1)) in
      v :: fillRow bi a' prev' v
  | _, _ => []
  end.

(** The outer loop [for i = 1 .. b.length]: row [i] starts with [i] (the
    first initialisation loop) and is filled from row [i-1]. *)
Fixpoint fillMatrix (b a : string) (i : nat) (prev : list nat) : list (list nat) :=
  match b with
  | EmptyString => []
  | String bi b' =>
      let row := i :: fillRow bi a prev i in
      row :: fillMatrix b' a (S i) row
  end.

(** The whole matrix: row 0 is [0, 1, .., a.length] (the second
    initialisation loop). *)
Definition levenshteinMatrix (a b : string) : list (list nat) :=
  let row0 := seq 0 (S (String.length a)) in
  row0 :: fillMatrix b a 1 row0.

Definition levenshteinDistance (a b : string) : nat :=
  nth (String.length a) (nth (String.length b) (levenshteinMatrix a b) []) O.

Definition similarityScore (a b : string) : JsNumber :=
  let distance := levenshteinDistance (toLowerCase a) (toLowerCase b) in
  let maxLength := Nat.max (String.length a) (String.length b) in
  jsSub jsOne (jsDivNat distance maxLength).

Record FuzzyMatch : Type := mkFuzzyMatch {
  fm_match : string;
  fm_score : JsNumber
}.

Record Scored : Type := mkScored {
  candidate : string;
  score : JsNumber
}.

(** The comparator [(a, b) => b.score - a.score] and what
    [Array.prototype.sort] makes of its result: [a] goes after [b] exactly
    when the result is a number above zero ([NaN] counts as zero). *)
Definition compareScores (a b : Scored) : JsNumber := jsSub (score b) (score a).

Definition sortsAfter (a b : Scored) : bool := jsLt jsZero (compareScores a b).

Fixpoint insertScored (x : Scored) (l : list Scored) : list Scored :=
  match l with
  | [] => [x]
  | y :: l' => if sortsAfter x y then y :: insertScored x l' else x :: l
  end.

(** The sort is stable (ECMAScript 2019): equal scores keep their order. *)
Definition sortScores (l : list Scored) : list Scored := foldr insertScored [] l.

Definition scoreCandidates (normalizedInput : string) (candidates : list string) : list Scored :=
  map (fun c => mkScored c (similarityScore normalizedInput (trim (toLowerCase c)))) candidates.

Definition ambiguityGap : JsNumber := Fin (5 # 100).

Definition fuzzyMatch (input : string) (candidates : list string) : option FuzzyMatch :=
  match candidates with
  | [] => None
  | _ =>
      let normalizedInput := trim (toLowerCase input) in
      let scores := sortScores (scoreCandidates normalizedInput candidates) in
      match scores with
      | [] => None
      | best :: rest =>
          match rest with
          | secondBest :: _ =>
              if jsLt (jsAbs (jsSub (score best) (score secondBest))) ambiguityGap
              then None
              else Some (mkFuzzyMatch (candidate best) (score best))
          | [] => Some (mkFuzzyMatch (candidate best) (score best))
          end
      end
  end.

(** ** cache.ts: the TTL cache *)

Record CacheEntry : Type := mkCacheEntry {
  value : string;
  timestamp : Z
}.

Record TrelloCache : Type := mkTrelloCache {
  boardNameToId : gmap string CacheEntry;
  listsByBoard : gmap string (gmap string CacheEntry);
  ttlMs : Z
}.

(** [new TrelloCache(ttlMinutes)]. *)
Definition newTrelloCache (ttlMinutes : Z) : TrelloCache :=
  mkTrelloCache ∅ ∅ (ttlMinutes * 60 * 1000).

Definition defaultTtlMinutes : Z := 5.

(** [isValid(entry)], with [now] the value of [Date.now()]. *)
Definition isValid (c : TrelloCache) (now : Z) (entry : option CacheEntry) : bool :=
  match entry with
  | None => false
  | Some e => let age := (now - timestamp e)%Z in (age <? ttlMs c)%Z
  end.

Definition getBoardId (c : TrelloCache) (now : Z) (boardName : string)
  : option string * TrelloCache :=
  let normalizedName := trim (toLowerCase boardName) in
  let entry := boardNameToId c !! normalizedName in
  if isValid c now entry then (value <$> entry, c)
  else
    match entry with
    | Some _ =>
        (None, mkTrelloCache (delete normalizedName (boardNameToId c))
                             (listsByBoard c) (ttlMs c))
    | None => (None, c)
    end.

Definition setBoardId (c : TrelloCache) (now : Z) (boardName boardId : string)
  : TrelloCache :=
  let normalizedName := trim (toLowerCase boardName) in
  mkTrelloCache (<[normalizedName := mkCacheEntry boardId now]> (boardNameToId c))
                (listsByBoard c) (ttlMs c).

Definition getListId (c : TrelloCache) (now : Z) (boardId listName : string)
  : option string * TrelloCache :=
  let normalizedName := trim (toLowerCase listName) in
  match listsByBoard c !! boardId with
  | None => (None, c)
  | Some boardLists =>
      let entry := boardLists !! normalizedName in
      if isValid c now entry then (value <$> entry, c)
      else
        match entry with
        | Some _ =>
            (None, mkTrelloCache (boardNameToId c)
                     (<[boardId := delete normalizedName boardLists]> (listsByBoard c))
                     (ttlMs c))
        | None => (None, c)
        end
  end.

Definition setListId (c : TrelloCache) (now : Z) (boardId listName listId : string)
  : TrelloCache :=
  let normalizedName := trim (toLowerCase listName) in
  let boardLists :=
    match listsByBoard c !! boardId with
    | Some m => m
    | None => ∅
    end in
  mkTrelloCache (boardNameToId c)
    (<[boardId := <[normalizedName := mkCacheEntry listId now]> boardLists]> (listsByBoard c))
    (ttlMs c).

(** [clear()]. *)
Definition clear (c : TrelloCache) : TrelloCache := mkTrelloCache ∅ ∅ (ttlMs c).

(** ** resolver.ts: the access guard *)

Inductive Result (E A : Type) : Type :=
| Ok (a : A)
| Err (e : E).
Arguments Ok {E A} a.
Arguments Err {E A} e.

Inductive ResourceKind : Type := KBoard | KList.

(** The conditions under which a resolver throws, with what each message
    carries; [errorMessage] below gives the text of the thrown [Error]. *)
Inductive ResolveError : Type :=
| AccessDenied (boardName : string)
| UpstreamError (k : ResourceKind) (statusText : string)
| NotFoundEmpty (k : ResourceKind)
| AmbiguousName (k : ResourceKind) (requested : string) (shown : list string)
| NoConfidentMatch (k : ResourceKind) (requested : string) (shown : list string)
| CardSearchFailed (statusText : string)
| CardFallbackFailed (cardName statusText : string)
| CardNotFoundEmpty (cardName : string)
| CardNotFound (cardName : string)
| Rejected (reason : string).

Definition bullet : string := newline ++ "  - ".

Definition errorMessage (e : ResolveError) : string :=
  match e with
  | AccessDenied b =>
      "Access Denied: The board '" ++ b ++ "' is not in the allowed list."
  | UpstreamError KBoard st => "Failed to fetch boards: " ++ st
  | UpstreamError KList st => "Failed to fetch lists: " ++ st
  | NotFoundEmpty KBoard => "No boards found for this account"
  | NotFoundEmpty KList => "No lists found on this board"
  | AmbiguousName KBoard n shown =>
      "Board " ++ dquote ++ n ++ dquote
      ++ " not found. Multiple similar matches detected." ++ newline ++ newline
      ++ "Available boards:" ++ bullet ++ join bullet shown
  | AmbiguousName KList n shown =>
      "List " ++ dquote ++ n ++ dquote
      ++ " not found. Multiple similar matches detected (e.g., "
      ++ dquote ++ "Dev" ++ dquote ++ " vs " ++ dquote ++ "Devs" ++ dquote ++ ")."
      ++ newline ++ newline
      ++ "Please use exact name. Available lists:" ++ bullet ++ join bullet shown
  | NoConfidentMatch KBoard n shown =>
      "Board " ++ dquote ++ n ++ dquote ++ " not found." ++ newline ++ newline
      ++ "Did you mean one of these?" ++ newline
      ++ join newline (map (fun name : string => ("  - " ++ name)%string) shown)
  | NoConfidentMatch KList n shown =>
      "List " ++ dquote ++ n ++ dquote ++ " not found." ++ newline ++ newline
      ++ "Did you mean one of these?" ++ bullet ++ join bullet shown
  | CardSearchFailed st => "Failed to search for card: " ++ st
  | CardFallbackFailed n st =>
      "Card " ++ dquote ++ n ++ dquote
      ++ " not found using search, and fallback listing failed: " ++ st
  | CardNotFoundEmpty n =>
      "Card " ++ dquote ++ n ++ dquote
      ++ " not found on this board (including fallback)"
  | CardNotFound n =>
      "Card " ++ dquote ++ n ++ dquote
      ++ " not found on this board (after search + fallback)"
  | Rejected r => r
  end.

(** [s.split(',')]. *)
Fixpoint splitComma (s : string) : list string :=
  match s with
  | EmptyString => [""]
  | String c s' =>
      if Ascii.eqb c (ascii_of_nat 44) then "" :: splitComma s'
      else
        match splitComma s' with
        | x :: r => String c x :: r
        | [] => [String c EmptyString]
        end
  end.

Definition nonEmpty (s : string) : bool :=
  match s with
  | EmptyString => false
  | _ => true
  end.

(** The module variable [cachedAllowedBoards]: [None] is [undefined] (not
    read yet), [Some None] is [null] (no restriction). *)
Definition AllowedMemo : Type := option (option (list string)).

(** [env] is [process.env.TRELLO_ALLOWED_BOARDS]. *)
Definition getAllowedBoards (env : option string) (memo : AllowedMemo)
  : option (list string) * AllowedMemo :=
  match memo with
  | Some cached => (cached, memo)
  | None =>
      match env with
      | None | Some EmptyString => (None, Some None)
      | Some e =>
          let parsed :=
            List.filter nonEmpty (map (fun board => toLowerCase (trim board)) (splitComma e)) in
          let allowed := match parsed with [] => None | _ => Some parsed end in
          (allowed, Some allowed)
      end
  end.

Definition includes (l : list string) (s : string) : bool :=
  existsb (String.eqb s) l.

Definition ensureBoardAllowed (boardName : string) (env : option string) (memo : AllowedMemo)
  : Result ResolveError unit * AllowedMemo :=
  let '(allowedBoards, memo') := getAllowedBoards env memo in
  match allowedBoards with
  | None => (Ok tt, memo')
  | Some allowed =>
      let normalizedName := toLowerCase (trim boardName) in
      if includes allowed normalizedName then (Ok tt, memo')
      else (Err (AccessDenied boardName), memo')
  end.

(** ** resolver.ts: boards and lists *)

(** One record of an upstream listing or search result. *)
Record Resource : Type := mkResource {
  res_id : string;
  res_name : string
}.

(** What [await fetch(url)] followed by [await response.json()] can
    produce: a rejected promise, a response whose [ok] is false (with its
    [statusText]), a body that is not JSON, or the parsed body. *)
Inductive Fetched (A : Type) : Type :=
| NetworkFailure (reason : string)
| HttpError (statusText : string)
| InvalidBody (reason : string)
| Body (b : A).
Arguments NetworkFailure {A} reason.
Arguments HttpError {A} statusText.
Arguments InvalidBody {A} reason.
Arguments Body {A} b.

(** A listing body: [None] when the JSON value is not an array. *)
Definition Listing (A : Type) : Type := option (list A).

Record Resolved : Type := mkResolved {
  resolved_id : string;
  exactMatch : bool
}.

Definition acceptThreshold : JsNumber := Fin (8 # 10).
Definition fallbackThreshold : JsNumber := Fin (9 # 10).

(** The scan [for (const x of xs) if (x.name.toLowerCase().trim() === normalizedInput)]. *)
Definition findExact (normalizedInput : string) (xs : list Resource) : option Resource :=
  List.find (fun x => String.eqb (trim (toLowerCase (res_name x))) normalizedInput) xs.

(** [xs.find(x => x.name === name)]. *)
Definition findByName (name : string) (xs : list Resource) : option Resource :=
  List.find (fun x => String.eqb (res_name x) name) xs.

(** The state a resolution leaves behind: the guard's memo and the cache
    object (when one was passed). *)
Record ResolverState : Type := mkResolverState {
  cachedAllowedBoards : AllowedMemo;
  cache : option TrelloCache
}.

(** The part of [resolveBoardId] after the listing has been fetched and
    found to be a non-empty array. [tStore] is [Date.now()] at the time of
    the cache write. *)
Definition resolveBoardFromListing (boardName : string) (cache : option TrelloCache)
    (boards : list Resource) (tStore : Z)
  : Result ResolveError Resolved * option TrelloCache :=
  let normalizedInput := trim (toLowerCase boardName) in
  match findExact normalizedInput boards with
  | Some board =>
      (Ok (mkResolved (res_id board) true),
       (fun c => setBoardId c tStore boardName (res_id board)) <$> cache)
  | None =>
      let boardNames := map res_name boards in
      match fuzzyMatch boardName boardNames with
      | None => (Err (AmbiguousName KBoard boardName (slice0 10 boardNames)), cache)
      | Some m =>
          if jsLt (fm_score m) acceptThreshold
          then (Err (NoConfidentMatch KBoard boardName (slice0 5 boardNames)), cache)
          else
            match findByName (fm_match m) boards with
            | Some matchedBoard =>
                (Ok (mkResolved (res_id matchedBoard) false),
                 (fun c => setBoardId c tStore boardName (res_id matchedBoard)) <$> cache)
            | None => (Err (Rejected "TypeError"), cache)
            end
      end
  end.

(** The part of [resolveBoardId] from the boards request on. *)
Definition resolveBoardFromFetch (boardName : string) (cache : option TrelloCache)
    (resp : Fetched (Listing Resource)) (tStore : Z)
  : Result ResolveError Resolved * option TrelloCache :=
  match resp with
  | NetworkFailure r => (Err (Rejected r), cache)
  | HttpError statusText => (Err (UpstreamError KBoard statusText), cache)
  | InvalidBody r => (Err (Rejected r), cache)
  | Body None | Body (Some []) => (Err (NotFoundEmpty KBoard), cache)
  | Body (Some boards) => resolveBoardFromListing boardName cache boards tStore
  end.

(** [resolveBoardId(boardName, credentials, cache?)]. [env] is the value of
    [TRELLO_ALLOWED_BOARDS], [tLookup] is [Date.now()] at the cache read,
    [resp] is what the boards request produces. *)
Definition resolveBoardId (boardName : string) (st : ResolverState)
    (env : option string) (tLookup : Z) (resp : Fetched (Listing Resource)) (tStore : Z)
  : Result ResolveError Resolved * ResolverState :=
  let '(guard, memo) := ensureBoardAllowed boardName env (cachedAllowedBoards st) in
  match guard with
  | Err e => (Err e, mkResolverState memo (cache st))
  | Ok _ =>
      let '(cachedId, cache1) :=
        match cache st with
        | Some c => let '(r, c') := getBoardId c tLookup boardName in (r, Some c')
        | None => (None, None)
        end in
      let '(r, cache2) :=
        match cachedId with
        | Some i =>
            if nonEmpty i then (Ok (mkResolved i true), cache1)
            else resolveBoardFromFetch boardName cache1 resp tStore
        | None => resolveBoardFromFetch boardName cache1 resp tStore
        end in
      (r, mkResolverState memo cache2)
  end.

(** The part of [resolveListId] after the listing has been fetched and
    found to be a non-empty array. *)
Definition resolveListFromListing (boardId listName : string) (cache : option TrelloCache)
    (lists : list Resource) (tStore : Z)
  : Result ResolveError Resolved * option TrelloCache :=
  let normalizedInput := trim (toLowerCase listName) in
  match findExact normalizedInput lists with
  | Some list =>
      (Ok (mkResolved (res_id list) true),
       (fun c => setListId c tStore boardId listName (res_id list)) <$> cache)
  | None =>
      let listNames := map res_name lists in
      match fuzzyMatch listName listNames with
      | None => (Err (AmbiguousName KList listName listNames), cache)
      | Some m =>
          if jsLt (fm_score m) acceptThreshold
          then (Err (NoConfidentMatch KList listName listNames), cache)
          else
            match findByName (fm_match m) lists with
            | Some matchedList =>
                (Ok (mkResolved (res_id matchedList) false),
                 (fun c => setListId c tStore boardId listName (res_id matchedList)) <$> cache)
            | None => (Err (Rejected "TypeError"), cache)
            end
      end
  end.

Definition resolveListFromFetch (boardId listName : string) (cache : option TrelloCache)
    (resp : Fetched (Listing Resource)) (tStore : Z)
  : Result ResolveError Resolved * option TrelloCache :=
  match resp with
  | NetworkFailure r => (Err (Rejected r), cache)
  | HttpError statusText => (Err (UpstreamError KList statusText), cache)
  | InvalidBody r => (Err (Rejected r), cache)
  | Body None | Body (Some []) => (Err (NotFoundEmpty KList), cache)
  | Body (Some lists) => resolveListFromListing boardId listName cache lists tStore
  end.

(** [resolveListId(boardId, listName, credentials, cache?)]. *)
Definition resolveListId (boardId listName : string) (cache : option TrelloCache)
    (tLookup : Z) (resp : Fetched (Listing Resource)) (tStore : Z)
  : Result ResolveError Resolved * option TrelloCache :=
  let '(cachedId, cache1) :=
    match cache with
    | Some c => let '(r, c') := getListId c tLookup boardId listName in (r, Some c')
    | None => (None, None)
    end in
  match cachedId with
  | Some i =>
      if nonEmpty i then (Ok (mkResolved i true), cache1)
      else resolveListFromFetch boardId listName cache1 resp tStore
  | None => resolveListFromFetch boardId listName cache1 resp tStore
  end.

(** ** resolver.ts: cards *)

(** A record of the fallback card listing ([fields=name,closed]); the code
    does not rely on [name] being present. *)
Record ListedCard : Type := mkListedCard {
  lc_id : string;
  lc_name : option string
}.

(** The scan [for (const card of cards)] that returns
    [{ id: card.id, name: card.name }] at the first card with
    [card.name?.toLowerCase().trim() === normalizedInput]. *)
Fixpoint findExactCard (normalizedInput : string) (cards : list ListedCard)
  : option Resource :=
  match cards with
  | [] => None
  | card :: rest =>
      match lc_name card with
      | Some n =>
          if String.eqb (trim (toLowerCase n)) normalizedInput
          then Some (mkResource (lc_id card) n)
          else findExactCard normalizedInput rest
      | None => findExactCard normalizedInput rest
      end
  end.

(** [cards.map(card => card.name).filter(name => typeof name === 'string')]. *)
Definition candidateNames (cards : list ListedCard) : list string :=
  omap lc_name cards.

(** [cards.find(card => card.name === match.match)]. *)
Definition findCardByName (name : string) (cards : list ListedCard) : option ListedCard :=
  List.find (fun card =>
               match lc_name card with
               | Some n => String.eqb n name
               | None => false
               end) cards.

(** [resolveCardIdFromBoardListing]; [resp] is what the open-card listing
    request produces. *)
Definition resolveCardIdFromBoardListing (boardId cardName : string)
    (resp : Fetched (Listing ListedCard))
  : Result ResolveError Resource :=
  match resp with
  | NetworkFailure r => Err (Rejected r)
  | HttpError statusText => Err (CardFallbackFailed cardName statusText)
  | InvalidBody r => Err (Rejected r)
  | Body None | Body (Some []) => Err (CardNotFoundEmpty cardName)
  | Body (Some cards) =>
      let normalizedInput := trim (toLowerCase cardName) in
      match findExactCard normalizedInput cards with
      | Some found => Ok found
      | None =>
          match fuzzyMatch cardName (candidateNames cards) with
          | Some m =>
              if jsGe (fm_score m) fallbackThreshold then
                match findCardByName (fm_match m) cards with
                | Some matchedCard => Ok (mkResource (lc_id matchedCard) (fm_match m))
                | None => Err (CardNotFound cardName)
                end
              else Err (CardNotFound cardName)
          | None => Err (CardNotFound cardName)
          end
      end
  end.

(** [resolveCardId]; [search] is what the search request produces, its body
    being [result.cards] ([None] when the field is missing), and [fallback]
    is what the listing request would produce. *)
Definition resolveCardId (boardId cardName : string)
    (search : Fetched (option (list Resource))) (fallback : Fetched (Listing ListedCard))
  : Result ResolveError Resource :=
  match search with
  | NetworkFailure r => Err (Rejected r)
  | HttpError statusText => Err (CardSearchFailed statusText)
  | InvalidBody r => Err (Rejected r)
  | Body result =>
      let cards := match result with Some cs => cs | None => [] end in
      match cards with
      | [] => resolveCardIdFromBoardListing boardId cardName fallback
      | [card] => Ok (mkResource (res_id card) (res_name card))
      | first :: _ =>
          let normalizedInput := trim (toLowerCase cardName) in
          match findExact normalizedInput cards with
          | Some card => Ok (mkResource (res_id card) (res_name card))
          | None => Ok (mkResource (res_id first) (res_name first))
          end
      end
  end.

(** ** cleaner.ts: raw payloads *)

(** A value of type [any]: what [JSON.parse] produces, plus [undefined]
    (the value of a missing property) and [JBuiltin], a member inherited
    from [Object.prototype] (a function or the prototype itself), which no
    parsed payload contains. Numbers in payloads are integers here: the
    cleaner only tests them for truthiness. An object is the list of its
    own properties; the first binding of a key is the property. *)
Inductive JsVal : Type :=
| JUndefined
| JNull
| JBool (b : bool)
| JNum (n : Z)
| JStr (s : string)
| JArr (items : list JsVal)
| JObj (fields : list (string * JsVal))
| JBuiltin.

Inductive JsError : Type :=
| CannotReadProperty (prop : string)
| NotIterable
| NotAFunction.

(** A computation that returns a value or throws. *)
Definition Completion (A : Type) : Type := Result JsError A.

Definition bindC {A B} (c : Completion A) (k : A -> Completion B) : Completion B :=
  match c with
  | Ok a => k a
  | Err e => Err e
  end.

Notation "'do' x <- c ; k" := (bindC c (fun x => k))
  (at level 10, x name, c at level 100, k at level 200).

(** [Array.prototype.map] with a callback that may throw. *)
Fixpoint mapC {A B} (f : A -> Completion B) (l : list A) : Completion (list B) :=
  match l with
  | [] => Ok []
  | x :: l' => do y <- f x; do ys <- mapC f l'; Ok (y :: ys)
  end.

(** A [for .. of] loop or a [reduce] threading an accumulator. *)
Fixpoint foldC {A S} (f : S -> A -> Completion S) (acc : S) (l : list A) : Completion S :=
  match l with
  | [] => Ok acc
  | x :: l' => do acc' <- f acc x; foldC f acc' l'
  end.

Definition truthy (v : JsVal) : bool :=
  match v with
  | JUndefined | JNull => false
  | JBool b => b
  | JNum n => negb (n =? 0)%Z
  | JStr s => nonEmpty s
  | JArr _ | JObj _ | JBuiltin => true
  end.

(** [a || b]. *)
Definition orElse (a b : JsVal) : JsVal := if truthy a then a else b.

Definition isArray (v : JsVal) : bool :=
  match v with
  | JArr _ => true
  | _ => false
  end.

(** [v !== undefined]. *)
Definition isDefined (v : JsVal) : bool :=
  match v with
  | JUndefined => false
  | _ => true
  end.

(** The elements of [v] when [v && Array.isArray(v)] holds. *)
Definition arrayItems (v : JsVal) : option (list JsVal) :=
  if truthy v && isArray v
  then match v with JArr items => Some items | _ => None end
  else None.

Definition lookupField (k : string) (fields : list (string * JsVal)) : JsVal :=
  match List.find (fun p => String.eqb (fst p) k) fields with
  | Some p => snd p
  | None => JUndefined
  end.

Definition jsLength (s : string) : JsVal := JNum (Z.of_nat (String.length s)).

(** [v.k] for the property names the source spells out ([id], [name],
    [labels], [length], ...): reading from [null] or [undefined] throws;
    arrays and strings have [length]; none of the other names is a member
    of a built-in prototype, so a value without such an own property gives
    [undefined]. *)
Definition getProp (v : JsVal) (k : string) : Completion JsVal :=
  match v with
  | JUndefined | JNull => Err (CannotReadProperty k)
  | JObj fields => Ok (lookupField k fields)
  | JArr items =>
      Ok (if String.eqb k "length" then JNum (Z.of_nat (List.length items)) else JUndefined)
  | JStr s => Ok (if String.eqb k "length" then jsLength s else JUndefined)
  | JBool _ | JNum _ | JBuiltin => Ok JUndefined
  end.

(** [v?.k]. *)
Definition getPropOpt (v : JsVal) (k : string) : Completion JsVal :=
  match v with
  | JUndefined | JNull => Ok JUndefined
  | _ => getProp v k
  end.

(** [x === y] and the key equality of [Map]: primitives by value; two
    objects or arrays of a parsed payload are never the same reference. *)
Definition strictEquals (x y : JsVal) : bool :=
  match x, y with
  | JUndefined, JUndefined | JNull, JNull => true
  | JBool a, JBool b => Bool.eqb a b
  | JNum a, JNum b => (a =? b)%Z
  | JStr a, JStr b => String.eqb a b
  | _, _ => false
  end.

(** The values a [for .. of] loop visits. *)
Definition iterate (v : JsVal) : Completion (list JsVal) :=
  match v with
  | JArr items => Ok items
  | JStr s => Ok (map (fun c => JStr (String c EmptyString)) (list_ascii_of_string s))
  | _ => Err NotIterable
  end.

Definition decimalNat (n : nat) : string := NilZero.string_of_uint (Nat.to_uint n).
Definition decimalZ (n : Z) : string := NilZero.string_of_int (Z.to_int n).

(** A [Map<string, string>] as the code fills it: keys keep their insertion
    position, [set] on a present key replaces its value. *)
Definition JsMap : Type := list (JsVal * JsVal).

Fixpoint mapSet (k v : JsVal) (m : JsMap) : JsMap :=
  match m with
  | [] => [(k, v)]
  | (k', v') :: m' =>
      if strictEquals k' k then (k', v) :: m' else (k', v') :: mapSet k v m'
  end.

Definition mapGet (m : JsMap) (k : JsVal) : JsVal :=
  match List.find (fun p => strictEquals (fst p) k) m with
  | Some p => snd p
  | None => JUndefined
  end.

(** ** cleaner.ts: the clean entities *)

Record CleanCard : Type := mkCleanCard {
  card_id : JsVal;
  card_name : JsVal;
  card_desc : JsVal;
  card_due : JsVal;
  card_labels : list JsVal;
  card_members : list JsVal;
  card_checklistStatus : string;
  card_url : JsVal;
  card_closed : JsVal
}.

Record CleanList : Type := mkCleanList {
  list_id : JsVal;
  list_name : JsVal;
  list_closed : JsVal;
  list_cards : option (list CleanCard)
}.

Record CleanBoard : Type := mkCleanBoard {
  board_id : JsVal;
  board_name : JsVal;
  board_desc : JsVal;
  board_url : JsVal;
  board_lists : option (list CleanList)
}.

(** The loop shared by [buildMemberMap] ([valueKey] is [fullName]) and
    [buildLabelMap] ([valueKey] is [name]). *)
Definition buildMapFrom (entries : JsVal) (valueKey : string) : Completion JsMap :=
  match arrayItems entries with
  | None => Ok []
  | Some items =>
      foldC (fun (m : JsMap) entry =>
               do i <- getProp entry "id";
               if truthy i then
                 do v <- getProp entry valueKey;
                 if truthy v then Ok (mapSet i v m) else Ok m
               else Ok m)
            [] items
  end.

Definition buildMemberMap (board : JsVal) : Completion JsMap :=
  do members <- getProp board "members";
  buildMapFrom members "fullName".

Definition buildLabelMap (board : JsVal) : Completion JsMap :=
  do labels <- getProp board "labels";
  buildMapFrom labels "name".

Definition countComplete (checkItems : list JsVal) : Completion nat :=
  do states <- mapC (fun item => do st <- getProp item "state";
                                   Ok (strictEquals st (JStr "complete"))) checkItems;
  Ok (List.length (List.filter (fun b : bool => b) states)).

Definition calculateChecklistStatus (checklists : JsVal) : Completion string :=
  if negb (truthy checklists) then Ok "0/0"
  else
    do len <- getProp checklists "length";
    if strictEquals len (JNum 0) then Ok "0/0"
    else
      do items <- iterate checklists;
      do counts <-
        foldC (fun (acc : nat * nat) checklist =>
                 let '(totalItems, completedItems) := acc in
                 do checkItems <- getProp checklist "checkItems";
                 match arrayItems checkItems with
                 | Some its =>
                     do done <- countComplete its;
                     Ok ((totalItems + List.length its)%nat, (completedItems + done)%nat)
                 | None => Ok acc
                 end)
              (O, O) items;
      Ok (decimalNat (snd counts) ++ "/" ++ decimalNat (fst counts))%string.

Definition cleanCard (card : JsVal) (memberMap labelMap : option JsMap)
  : Completion CleanCard :=
  do idMembers <- getProp card "idMembers";
  let members :=
    match arrayItems idMembers, memberMap with
    | Some ids, Some mm =>
        List.filter truthy (map (fun memberId => mapGet mm memberId) ids)
    | _, _ => []
    end in
  do rawLabels <- getProp card "labels";
  do labels <-
    match arrayItems rawLabels with
    | Some ls =>
        foldC (fun (acc : list JsVal) label =>
                 match label, labelMap with
                 | JStr _, Some lm =>
                     let labelName := mapGet lm label in
                     Ok (if truthy labelName then acc ++ [labelName] else acc)
                 | _, _ =>
                     do n <- getProp label "name";
                     Ok (if truthy n then acc ++ [n] else acc)
                 end)
              [] ls
    | None => Ok []
    end;
  do checklists <- getProp card "checklists";
  do checklistStatus <- calculateChecklistStatus (orElse checklists (JArr []));
  do i <- getProp card "id";
  do name <- getProp card "name";
  do desc <- getProp card "desc";
  do due <- getProp card "due";
  do url <- getProp card "url";
  do shortUrl <- getProp card "shortUrl";
  do closed <- getProp card "closed";
  Ok (mkCleanCard i (orElse name (JStr "")) (orElse desc (JStr "")) (orElse due JNull)
        labels members checklistStatus
        (orElse (orElse url shortUrl) (JStr "")) (orElse closed (JBool false))).

Definition cleanList (list : JsVal) (memberMap labelMap : option JsMap)
  : Completion CleanList :=
  do i <- getProp list "id";
  do name <- getProp list "name";
  do closed <- getProp list "closed";
  do rawCards <- getProp list "cards";
  do cards <-
    match arrayItems rawCards with
    | Some cs => do cleaned <- mapC (fun card => cleanCard card memberMap labelMap) cs;
                 Ok (Some cleaned)
    | None => Ok None
    end;
  Ok (mkCleanList i (orElse name (JStr "")) (orElse closed (JBool false)) cards).

Definition cleanBoard (board : JsVal) : Completion CleanBoard :=
  do memberMap <- buildMemberMap board;
  do labelMap <- buildLabelMap board;
  do i <- getProp board "id";
  do name <- getProp board "name";
  do desc <- getProp board "desc";
  do url <- getProp board "url";
  do shortUrl <- getProp board "shortUrl";
  do rawLists <- getProp board "lists";
  do lists <-
    match arrayItems rawLists with
    | Some ls =>
        do cleaned <- mapC (fun list => cleanList list (Some memberMap) (Some labelMap)) ls;
        Ok (Some cleaned)
    | None => Ok None
    end;
  Ok (mkCleanBoard i (orElse name (JStr "")) (orElse desc (JStr ""))
        (orElse (orElse url shortUrl) (JStr "")) lists).

(** What [cleanTrelloResponse] returns: the payload itself ([return data])
    or one of the clean shapes. *)
Inductive Cleaned : Type :=
| Raw (data : JsVal)
| OneBoard (b : CleanBoard)
| Boards (bs : list CleanBoard)
| OneList (l : CleanList)
| Lists (ls : list CleanList)
| OneCard (c : CleanCard)
| Cards (cs : list CleanCard).

Definition cleanTrelloResponse (data : JsVal) : Completion Cleaned :=
  if negb (truthy data) then Ok (Raw data)
  else
    match data with
    | JArr items =>
        match items with
        | firstItem :: _ =>
            do lists <- getProp firstItem "lists";
            do prefs <- getProp firstItem "prefs";
            if isDefined lists || isDefined prefs then
              do bs <- mapC cleanBoard items; Ok (Boards bs)
            else
              do cards <- getProp firstItem "cards";
              if isDefined cards then
                do ls <- mapC (fun list => cleanList list None None) items; Ok (Lists ls)
              else
                do idList <- getProp firstItem "idList";
                do badges <- getProp firstItem "badges";
                if isDefined idList || isDefined badges then
                  do cs <- mapC (fun card => cleanCard card None None) items; Ok (Cards cs)
                else Ok (Raw data)
        | [] => Ok (Raw data)
        end
    | _ =>
        do lists <- getProp data "lists";
        do prefs <- getProp data "prefs";
        if isDefined lists || isDefined prefs then
          do b <- cleanBoard data; Ok (OneBoard b)
        else
          do cards <- getProp data "cards";
          if isDefined cards then
            do l <- cleanList data None None; Ok (OneList l)
          else
            do idList <- getProp data "idList";
            do badges <- getProp data "badges";
            if isDefined idList || isDefined badges then
              do c <- cleanCard data None None; Ok (OneCard c)
            else Ok (Raw data)
    end.

(** The raw fields the dispatcher looks for: [lists] and [prefs] mark a
    board, [cards] a list, [idList] and [badges] a card. *)
Definition shapeMarkers : list string := [ "lists"; "prefs"; "cards"; "idList"; "badges" ].

(** [v] has none of the markers: reading each of them gives [undefined]. *)
Definition lacksMarkers (v : JsVal) : Prop :=
  forall k, In k shapeMarkers -> getProp v k = Ok JUndefined.

(** ** snapshot.ts: stitching cards into their lists *)

(** The names every plain object inherits from [Object.prototype]. *)
Definition objectPrototypeKeys : list string :=
  [ "constructor"; "__proto__"; "hasOwnProperty"; "isPrototypeOf";
    "propertyIsEnumerable"; "toLocaleString"; "toString"; "valueOf";
    "__defineGetter__"; "__defineSetter__"; "__lookupGetter__"; "__lookupSetter__" ].

Definition inheritedKey (k : string) : bool := includes objectPrototypeKeys k.

(** The property key a value turns into when it indexes an object: a string
    is its own key; the other cases follow [ToString] (integers print in
    decimal, which is what JavaScript does below 10^21; an array joins its
    elements with commas). *)
Fixpoint toPropertyKey (v : JsVal) : string :=
  match v with
  | JUndefined => "undefined"
  | JNull => "null"
  | JBool true => "true"
  | JBool false => "false"
  | JNum n => decimalZ n
  | JStr s => s
  | JArr items =>
      (fix joinItems (l : list JsVal) : string :=
         match l with
         | [] => ""
         | x :: l' =>
             let sx := match x with
                       | JUndefined | JNull => ""
                       | _ => toPropertyKey x
                       end in
             match l' with
             | [] => sx
             | _ => (sx ++ "," ++ joinItems l')%string
             end
         end) items
  | JObj _ => "[object Object]"
  | JBuiltin => "[object Object]"
  end.

(** [acc[k]], where [acc] holds the own properties of the accumulator of
    the [reduce] (it starts as [{}]): an own property, else what
    [Object.prototype] provides. *)
Definition accGet (acc : gmap string (list JsVal)) (k : string) : JsVal :=
  match acc !! k with
  | Some cards => JArr cards
  | None => if inheritedKey k then JBuiltin else JUndefined
  end.

(** The callback of [boardData.cards.reduce(.., {})]. Calling [push] on an
    inherited member throws. *)
Definition groupCard (acc : gmap string (list JsVal)) (card : JsVal)
  : Completion (gmap string (list JsVal)) :=
  do idList <- getPropOpt card "idList";
  if negb (truthy idList) then Ok acc
  else
    let k := toPropertyKey idList in
    match accGet acc k with
    | JArr cards => Ok (<[k := cards ++ [card]]> acc)
    | JBuiltin => Err NotAFunction
    | _ => Ok (<[k := [card]]> acc)
    end.

Fixpoint indexedFrom (i : nat) (l : list JsVal) : list (string * JsVal) :=
  match l with
  | [] => []
  | x :: l' => (decimalNat i, x) :: indexedFrom (S i) l'
  end.

(** The own enumerable properties that [{...v}] copies. *)
Definition spreadFields (v : JsVal) : list (string * JsVal) :=
  match v with
  | JObj fields => fields
  | JArr items => indexedFrom 0 items
  | JStr s =>
      indexedFrom 0 (map (fun c => JStr (String c EmptyString)) (list_ascii_of_string s))
  | _ => []
  end.

(** Writing property [k]: an existing key keeps its place. *)
Fixpoint setField (k : string) (v : JsVal) (fields : list (string * JsVal))
  : list (string * JsVal) :=
  match fields with
  | [] => [(k, v)]
  | (k', v') :: rest =>
      if String.eqb k' k then (k, v) :: rest else (k', v') :: setField k v rest
  end.

(** The callback of [boardData.lists.map]:
    [{ ...list, cards: cardsByList[list.id] || [] }]. *)
Definition attachCards (cardsByList : gmap string (list JsVal)) (list : JsVal)
  : Completion JsVal :=
  do i <- getProp list "id";
  let cards := orElse (accGet cardsByList (toPropertyKey i)) (JArr []) in
  Ok (JObj (setField "cards" cards (spreadFields list))).

(** The block "Stitch cards into their lists before cleaning". *)
Definition stitchCards (boardData : JsVal) : Completion JsVal :=
  do cards <- getProp boardData "cards";
  do lists <- getProp boardData "lists";
  match cards, lists, boardData with
  | JArr cs, JArr ls, JObj fields =>
      do cardsByList <- foldC groupCard ∅ cs;
      do stitched <- mapC (attachCards cardsByList) ls;
      Ok (JObj (setField "lists" (JArr stitched) fields))
  | _, _, _ => Ok boardData
  end.

(** The key under which the [reduce] files a card: none for a card that is
    [null] or whose [idList] is missing or falsy. *)
Definition cardListKey (card : JsVal) : option string :=
  match getPropOpt card "idList" with
  | Ok idList => if truthy idList then Some (toPropertyKey idList) else None
  | Err _ => None
  end.

(** The key [list.id] stands for. *)
Definition listKey (list : JsVal) : string :=
  match getProp list "id" with
  | Ok i => toPropertyKey i
  | Err _ => ""
  end.

(** The card's [idList] is the key [k]. *)
Definition belongsTo (k : string) (card : JsVal) : bool :=
  match cardListKey card with
  | Some k' => String.eqb k' k
  | None => false
  end.

(** The property [k] of a value that is not [null] or [undefined]. *)
Definition propOf (v : JsVal) (k : string) : JsVal :=
  match getProp v k with
  | Ok x => x
  | Err _ => JUndefined
  end.

(** [get_board_snapshot] from the fetched board on: stitch, then clean. *)
Definition boardSnapshot (boardData : JsVal) : Completion CleanBoard :=
  do stitched <- stitchCards boardData;
  cleanBoard stitched.

(** ** Predicates used in the statements *)

Definition geScore (x y : Scored) : Prop := jsGe (score x) (score y) = true.

Definition finiteScore (x : Scored) : Prop := exists q, score x = Fin q.

(** The accumulator after the cards [seen]: under each key, the cards filed
    under it, in order; no entry for a key without cards. *)
Definition groupedAs (acc : gmap string (list JsVal)) (seen : list JsVal) : Prop :=
  forall k, acc !! k = match List.filter (belongsTo k) seen with
                       | [] => None
                       | cs => Some cs
                       end.

(** ** Sample data *)

Definition roadmapBoards : list Resource :=
  [ mkResource "b1" "Quarterly Roadmap 2025"; mkResource "b2" "Quarterly Roadmap 2026" ].

Definition marketingBoards : list Resource := [ mkResource "b1" "Marketing" ].

Definition afterMarkting : ResolverState :=
  mkResolverState (Some None) (Some (setBoardId (newTrelloCache 5) 10 "Markting" "b1")).

Definition sixLists : list Resource :=
  [ mkResource "l1" "Backlog"; mkResource "l2" "To Do"; mkResource "l3" "In Progress";
    mkResource "l4" "Review"; mkResource "l5" "Done"; mkResource "l6" "Archive" ].

Definition elevenLists : list Resource :=
  map (fun n => mkResource ("l" ++ n) ("Sprint " ++ n))
      [ "1"; "2"; "3"; "4"; "5"; "6"; "7"; "8"; "9"; "10"; "11" ].

Definition sampleCards : list ListedCard :=
  [ mkListedCard "c1" (Some "Fix login bug"); mkListedCard "c2" None;
    mkListedCard "c3" (Some "Write the release notes") ].

Definition memberPayload : JsVal :=
  JObj [ ("id", JStr "m1"); ("fullName", JStr "Ada Lovelace"); ("username", JStr "ada") ].

Definition sampleCardsFlat : list JsVal :=
  [ JObj [ ("id", JStr "c1"); ("name", JStr "Write spec"); ("idList", JStr "L2");
           ("idMembers", JArr [JStr "m1"; JStr "m9"]) ];
    JNull;
    JObj [ ("id", JStr "c2"); ("name", JStr "Orphan") ];
    JObj [ ("id", JStr "c3"); ("name", JStr "Review"); ("idList", JStr "L1") ];
    JObj [ ("id", JStr "c4"); ("name", JStr "Ship"); ("idList", JStr "L2") ] ].

Definition sampleListsFlat : list JsVal :=
  [ JObj [ ("id", JStr "L1"); ("name", JStr "To Do") ];
    JObj [ ("id", JStr "L2"); ("name", JStr "Done"); ("pos", JNum 65536) ];
    JObj [ ("id", JStr "L3"); ("name", JStr "Later") ] ].

Definition sampleBoardFields : list (string * JsVal) :=
  [ ("id", JStr "B1"); ("name", JStr "Roadmap");
    ("members", JArr [ JObj [ ("id", JStr "m1"); ("fullName", JStr "Ada Lovelace") ] ]);
    ("lists", JArr sampleListsFlat);
    ("cards", JArr sampleCardsFlat) ].

Definition cleanedSample (i name : string) (members : list JsVal) : CleanCard :=
  mkCleanCard (JStr i) (JStr name) (JStr "") JNull [] members "0/0" (JStr "") (JBool false).

(** ** The recurrence behind the edit-distance matrix *)

(** [b.charAt(i) === a.charAt(j)] for two positions inside the strings. *)
Definition sameChar (x y : option ascii) : bool :=
  match x, y with
  | Some c, Some d => Ascii.eqb c d
  | _, _ => false
  end.

(** The value the loops of [levenshteinDistance] give [matrix[i][j]]: the
    two initialisation loops for row 0 and column 0, the fill loop
    elsewhere. *)
Fixpoint cell (a b : string) (i : nat) : nat -> nat :=
  match i with
  | O => fun j => j
  | S i' =>
      fix inner (j : nat) : nat :=
        match j with
        | O => S i'
        | S j' =>
            if sameChar (String.get i' b) (String.get j' a) then cell a b i' j'
            else Nat.min (cell a b i' j' + 1)
                         (Nat.min (inner j' + 1) (cell a b i' j + 1))
        end
  end.

(** ** The names the allow-list holds *)

(** The array [getAllowedBoards] computes from a non-empty value of
    [TRELLO_ALLOWED_BOARDS], before the test of its length. *)
Definition parseAllowedBoards (e : string) : list string :=
  List.filter nonEmpty (map (fun board => toLowerCase (trim board)) (splitComma e)).

(** ** cache.ts: the remaining methods *)

(** [invalidateBoard(boardId)]. The loop visits the entries of
    [boardNameToId] in insertion order, which the map itself does not
    record here: [entriesOrder] is that order, the board names that are
    keys of the map, oldest first. *)
Definition invalidateBoard (c : TrelloCache) (entriesOrder : list string) (boardId : string)
  : TrelloCache :=
  let found :=
    List.find (fun name =>
                 match boardNameToId c !! name with
                 | Some entry => String.eqb (value entry) boardId
                 | None => false
                 end) entriesOrder in
  mkTrelloCache
    (match found with
     | Some name => delete name (boardNameToId c)
     | None => boardNameToId c
     end)
    (delete boardId (listsByBoard c))
    (ttlMs c).

(** [getStats()]: the pair [(boards, lists)]. *)
Definition getStats (c : TrelloCache) : nat * nat :=
  (size (boardNameToId c),
   map_fold (fun _ (boardLists : gmap string CacheEntry) (totalLists : nat) =>
               (totalLists + size boardLists)%nat)
            O (listsByBoard c)).

(** ** The bindings of the lookup maps *)

(** [entry] binds [key] in the map built from the field [valueKey]: its
    [id] and its [valueKey] are truthy, and its [id] is the key. *)
Definition boundTo (valueKey : string) (key entry : JsVal) : bool :=
  truthy (propOf entry "id") && truthy (propOf entry valueKey)
  && strictEquals (propOf entry "id") key.

(** What the last entry of [entries] that binds [key] gives. *)
Definition lastBinding (valueKey : string) (key entries : JsVal) : JsVal :=
  match arrayItems entries with
  | Some items =>
      match List.find (boundTo valueKey key) (rev items) with
      | Some entry => propOf entry valueKey
      | None => JUndefined
      end
  | None => JUndefined
  end.

(** The cards a clean list carries show no member. *)
Definition showsNoMember (l : CleanList) : Prop :=
  forall cs, list_cards l = Some cs -> Forall (fun c => card_members c = []) cs.

(** [card.idMembers] when it is an array, and no id otherwise. *)
Definition idMembersOf (card : JsVal) : list JsVal :=
  match arrayItems (propOf card "idMembers") with
  | Some ids => ids
  | None => []
  end.

(** [board.members] when it is an array, and no member otherwise. *)
Definition boardMembers (board : JsVal) : list JsVal :=
  match arrayItems (propOf board "members") with
  | Some items => items
  | None => []
  end.

(** Some member of the board has the id [memberId]. *)
Definition listsMember (board memberId : JsVal) : bool :=
  existsb (fun member => strictEquals (propOf member "id") memberId) (boardMembers board).

(** A board as the snapshot tool hands it to the cleaner, cards inside
    their list. *)
Definition stitchedSample : JsVal :=
  JObj [ ("id", JStr "B1"); ("name", JStr "Roadmap");
         ("members", JArr [ JObj [ ("id", JStr "m1"); ("fullName", JStr "Ada Lovelace") ] ]);
         ("lists",
          JArr [ JObj [ ("id", JStr "L2"); ("name", JStr "Done");
                        ("cards",
                         JArr [ JObj [ ("id", JStr "c1"); ("name", JStr "Write spec");
                                       ("idMembers", JArr [JStr "m1"; JStr "m9"]) ] ]) ] ]) ].

(** ** snapshot.ts: the checks before resolution *)

(** [a || b] on a string that may be missing. *)
Definition orString (a : option string) (b : string) : string :=
  match a with
  | Some s => if nonEmpty s then s else b
  | None => b
  end.

Inductive SnapshotEntry : Type :=
| NameRequired
| Denied (boardName : string)
| Proceed (boardName : string).

(** [get_board_snapshot] up to the call of [resolveBoardId]: [board_name]
    is the argument, [defaultBoard] is [process.env.TRELLO_DEFAULT_BOARD]
    and [allowedEnv] is [process.env.TRELLO_ALLOWED_BOARDS]. [Proceed]
    carries the name passed to [resolveBoardId]. *)
Definition snapshotEntry (board_name defaultBoard allowedEnv : option string)
  : SnapshotEntry :=
  let boardName := trim (orString board_name (orString defaultBoard "")) in
  if negb (nonEmpty boardName) then NameRequired
  else
    let allowedBoards :=
      match allowedEnv with
      | Some e =>
          if nonEmpty e
          then Some (List.filter nonEmpty
                       (map (fun b => toLowerCase (trim b)) (splitComma e)))
          else None
      | None => None
      end in
    match allowedBoards with
    | Some allowed =>
        if negb (includes allowed (toLowerCase boardName)) then Denied boardName
        else Proceed boardName
    | None => Proceed boardName
    end.

Example lev_kitten : levenshteinDistance "kitten" "sitting" = 3%nat.
Proof. reflexivity. Qed.

Example sim_markting :
  similarityScore "markting" "marketing" = Fin (1 - (1 # 9)).
Proof. reflexivity. Qed.

(** * Properties *)

(** ** Strings *)

Lemma toLowerCase_length (s : string) : String.length (toLowerCase s) = String.length s.
Proof. induction s as [|c s IH]; simpl; congruence. Qed.

Lemma lowerChar_idempotent (c : ascii) : lowerChar (lowerChar c) = lowerChar c.
Proof. destruct c as [[] [] [] [] [] [] [] []]; reflexivity. Qed.

Lemma toLowerCase_idempotent (s : string) : toLowerCase (toLowerCase s) = toLowerCase s.
Proof.
  induction s as [|c s IH]; simpl; [reflexivity|].
  now rewrite lowerChar_idempotent, IH.
Qed.

Lemma nonEmpty_length (s : string) : nonEmpty s = true <-> (0 < String.length s)%nat.
Proof. destruct s; simpl; split; intros; try lia; congruence. Qed.

(** ** The edit-distance matrix *)

Lemma fillRow_length (bi : ascii) (a : string) :
  forall prev left, List.length prev = S (String.length a) ->
    List.length (fillRow bi a prev left) = String.length a.
Proof.
  induction a as [|aj a IH]; intros prev left Hlen; simpl.
  - reflexivity.
  - destruct prev as [|diag [|up prev']]; simpl in Hlen; try lia.
    simpl. f_equal. apply IH. simpl. lia.
Qed.

(** Column [j+1] of the new row copies the diagonal cell when the two
    characters agree. *)
Lemma fillRow_diag (bi : ascii) (a : string) :
  forall prev left j, List.length prev = S (String.length a) ->
    String.get j a = Some bi ->
    nth j (fillRow bi a prev left) O = nth j prev O.
Proof.
  induction a as [|aj a IH]; intros prev left j Hlen Hget; simpl in Hget.
  - discriminate.
  - destruct prev as [|diag [|up prev']]; simpl in Hlen; try lia.
    destruct j as [|j].
    + injection Hget as ->. simpl. now rewrite Ascii.eqb_refl.
    + cbn [fillRow nth]. apply IH; [simpl; lia | exact Hget].
Qed.

Lemma append_cons (x : ascii) (s t : string) :
  (String x s ++ t)%string = String x (s ++ t).
Proof. reflexivity. Qed.

Lemma append_nil (t : string) : (EmptyString ++ t)%string = t.
Proof. reflexivity. Qed.

Lemma get_app_middle (pre : string) (c : ascii) (post : string) :
  String.get (String.length pre) (pre ++ String c post) = Some c.
Proof.
  induction pre as [|x pre IH]; [reflexivity|].
  rewrite append_cons. exact IH.
Qed.

Lemma length_app_string (s t : string) :
  String.length (s ++ t) = (String.length s + String.length t)%nat.
Proof.
  induction s as [|x s IH]; [reflexivity|].
  rewrite append_cons. cbn [String.length]. now rewrite IH.
Qed.

Lemma app_string_assoc_cons (pre : string) (c : ascii) (post : string) :
  ((pre ++ String c EmptyString) ++ post = pre ++ String c post)%string.
Proof.
  induction pre as [|x pre IH]; [reflexivity|].
  rewrite !append_cons. now rewrite IH.
Qed.

Lemma app_string_nil_r (s : string) : (s ++ EmptyString)%string = s.
Proof.
  induction s as [|x s IH]; [reflexivity|].
  rewrite append_cons. now rewrite IH.
Qed.

(** With [b = a], the diagonal of the matrix stays at zero. *)
Lemma fillMatrix_diag (a : string) :
  forall b pre prev,
    a = (pre ++ b)%string ->
    List.length prev = S (String.length a) ->
    nth (String.length pre) prev O = O ->
    nth (String.length a)
        (nth (String.length b) (prev :: fillMatrix b a (S (String.length pre)) prev) [])
        O = O.
Proof.
  induction b as [|c b IH]; intros pre prev Ha Hlen Hdiag.
  - simpl. rewrite Ha, app_string_nil_r. exact Hdiag.
  - cbn [String.length fillMatrix nth].
    set (row := S (String.length pre) :: fillRow c a prev (S (String.length pre))).
    specialize (IH (pre ++ String c EmptyString)%string row).
    rewrite length_app_string in IH. simpl in IH.
    replace (String.length pre + 1)%nat with (S (String.length pre)) in IH by lia.
    apply IH.
    + rewrite Ha. symmetry. apply app_string_assoc_cons.
    + subst row. simpl. f_equal. now apply fillRow_length.
    + subst row. cbn [nth]. rewrite fillRow_diag; [exact Hdiag | exact Hlen |].
      rewrite Ha. apply get_app_middle.
Qed.

Lemma levenshteinDistance_refl (a : string) : levenshteinDistance a a = O.
Proof.
  unfold levenshteinDistance, levenshteinMatrix.
  apply (fillMatrix_diag a a EmptyString).
  - reflexivity.
  - now rewrite length_seq.
  - reflexivity.
Qed.

(** ** Numbers *)

Lemma Qlt_bool_iff (a b : Q) : Qlt_bool a b = true <-> (a < b)%Q.
Proof.
  unfold Qlt_bool. rewrite Bool.negb_true_iff. split.
  - intros H. apply Qnot_le_lt. intros Hle. apply Qle_bool_iff in Hle. congruence.
  - intros H. destruct (Qle_bool b a) eqn:E; [|reflexivity].
    apply Qle_bool_iff in E. exfalso. exact (Qlt_not_le _ _ H E).
Qed.

Lemma jsGe_Fin (x y : JsNumber) :
  jsGe x y = true ->
  (exists a b, x = Fin a /\ y = Fin b /\ (b <= a)%Q) \/ x = PosInf \/ y = NegInf.
Proof.
  destruct x as [| | |a], y as [| | |b]; simpl; intros H; try discriminate; auto.
  left. exists a, b. repeat split. now apply Qle_bool_iff.
Qed.

Lemma jsGe_Fin_iff (a b : Q) : jsGe (Fin a) (Fin b) = true <-> (b <= a)%Q.
Proof. simpl. apply Qle_bool_iff. Qed.

Lemma jsLt_Fin_iff (a b : Q) : jsLt (Fin a) (Fin b) = true <-> (a < b)%Q.
Proof. simpl. apply Qlt_bool_iff. Qed.

(** The ambiguity test only depends on the two scores up to equality of
    rationals. *)
Lemma gap_test_compat (a a' b b' : Q) :
  (a == a')%Q -> (b == b')%Q ->
  jsLt (jsAbs (jsSub (Fin a) (Fin b))) ambiguityGap
  = jsLt (jsAbs (jsSub (Fin a') (Fin b'))) ambiguityGap.
Proof.
  intros Ha Hb. unfold ambiguityGap. cbn [jsSub jsAbs].
  apply Bool.eq_true_iff_eq. rewrite !jsLt_Fin_iff.
  now rewrite Ha, Hb.
Qed.

(** ** The similarity of a string with itself *)

Lemma similarityScore_refl (a : string) :
  nonEmpty a = true -> jsEqb (similarityScore a a) jsOne = true.
Proof.
  intros Hne. unfold similarityScore.
  rewrite levenshteinDistance_refl, Nat.max_id.
  destruct a as [|c a]; [discriminate|].
  cbn [String.length jsDivNat jsSub jsOne jsEqb].
  apply Qeq_bool_iff. unfold Qeq, Qminus, Qplus, Qopp. simpl. lia.
Qed.

Lemma similarityScore_empty : similarityScore "" "" = NaN.
Proof. reflexivity. Qed.

(** The formula of the score, whatever the two strings. *)
Lemma similarityScore_formula (a b : string) :
  similarityScore a b
  = jsSub (Fin 1)
      (jsDivNat (levenshteinDistance (toLowerCase a) (toLowerCase b))
                (Nat.max (String.length a) (String.length b))).
Proof. reflexivity. Qed.

(** ** The sort of the scored candidates *)

Lemma geScore_finite_refl (x : Scored) : finiteScore x -> geScore x x.
Proof.
  intros [q Hq]. unfold geScore. rewrite Hq. apply jsGe_Fin_iff. apply Qle_refl.
Qed.

Lemma geScore_trans (x y z : Scored) :
  finiteScore x -> finiteScore y -> finiteScore z ->
  geScore x y -> geScore y z -> geScore x z.
Proof.
  intros [a Ha] [b Hb] [c Hc]. unfold geScore. rewrite Ha, Hb, Hc.
  rewrite !jsGe_Fin_iff. intros H1 H2. eapply Qle_trans; eassumption.
Qed.

Lemma sortsAfter_false_ge (x y : Scored) :
  finiteScore x -> finiteScore y -> sortsAfter x y = false -> geScore x y.
Proof.
  intros [a Ha] [b Hb]. unfold sortsAfter, compareScores, geScore, jsZero.
  rewrite Ha, Hb. cbn [jsSub]. intros H. apply jsGe_Fin_iff.
  destruct (Qlt_le_dec a b) as [Hlt|Hle]; [|exact Hle].
  exfalso. assert (jsLt (Fin 0) (Fin (b - a)) = true) as Habs.
  { apply jsLt_Fin_iff. unfold Qminus. rewrite <- (Qplus_opp_r a).
    apply Qplus_lt_l. exact Hlt. }
  congruence.
Qed.

Lemma sortsAfter_true_ge (x y : Scored) :
  finiteScore x -> finiteScore y -> sortsAfter x y = true -> geScore y x.
Proof.
  intros [a Ha] [b Hb]. unfold sortsAfter, compareScores, geScore, jsZero.
  rewrite Ha, Hb. cbn [jsSub]. intros H. apply jsGe_Fin_iff.
  apply jsLt_Fin_iff in H. apply Qlt_le_weak.
  unfold Qminus in H. rewrite <- (Qplus_opp_r a) in H.
  now apply Qplus_lt_l in H.
Qed.

Lemma insertScored_perm (x : Scored) (l : list Scored) :
  Permutation (insertScored x l) (x :: l).
Proof.
  induction l as [|y l IH]; simpl; [reflexivity|].
  destruct (sortsAfter x y); [|reflexivity].
  rewrite IH. apply perm_swap.
Qed.

Lemma sortScores_perm (l : list Scored) : Permutation (sortScores l) l.
Proof.
  induction l as [|x l IH]; simpl; [reflexivity|].
  rewrite insertScored_perm. now constructor.
Qed.

Lemma insertScored_sorted (x : Scored) (l : list Scored) :
  finiteScore x -> Forall finiteScore l ->
  StronglySorted geScore l -> StronglySorted geScore (insertScored x l).
Proof.
  intros Hx Hfin Hs. induction Hs as [|y l Hs IH Hy]; simpl.
  - repeat constructor.
  - inversion Hfin as [|? ? Hfy Hfl]; subst.
    destruct (sortsAfter x y) eqn:E.
    + constructor; [now apply IH|].
      eapply Permutation_Forall.
      * symmetry. apply insertScored_perm.
      * constructor; [now apply sortsAfter_true_ge | exact Hy].
    + constructor; [now constructor|].
      assert (geScore x y) as Hxy by now apply sortsAfter_false_ge.
      constructor; [exact Hxy|].
      rewrite List.Forall_forall in Hy, Hfl |- *. intros z Hz.
      eapply (geScore_trans x y z); auto.
Qed.

Lemma sortScores_sorted (l : list Scored) :
  Forall finiteScore l -> StronglySorted geScore (sortScores l).
Proof.
  induction 1 as [|x l Hx Hl IH]; simpl; [constructor|].
  apply insertScored_sorted; [exact Hx | | exact IH].
  eapply Permutation_Forall; [symmetry; apply sortScores_perm | exact Hl].
Qed.

Lemma similarityScore_cases (a b : string) :
  similarityScore a b = NaN \/ exists q, similarityScore a b = Fin q.
Proof.
  unfold similarityScore.
  destruct (Nat.max (String.length a) (String.length b)) as [|m] eqn:Hmax.
  - destruct a, b; simpl in Hmax; try lia. left. reflexivity.
  - right. cbn [jsDivNat jsSub jsOne]. eauto.
Qed.

Lemma jsGe_not_NaN_l (x y : JsNumber) : jsGe x y = true -> x <> NaN.
Proof. destruct x; simpl; congruence. Qed.

Lemma jsGe_not_NaN_r (x y : JsNumber) : jsGe x y = true -> y <> NaN.
Proof. destruct x, y; simpl; congruence. Qed.

(** The first two entries of a descending list carry the two best scores
    of any enumeration of the same entries. *)
Lemma top_two_of_sorted (h k : Scored) (t : list Scored) (e0 e1 : Scored) (R : list Scored) :
  Forall finiteScore (e0 :: e1 :: R) ->
  StronglySorted geScore (h :: k :: t) ->
  Permutation (h :: k :: t) (e0 :: e1 :: R) ->
  geScore e0 e1 ->
  (forall e, In e R -> geScore e0 e) ->
  (forall e, In e R -> geScore e1 e) ->
  (geScore h e0 /\ geScore e0 h) /\ (geScore k e1 /\ geScore e1 k).
Proof.
  intros Hfin Hs Hp H01 H0 H1.
  assert (forall e, In e (e0 :: e1 :: R) -> finiteScore e) as Hf.
  { now apply List.Forall_forall. }
  assert (forall e, In e (h :: k :: t) -> finiteScore e) as Hf'.
  { intros e He. apply Hf. eapply Permutation_in; eassumption. }
  inversion Hs as [|? ? Hs' Hh]; subst.
  inversion Hs' as [|? ? _ Hk]; subst.
  rewrite List.Forall_forall in Hh, Hk.
  assert (forall e, In e (k :: t) -> geScore k e) as Hk'.
  { intros e [<-|He]; [apply geScore_finite_refl; apply Hf'; simpl; auto | now apply Hk]. }
  assert (In h (e0 :: e1 :: R)) as Hin.
  { eapply Permutation_in; [exact Hp | now left]. }
  destruct (in_split _ _ Hin) as (l1 & l2 & Hsplit).
  rewrite Hsplit in Hp. apply Permutation_cons_app_inv in Hp.
  assert (forall e, In e (l1 ++ l2) -> In e (k :: t)) as Hback.
  { intros e He. eapply Permutation_in; [symmetry; exact Hp | exact He]. }
  assert (In k (l1 ++ l2)) as Hkin.
  { eapply Permutation_in; [exact Hp | now left]. }
  assert (finiteScore e0) as F0 by (apply Hf; simpl; auto).
  assert (finiteScore e1) as F1 by (apply Hf; simpl; auto).
  assert (finiteScore h) as Fh by (apply Hf'; simpl; auto).
  assert (finiteScore k) as Fk by (apply Hf'; simpl; auto).
  destruct l1 as [|x [|y l1]]; simpl in Hsplit.
  - (* the head is [e0] itself *)
    injection Hsplit as E0 E1. subst e0 l2.
    split; [split; now apply geScore_finite_refl|].
    split.
    + apply Hk'. apply Hback. simpl. auto.
    + simpl in Hkin. destruct Hkin as [<-|Hkin];
        [now apply geScore_finite_refl | now apply H1].
  - (* the head is [e1] *)
    injection Hsplit as E0 E1 E2. subst x e1 l2.
    assert (geScore h e0) as Hh0 by (apply Hh, Hback; simpl; auto).
    split; [split; [exact Hh0 | exact H01]|].
    split.
    + apply (geScore_trans k e0 h); auto. apply Hk', Hback. simpl. auto.
    + simpl in Hkin. destruct Hkin as [<-|Hkin]; [exact Hh0 | now apply H1].
  - (* the head is further down the enumeration *)
    injection Hsplit as E0 E1 E2. subst x y R.
    assert (In h (l1 ++ h :: l2)) as HhR by (apply in_or_app; simpl; auto).
    assert (geScore h e0) as Hh0 by (apply Hh, Hback; simpl; auto).
    split; [split; [exact Hh0 | now apply H0]|].
    split.
    + apply (geScore_trans k e0 e1); auto. apply Hk', Hback. simpl. auto.
    + simpl in Hkin. destruct Hkin as [<-|[<-|Hkin]].
      * apply (geScore_trans e1 h e0); auto.
      * now apply geScore_finite_refl.
      * apply H1. apply in_or_app. apply in_app_or in Hkin.
        destruct Hkin; [left|right; right]; assumption.
Qed.

Lemma geScore_antisym (x y : Scored) :
  finiteScore x -> finiteScore y -> geScore x y -> geScore y x ->
  exists a b, score x = Fin a /\ score y = Fin b /\ (a == b)%Q.
Proof.
  intros [a Ha] [b Hb]. unfold geScore. rewrite Ha, Hb, !jsGe_Fin_iff.
  intros H1 H2. exists a, b. repeat split. now apply Qle_antisym.
Qed.

Lemma fuzzyMatch_unfold (input : string) (candidates : list string) :
  candidates <> [] ->
  fuzzyMatch input candidates =
    match sortScores (scoreCandidates (trim (toLowerCase input)) candidates) with
    | [] => None
    | best :: rest =>
        match rest with
        | secondBest :: _ =>
            if jsLt (jsAbs (jsSub (score best) (score secondBest))) ambiguityGap
            then None
            else Some (mkFuzzyMatch (candidate best) (score best))
        | [] => Some (mkFuzzyMatch (candidate best) (score best))
        end
    end.
Proof. destruct candidates; [congruence | reflexivity]. Qed.

(** The ambiguity rule of [fuzzyMatch], stated without reference to the
    sort: [c0] is a best candidate, [c1] a best one among the others. *)
Lemma fuzzyMatch_ambiguous (input : string) (candidates : list string)
    (c0 c1 : string) (others : list string) :
  let sc c := similarityScore (trim (toLowerCase input)) (trim (toLowerCase c)) in
  Permutation candidates (c0 :: c1 :: others) ->
  jsGe (sc c0) (sc c1) = true ->
  (forall c, In c others -> jsGe (sc c0) (sc c) = true) ->
  (forall c, In c others -> jsGe (sc c1) (sc c) = true) ->
  jsLt (jsAbs (jsSub (sc c0) (sc c1))) ambiguityGap = true ->
  fuzzyMatch input candidates = None.
Proof.
  intros sc Hp H01 H0 H1 Hgap.
  set (ni := trim (toLowerCase input)) in *.
  set (g := fun c => mkScored c (similarityScore ni (trim (toLowerCase c)))).
  assert (forall c, score (g c) = sc c) as Hsc by reflexivity.
  assert (forall x y, jsGe (sc x) (sc y) = true -> finiteScore (g x) /\ finiteScore (g y)) as Hfin2.
  { intros x y Hge. unfold finiteScore. rewrite !Hsc. unfold sc in *. split.
    - destruct (similarityScore_cases ni (trim (toLowerCase x))) as [E|E]; [|exact E].
      exfalso. eapply jsGe_not_NaN_l; eassumption.
    - destruct (similarityScore_cases ni (trim (toLowerCase y))) as [E|E]; [|exact E].
      exfalso. eapply jsGe_not_NaN_r; eassumption. }
  assert (Forall finiteScore (g c0 :: g c1 :: map g others)) as Hfin.
  { constructor; [apply (Hfin2 c0 c1 H01)|].
    constructor; [apply (Hfin2 c0 c1 H01)|].
    apply List.Forall_forall. intros e He. apply in_map_iff in He.
    destruct He as (c & <- & Hc). apply (Hfin2 c0 c). now apply H0. }
  assert (Permutation (scoreCandidates ni candidates) (g c0 :: g c1 :: map g others)) as HpS.
  { unfold scoreCandidates. fold g. apply (Permutation_map g) in Hp. exact Hp. }
  assert (candidates <> []) as Hne.
  { intros ->. apply Permutation_nil in Hp. discriminate. }
  rewrite fuzzyMatch_unfold by exact Hne. fold ni.
  pose proof (sortScores_perm (scoreCandidates ni candidates)) as Hsp.
  assert (StronglySorted geScore (sortScores (scoreCandidates ni candidates))) as Hss.
  { apply sortScores_sorted. eapply Permutation_Forall; [symmetry; exact HpS | exact Hfin]. }
  assert (Permutation (sortScores (scoreCandidates ni candidates))
                      (g c0 :: g c1 :: map g others)) as Hp2.
  { etransitivity; eassumption. }
  destruct (sortScores (scoreCandidates ni candidates)) as [|h [|k t]].
  - apply Permutation_nil in Hp2. discriminate.
  - apply Permutation_length in Hp2. simpl in Hp2. lia.
  - destruct (top_two_of_sorted h k t (g c0) (g c1) (map g others) Hfin Hss Hp2)
      as [[Hh0 H0h] [Hk1 H1k]].
    + exact H01.
    + intros e He. apply in_map_iff in He. destruct He as (c & <- & Hc).
      unfold geScore. rewrite !Hsc. now apply H0.
    + intros e He. apply in_map_iff in He. destruct He as (c & <- & Hc).
      unfold geScore. rewrite !Hsc. now apply H1.
    + assert (Forall finiteScore (h :: k :: t)) as Hfhk.
      { eapply Permutation_Forall; [symmetry; exact Hp2 | exact Hfin]. }
      inversion Hfhk as [|? ? Fh Hfk]; subst. inversion Hfk as [|? ? Fk _]; subst.
      inversion Hfin as [|? ? F0 Hf1]; subst. inversion Hf1 as [|? ? F1 _]; subst.
      destruct (geScore_antisym h (g c0) Fh F0 Hh0 H0h) as (a & a' & Ea & Ea' & Haa).
      destruct (geScore_antisym k (g c1) Fk F1 Hk1 H1k) as (b & b' & Eb & Eb' & Hbb).
      rewrite Ea, Eb, (gap_test_compat a a' b b' Haa Hbb), <- Ea', <- Eb', !Hsc.
      now rewrite Hgap.
Qed.

(** ** The resolvers up to the fuzzy step *)

(** Once the guard has passed and the cache has given nothing, the board
    resolver continues with the boards request. *)
Lemma resolveBoardId_after_miss (boardName : string) (st : ResolverState)
    (env : option string) (tLookup : Z) (resp : Fetched (Listing Resource)) (tStore : Z) :
  fst (ensureBoardAllowed boardName env (cachedAllowedBoards st)) = Ok tt ->
  (forall c, cache st = Some c -> fst (getBoardId c tLookup boardName) = None) ->
  resolveBoardId boardName st env tLookup resp tStore =
    (fst (resolveBoardFromFetch boardName
            ((fun c => snd (getBoardId c tLookup boardName)) <$> cache st) resp tStore),
     mkResolverState
       (snd (ensureBoardAllowed boardName env (cachedAllowedBoards st)))
       (snd (resolveBoardFromFetch boardName
               ((fun c => snd (getBoardId c tLookup boardName)) <$> cache st) resp tStore))).
Proof.
  intros Hguard Hmiss. unfold resolveBoardId.
  destruct (ensureBoardAllowed boardName env (cachedAllowedBoards st)) as [guard memo].
  simpl in Hguard. subst guard. simpl.
  destruct (cache st) as [c|]; simpl.
  - specialize (Hmiss c eq_refl).
    destruct (getBoardId c tLookup boardName) as [r c']. simpl in Hmiss. subst r. simpl.
    now destruct (resolveBoardFromFetch boardName (Some c') resp tStore).
  - now destruct (resolveBoardFromFetch boardName None resp tStore).
Qed.

Lemma resolveListId_after_miss (boardId listName : string) (cache : option TrelloCache)
    (tLookup : Z) (resp : Fetched (Listing Resource)) (tStore : Z) :
  (forall c, cache = Some c -> fst (getListId c tLookup boardId listName) = None) ->
  resolveListId boardId listName cache tLookup resp tStore =
    resolveListFromFetch boardId listName
      ((fun c => snd (getListId c tLookup boardId listName)) <$> cache) resp tStore.
Proof.
  intros Hmiss. unfold resolveListId.
  destruct cache as [c|]; simpl; [|reflexivity].
  specialize (Hmiss c eq_refl).
  destruct (getListId c tLookup boardId listName) as [r c']. simpl in Hmiss. now subst r.
Qed.

Lemma resolveBoardFromListing_ambiguous (boardName : string) (cache : option TrelloCache)
    (boards : list Resource) (tStore : Z) :
  findExact (trim (toLowerCase boardName)) boards = None ->
  fuzzyMatch boardName (map res_name boards) = None ->
  resolveBoardFromListing boardName cache boards tStore =
    (Err (AmbiguousName KBoard boardName (slice0 10 (map res_name boards))), cache).
Proof. intros He Hf. unfold resolveBoardFromListing. now rewrite He, Hf. Qed.

Lemma resolveListFromListing_ambiguous (boardId listName : string)
    (cache : option TrelloCache) (lists : list Resource) (tStore : Z) :
  findExact (trim (toLowerCase listName)) lists = None ->
  fuzzyMatch listName (map res_name lists) = None ->
  resolveListFromListing boardId listName cache lists tStore =
    (Err (AmbiguousName KList listName (map res_name lists)), cache).
Proof. intros He Hf. unfold resolveListFromListing. now rewrite He, Hf. Qed.

Lemma jsGe_trans_scores (a b c d e f : string) :
  jsGe (similarityScore a b) (similarityScore c d) = true ->
  jsGe (similarityScore c d) (similarityScore e f) = true ->
  jsGe (similarityScore a b) (similarityScore e f) = true.
Proof.
  intros H1 H2.
  destruct (similarityScore_cases a b) as [E1|[x E1]];
    [exfalso; exact (jsGe_not_NaN_l _ _ H1 E1)|].
  destruct (similarityScore_cases c d) as [E2|[y E2]];
    [exfalso; exact (jsGe_not_NaN_r _ _ H1 E2)|].
  destruct (similarityScore_cases e f) as [E3|[z E3]];
    [exfalso; exact (jsGe_not_NaN_r _ _ H2 E3)|].
  rewrite E1, E2, E3 in *. rewrite jsGe_Fin_iff in *.
  eapply Qle_trans; eassumption.
Qed.

(** C1. Whenever there are at least two candidates and the two best
    similarity scores differ by less than 0.05, [fuzzyMatch] returns no
    match, however high the best score is; board resolution that reaches
    the fuzzy step then fails with AmbiguousName (showing the first ten
    names) and list resolution fails with AmbiguousName as well, instead of
    accepting the best candidate. [c0] is a best candidate and [c1] a best
    one among the others. *)
Theorem ambiguous_top_two_is_rejected (input : string) (listing : list Resource)
    (c0 c1 : string) (others : list string) :
  let sc c := similarityScore (trim (toLowerCase input)) (trim (toLowerCase c)) in
  Permutation (map res_name listing) (c0 :: c1 :: others) ->
  jsGe (sc c0) (sc c1) = true ->
  (forall c, In c others -> jsGe (sc c1) (sc c) = true) ->
  jsLt (jsAbs (jsSub (sc c0) (sc c1))) ambiguityGap = true ->
  fuzzyMatch input (map res_name listing) = None
  /\ (forall st env tLookup tStore,
        fst (ensureBoardAllowed input env (cachedAllowedBoards st)) = Ok tt ->
        (forall c, cache st = Some c -> fst (getBoardId c tLookup input) = None) ->
        findExact (trim (toLowerCase input)) listing = None ->
        fst (resolveBoardId input st env tLookup (Body (Some listing)) tStore)
        = Err (AmbiguousName KBoard input (slice0 10 (map res_name listing))))
  /\ (forall boardId cache tLookup tStore,
        (forall c, cache = Some c -> fst (getListId c tLookup boardId input) = None) ->
        findExact (trim (toLowerCase input)) listing = None ->
        fst (resolveListId boardId input cache tLookup (Body (Some listing)) tStore)
        = Err (AmbiguousName KList input (map res_name listing))).
Proof.
  intros sc Hp H01 H1 Hgap.
  assert (fuzzyMatch input (map res_name listing) = None) as Hfm.
  { apply (fuzzyMatch_ambiguous input _ c0 c1 others); auto.
    intros c Hc. eapply jsGe_trans_scores; [exact H01 | now apply H1]. }
  assert (exists b bs, listing = b :: bs) as (b & bs & Hl).
  { destruct listing as [|b bs]; [|eauto].
    apply Permutation_nil in Hp. discriminate. }
  split; [exact Hfm|]. split.
  - intros st env tLookup tStore Hguard Hmiss Hexact.
    rewrite resolveBoardId_after_miss by assumption. cbn [fst].
    rewrite Hl. cbn [resolveBoardFromFetch]. rewrite <- Hl.
    now rewrite resolveBoardFromListing_ambiguous.
  - intros boardId cache tLookup tStore Hmiss Hexact.
    rewrite resolveListId_after_miss by assumption.
    rewrite Hl. cbn [resolveListFromFetch]. rewrite <- Hl.
    now rewrite resolveListFromListing_ambiguous.
Qed.

Lemma ambiguous_top_two_is_rejected_witness :
  fuzzyMatch "Quarterly Roadmap 2024" (map res_name roadmapBoards) = None
  /\ fst (resolveBoardId "Quarterly Roadmap 2024" (mkResolverState None None) None 0
            (Body (Some roadmapBoards)) 0)
     = Err (AmbiguousName KBoard "Quarterly Roadmap 2024"
              [ "Quarterly Roadmap 2025"; "Quarterly Roadmap 2026" ]).
Proof.
  destruct (ambiguous_top_two_is_rejected "Quarterly Roadmap 2024" roadmapBoards
              "Quarterly Roadmap 2025" "Quarterly Roadmap 2026" [])
    as (Hfuzzy & Hboard & _).
  - apply Permutation_refl.
  - vm_compute. reflexivity.
  - intros c [].
  - vm_compute. reflexivity.
  - split; [exact Hfuzzy|].
    apply (Hboard (mkResolverState None None) None 0 0).
    + reflexivity.
    + intros c Hc. discriminate Hc.
    + vm_compute. reflexivity.
Defined.

(** ** Exact matches *)

Lemma find_first {A} (f : A -> bool) (l : list A) (x : A) :
  List.find f l = Some x ->
  exists pre post, l = pre ++ x :: post /\ f x = true /\ (forall y, In y pre -> f y = false).
Proof.
  induction l as [|a l IH]; simpl; [discriminate|].
  destruct (f a) eqn:Fa.
  - intros [= ->]. exists [], l. repeat split; [exact Fa | intros y []].
  - intros H. destruct (IH H) as (pre & post & -> & Hx & Hpre).
    exists (a :: pre), post. repeat split; [exact Hx|].
    intros y [<-|Hy]; [exact Fa | now apply Hpre].
Qed.

Lemma find_exists {A} (f : A -> bool) (l : list A) (x : A) :
  In x l -> f x = true -> exists y, List.find f l = Some y.
Proof.
  induction l as [|a l IH]; simpl; [intros []|].
  intros Hin Hx. destruct (f a) eqn:Fa; [eauto|].
  destruct Hin as [->|Hin]; [congruence | now apply IH].
Qed.

Lemma findExact_Some (normalizedInput : string) (xs : list Resource) (hit : Resource) :
  findExact normalizedInput xs = Some hit ->
  exists pre post,
    xs = pre ++ hit :: post
    /\ trim (toLowerCase (res_name hit)) = normalizedInput
    /\ (forall y, In y pre -> trim (toLowerCase (res_name y)) <> normalizedInput).
Proof.
  intros H. apply find_first in H. destruct H as (pre & post & -> & Hx & Hpre).
  exists pre, post. repeat split.
  - now apply String.eqb_eq.
  - intros y Hy. apply String.eqb_neq. now apply Hpre.
Qed.

Lemma findExact_None (normalizedInput : string) (xs : list Resource) :
  findExact normalizedInput xs = None ->
  forall y, In y xs -> trim (toLowerCase (res_name y)) <> normalizedInput.
Proof.
  intros H y Hy. apply String.eqb_neq.
  exact (find_none _ _ H y Hy).
Qed.

(** An answer with [exactMatch = true] computed from a listing is the id of
    an exact match: the fuzzy path only answers with [exactMatch = false]. *)
Lemma resolveBoardFromListing_exact_only (boardName : string)
    (cache : option TrelloCache) (boards : list Resource) (tStore : Z) (i : string) :
  fst (resolveBoardFromListing boardName cache boards tStore) = Ok (mkResolved i true) ->
  exists hit, findExact (trim (toLowerCase boardName)) boards = Some hit /\ res_id hit = i.
Proof.
  unfold resolveBoardFromListing.
  destruct (findExact (trim (toLowerCase boardName)) boards) as [hit|].
  - cbn [fst]. intros [= Hid]. eauto.
  - destruct (fuzzyMatch boardName (map res_name boards)) as [m|]; [|discriminate].
    destruct (jsLt (fm_score m) acceptThreshold); [discriminate|].
    destruct (findByName (fm_match m) boards); discriminate.
Qed.

(** C3. When the listing contains a candidate whose name equals the
    requested name up to case and surrounding white space, board resolution
    and list resolution return the id of the first such candidate (the
    candidate itself when it is the only one) with [exactMatch = true] and
    store it in the cache; the fuzzy matcher plays no part, whatever the
    other names of the listing are. *)
Theorem exact_match_short_circuits (name : string) (listing : list Resource) (x : Resource) :
  In x listing ->
  trim (toLowerCase (res_name x)) = trim (toLowerCase name) ->
  exists hit pre post,
    listing = pre ++ hit :: post
    /\ trim (toLowerCase (res_name hit)) = trim (toLowerCase name)
    /\ (forall y, In y pre -> trim (toLowerCase (res_name y)) <> trim (toLowerCase name))
    /\ ((forall y, In y listing ->
           trim (toLowerCase (res_name y)) = trim (toLowerCase name) -> y = x) -> hit = x)
    /\ (forall st env tLookup tStore,
          fst (ensureBoardAllowed name env (cachedAllowedBoards st)) = Ok tt ->
          (forall c, cache st = Some c -> fst (getBoardId c tLookup name) = None) ->
          resolveBoardId name st env tLookup (Body (Some listing)) tStore
          = (Ok (mkResolved (res_id hit) true),
             mkResolverState
               (snd (ensureBoardAllowed name env (cachedAllowedBoards st)))
               ((fun c => setBoardId (snd (getBoardId c tLookup name)) tStore name (res_id hit))
                  <$> cache st)))
    /\ (forall boardId cache tLookup tStore,
          (forall c, cache = Some c -> fst (getListId c tLookup boardId name) = None) ->
          resolveListId boardId name cache tLookup (Body (Some listing)) tStore
          = (Ok (mkResolved (res_id hit) true),
             (fun c => setListId (snd (getListId c tLookup boardId name)) tStore boardId name
                         (res_id hit)) <$> cache)).
Proof.
  intros Hin Hname.
  destruct (find_exists
              (fun y => String.eqb (trim (toLowerCase (res_name y))) (trim (toLowerCase name)))
              listing x Hin) as [hit Hfind].
  { now apply String.eqb_eq. }
  change (findExact (trim (toLowerCase name)) listing = Some hit) in Hfind.
  destruct (findExact_Some _ _ _ Hfind) as (pre & post & Hl & Hhit & Hpre).
  exists hit, pre, post. split; [exact Hl|]. split; [exact Hhit|]. split; [exact Hpre|].
  split; [|split].
  - intros Huniq. apply Huniq; [|exact Hhit].
    rewrite Hl. apply in_or_app. right. now left.
  - intros st env tLookup tStore Hguard Hmiss.
    rewrite resolveBoardId_after_miss by assumption.
    destruct listing as [|b bs]; [destruct pre; discriminate|].
    cbn [resolveBoardFromFetch]. unfold resolveBoardFromListing. rewrite Hfind.
    cbn [fst snd]. f_equal. f_equal. now destruct (cache st).
  - intros boardId cache tLookup tStore Hmiss.
    rewrite resolveListId_after_miss by assumption.
    destruct listing as [|b bs]; [destruct pre; discriminate|].
    cbn [resolveListFromFetch]. unfold resolveListFromListing. rewrite Hfind.
    f_equal. now destruct cache.
Qed.

Lemma exact_match_short_circuits_witness :
  fuzzyMatch "quarterly roadmap 2025 " (map res_name roadmapBoards) = None
  /\ fst (resolveBoardId "quarterly roadmap 2025 " (mkResolverState None None) None 0
            (Body (Some roadmapBoards)) 0)
     = Ok (mkResolved "b1" true)
  /\ fst (resolveListId "board" "DEV" None 0
            (Body (Some [mkResource "l1" "Devs"; mkResource "l2" "Dev"])) 0)
     = Ok (mkResolved "l2" true).
Proof.
  split; [vm_compute; reflexivity|]. split.
  - destruct (exact_match_short_circuits "quarterly roadmap 2025 " roadmapBoards
                (mkResource "b1" "Quarterly Roadmap 2025"))
      as (hit & pre & post & Hl & _ & _ & Huniq & Hboard & _).
    + simpl. auto.
    + vm_compute. reflexivity.
    + rewrite (Hboard (mkResolverState None None) None 0 0).
      * cbn [fst]. rewrite Huniq; [reflexivity|].
        intros y [<-|[<-|[]]]; [reflexivity|]. vm_compute. discriminate.
      * reflexivity.
      * intros c Hc. discriminate Hc.
  - destruct (exact_match_short_circuits "DEV"
                [mkResource "l1" "Devs"; mkResource "l2" "Dev"] (mkResource "l2" "Dev"))
      as (hit & pre & post & Hl & _ & _ & Huniq & _ & Hlist).
    + simpl. auto.
    + vm_compute. reflexivity.
    + rewrite (Hlist "board" None 0 0).
      * cbn [fst]. rewrite Huniq; [reflexivity|].
        intros y [<-|[<-|[]]]; [|reflexivity]. vm_compute. discriminate.
      * intros c Hc. discriminate Hc.
Defined.

(** ** The cache *)

Lemma isValid_iff (c : TrelloCache) (now : Z) (e : CacheEntry) :
  isValid c now (Some e) = true <-> now - timestamp e < ttlMs c.
Proof. unfold isValid. apply Z.ltb_lt. Qed.

Ltac cache_simpl :=
  cbn [isValid timestamp value ttlMs listsByBoard boardNameToId fst snd
       fmap option_fmap option_map].

Lemma getBoardId_fresh (c : TrelloCache) (name name' boardId : string) (T t : Z) :
  trim (toLowerCase name') = trim (toLowerCase name) ->
  t - T < ttlMs c ->
  getBoardId (setBoardId c T name boardId) t name'
  = (Some boardId, setBoardId c T name boardId).
Proof.
  intros Hkey Hage. unfold getBoardId, setBoardId. cache_simpl.
  rewrite Hkey, lookup_insert_eq. cache_simpl.
  now apply Z.ltb_lt in Hage as ->.
Qed.

Lemma getBoardId_expired (c : TrelloCache) (name name' boardId : string) (T t : Z) :
  trim (toLowerCase name') = trim (toLowerCase name) ->
  ttlMs c <= t - T ->
  getBoardId (setBoardId c T name boardId) t name'
  = (None, mkTrelloCache (delete (trim (toLowerCase name)) (boardNameToId c))
             (listsByBoard c) (ttlMs c)).
Proof.
  intros Hkey Hage. unfold getBoardId, setBoardId. cache_simpl.
  rewrite Hkey, lookup_insert_eq. cache_simpl.
  apply Z.ltb_ge in Hage as ->. now rewrite delete_insert_eq.
Qed.

Lemma getListId_fresh (c : TrelloCache) (boardId name name' listId : string) (T t : Z) :
  trim (toLowerCase name') = trim (toLowerCase name) ->
  t - T < ttlMs c ->
  getListId (setListId c T boardId name listId) t boardId name'
  = (Some listId, setListId c T boardId name listId).
Proof.
  intros Hkey Hage. unfold getListId, setListId. cache_simpl.
  rewrite Hkey, !lookup_insert_eq. cache_simpl.
  now apply Z.ltb_lt in Hage as ->.
Qed.

Lemma getListId_expired (c : TrelloCache) (boardId name name' listId : string) (T t : Z) :
  trim (toLowerCase name') = trim (toLowerCase name) ->
  ttlMs c <= t - T ->
  exists boardLists,
    getListId (setListId c T boardId name listId) t boardId name'
    = (None, mkTrelloCache (boardNameToId c)
               (<[boardId := boardLists]> (listsByBoard c)) (ttlMs c))
    /\ boardLists !! trim (toLowerCase name) = None.
Proof.
  intros Hkey Hage. unfold getListId, setListId. cache_simpl.
  rewrite Hkey, !lookup_insert_eq. cache_simpl.
  apply Z.ltb_ge in Hage as ->.
  eexists. split.
  - rewrite insert_insert_eq. reflexivity.
  - apply lookup_delete_eq.
Qed.

(** C4. An entry stored at time [T] is returned by every read strictly
    before [T + ttl]; a read at [T + ttl] or later reports absence and
    leaves a store from which the entry has been removed; validity is
    exactly [now - storedAt < ttl], and [ttl] is set by the constructor and
    changed by no operation. The same holds for the per-board list
    entries. *)
Theorem cache_entry_lifetime (c : TrelloCache) (name name' value : string) (T t : Z) :
  trim (toLowerCase name') = trim (toLowerCase name) ->
  let key := trim (toLowerCase name) in
  let stored := setBoardId c T name value in
  (forall e now, isValid c now (Some e) = true <-> now - timestamp e < ttlMs c)
  /\ (forall ttlMinutes, ttlMs (newTrelloCache ttlMinutes) = ttlMinutes * 60 * 1000)
  /\ ttlMs stored = ttlMs c
  /\ ttlMs (snd (getBoardId stored t name')) = ttlMs c
  /\ boardNameToId stored !! key = Some (mkCacheEntry value T)
  /\ (t < T + ttlMs c -> getBoardId stored t name' = (Some value, stored))
  /\ (T + ttlMs c <= t ->
        fst (getBoardId stored t name') = None
        /\ boardNameToId (snd (getBoardId stored t name')) !! key = None
        /\ boardNameToId (snd (getBoardId stored t name'))
           = delete key (boardNameToId stored))
  /\ (forall boardId,
        let storedList := setListId c T boardId name value in
        (t < T + ttlMs c ->
           getListId storedList t boardId name' = (Some value, storedList))
        /\ (T + ttlMs c <= t ->
              fst (getListId storedList t boardId name') = None
              /\ exists boardLists,
                   listsByBoard (snd (getListId storedList t boardId name')) !! boardId
                   = Some boardLists
                   /\ boardLists !! key = None)).
Proof.
  intros Hkey key stored.
  split; [intros e now; apply isValid_iff|].
  split; [reflexivity|]. split; [reflexivity|].
  assert (t < T + ttlMs c \/ T + ttlMs c <= t) as Hcases by lia.
  split.
  { destruct Hcases as [Hlt|Hge].
    - subst stored. rewrite getBoardId_fresh by (auto; lia). reflexivity.
    - subst stored. rewrite getBoardId_expired by (auto; lia). reflexivity. }
  split.
  { subst stored key. unfold setBoardId. cbn [boardNameToId]. apply lookup_insert_eq. }
  split.
  { intros Hlt. subst stored. apply getBoardId_fresh; [exact Hkey | lia]. }
  split.
  { intros Hge. subst stored key. rewrite getBoardId_expired by (auto; lia).
    cbn [fst snd boardNameToId]. split; [reflexivity|]. split.
    - apply lookup_delete_eq.
    - unfold setBoardId. cbn [boardNameToId]. now rewrite delete_insert_eq. }
  intros boardId storedList. split.
  - intros Hlt. subst storedList. apply getListId_fresh; [exact Hkey | lia].
  - intros Hge. subst storedList key.
    destruct (getListId_expired c boardId name name' value T t Hkey) as (bl & -> & Hbl);
      [lia|].
    cbn [fst snd listsByBoard]. split; [reflexivity|].
    exists bl. split; [apply lookup_insert_eq | exact Hbl].
Qed.

Lemma cache_entry_lifetime_witness :
  getBoardId (setBoardId (newTrelloCache 5) 1000 "Marketing" "b42") 300999 " marketing"
  = (Some "b42", setBoardId (newTrelloCache 5) 1000 "Marketing" "b42")
  /\ fst (getBoardId (setBoardId (newTrelloCache 5) 1000 "Marketing" "b42") 301000
            " marketing") = None
  /\ boardNameToId
       (snd (getBoardId (setBoardId (newTrelloCache 5) 1000 "Marketing" "b42") 301000
               " marketing")) !! "marketing" = None.
Proof.
  assert (trim (toLowerCase " marketing") = trim (toLowerCase "Marketing")) as Hkey
    by reflexivity.
  split.
  - destruct (cache_entry_lifetime (newTrelloCache 5) "Marketing" " marketing" "b42"
                1000 300999 Hkey) as (_ & _ & _ & _ & _ & Hhit & _).
    apply Hhit. vm_compute. reflexivity.
  - destruct (cache_entry_lifetime (newTrelloCache 5) "Marketing" " marketing" "b42"
                1000 301000 Hkey) as (_ & _ & _ & _ & _ & _ & Hmiss & _).
    destruct Hmiss as (Hnone & Hgone & _); [vm_compute; discriminate|].
    split; [exact Hnone | exact Hgone].
Defined.

(** ** What a fuzzy acceptance leaves in the cache *)

Lemma getBoardId_ttl (c : TrelloCache) (now : Z) (name : string) :
  ttlMs (snd (getBoardId c now name)) = ttlMs c.
Proof.
  unfold getBoardId.
  destruct (isValid c now (boardNameToId c !! trim (toLowerCase name))); [reflexivity|].
  now destruct (boardNameToId c !! trim (toLowerCase name)).
Qed.

(** The allow-list is read once: after a first check, later checks of the
    same name give the same verdict whatever the environment holds. *)
Lemma ensureBoardAllowed_stable (boardName : string) (env env2 : option string)
    (memo memo' : AllowedMemo) (verdict : Result ResolveError unit) :
  ensureBoardAllowed boardName env memo = (verdict, memo') ->
  ensureBoardAllowed boardName env2 memo' = (verdict, memo').
Proof.
  unfold ensureBoardAllowed.
  destruct (getAllowedBoards env memo) as [allowed m1] eqn:E1.
  assert (m1 = Some allowed) as ->.
  { unfold getAllowedBoards in E1. destruct memo as [cached|].
    - now injection E1 as <- <-.
    - destruct env as [[|ch e]|]; injection E1 as <- <-; reflexivity. }
  intros H.
  assert (memo' = Some allowed) as ->.
  { destruct allowed as [l|]; [destruct (includes l _)|]; now injection H as _ <-. }
  cbn [getAllowedBoards]. exact H.
Qed.

(** C9. When board resolution accepts a fuzzy match ([exactMatch = false])
    and a cache was passed, the cache then maps the normalized requested
    name (which differs from the normalized name of the matched board) to
    the matched id, stamped with the time of the write; for an id that is
    a non-empty string, a second resolution of the same name before the
    entry expires returns that id with [exactMatch = true] from the cache,
    whatever the upstream would answer. *)
Theorem fuzzy_acceptance_is_cached_under_requested_name
    (boardName : string) (st st' : ResolverState) (c : TrelloCache)
    (env : option string) (tLookup tStore : Z) (resp : Fetched (Listing Resource))
    (i : string) :
  cache st = Some c ->
  resolveBoardId boardName st env tLookup resp tStore = (Ok (mkResolved i false), st') ->
  exists c' boards matched,
    resp = Body (Some boards)
    /\ In matched boards /\ res_id matched = i
    /\ trim (toLowerCase (res_name matched)) <> trim (toLowerCase boardName)
    /\ cache st' = Some c'
    /\ boardNameToId c' !! trim (toLowerCase boardName) = Some (mkCacheEntry i tStore)
    /\ ttlMs c' = ttlMs c
    /\ (nonEmpty i = true ->
        forall env2 t2 resp2 tStore2,
          t2 - tStore < ttlMs c' ->
          resolveBoardId boardName st' env2 t2 resp2 tStore2
          = (Ok (mkResolved i true), st')).
Proof.
  intros Hc Hres. unfold resolveBoardId in Hres. rewrite Hc in Hres.
  destruct (ensureBoardAllowed boardName env (cachedAllowedBoards st))
    as [guard memo] eqn:Hguard.
  destruct guard as [[]|e]; [|discriminate].
  pose proof (getBoardId_ttl c tLookup boardName) as Httl.
  destruct (getBoardId c tLookup boardName) as [cachedId c1]. cbn [snd] in Httl.
  assert (resolveBoardFromFetch boardName (Some c1) resp tStore
          = (Ok (mkResolved i false), cache st') /\ cachedAllowedBoards st' = memo)
    as [Hfetch Hmemo].
  { destruct cachedId as [j|].
    - destruct (nonEmpty j); [discriminate|].
      destruct (resolveBoardFromFetch boardName (Some c1) resp tStore) as [r c2].
      injection Hres as -> <-. now split.
    - destruct (resolveBoardFromFetch boardName (Some c1) resp tStore) as [r c2].
      injection Hres as -> <-. now split. }
  clear Hres. unfold resolveBoardFromFetch in Hfetch.
  destruct resp as [r|s|r|[[|b bs]|]]; try discriminate.
  unfold resolveBoardFromListing in Hfetch.
  destruct (findExact (trim (toLowerCase boardName)) (b :: bs)) as [hit|] eqn:Hexact;
    [discriminate|].
  destruct (fuzzyMatch boardName (map res_name (b :: bs))) as [m|]; [|discriminate].
  destruct (jsLt (fm_score m) acceptThreshold); [discriminate|].
  destruct (findByName (fm_match m) (b :: bs)) as [matched|] eqn:Hfind; [|discriminate].
  injection Hfetch as Hid Hcache.
  exists (setBoardId c1 tStore boardName i), (b :: bs), matched.
  split; [reflexivity|].
  apply find_some in Hfind. destruct Hfind as [Hin _].
  split; [exact Hin|]. split; [exact Hid|].
  split; [exact (findExact_None _ _ Hexact matched Hin)|].
  split; [now rewrite <- Hcache, Hid|].
  split; [unfold setBoardId; cbn [boardNameToId]; apply lookup_insert_eq|].
  split; [exact Httl|].
  intros Hne env2 t2 resp2 tStore2 Hage.
  unfold resolveBoardId.
  rewrite Hmemo, (ensureBoardAllowed_stable _ _ env2 _ _ _ Hguard).
  rewrite <- Hcache, Hid.
  rewrite getBoardId_fresh by (auto; cbn [ttlMs setBoardId] in Hage; lia).
  rewrite Hne. destruct st' as [m' c']. cbn in Hmemo, Hcache. subst m'.
  rewrite <- Hcache, Hid. reflexivity.
Qed.

Lemma fuzzy_acceptance_is_cached_under_requested_name_witness :
  resolveBoardId "Markting" (mkResolverState None (Some (newTrelloCache 5))) None 0
    (Body (Some marketingBoards)) 10
  = (Ok (mkResolved "b1" false), afterMarkting)
  /\ resolveBoardId "Markting" afterMarkting None 20 (HttpError "Service Unavailable") 30
     = (Ok (mkResolved "b1" true), afterMarkting).
Proof.
  assert (resolveBoardId "Markting" (mkResolverState None (Some (newTrelloCache 5))) None 0
            (Body (Some marketingBoards)) 10
          = (Ok (mkResolved "b1" false), afterMarkting)) as Hfirst
    by (vm_compute; reflexivity).
  split; [exact Hfirst|].
  destruct (fuzzy_acceptance_is_cached_under_requested_name "Markting"
              (mkResolverState None (Some (newTrelloCache 5))) afterMarkting
              (newTrelloCache 5) None 0 10 (Body (Some marketingBoards)) "b1"
              eq_refl Hfirst)
    as (c' & boards & matched & _ & _ & _ & _ & Hc' & _ & _ & Hsecond).
  apply Hsecond; [reflexivity|].
  injection Hc' as <-. vm_compute. reflexivity.
Defined.

(** ** The names a failure shows *)

Lemma slice0_length {A} (n : nat) (l : list A) : (List.length (slice0 n l) <= n)%nat.
Proof. unfold slice0. rewrite length_firstn. lia. Qed.

Lemma resolveBoardFromListing_errors (boardName : string) (cache : option TrelloCache)
    (boards : list Resource) (tStore : Z) (e : ResolveError) :
  fst (resolveBoardFromListing boardName cache boards tStore) = Err e ->
  e = AmbiguousName KBoard boardName (slice0 10 (map res_name boards))
  \/ e = NoConfidentMatch KBoard boardName (slice0 5 (map res_name boards))
  \/ e = Rejected "TypeError".
Proof.
  unfold resolveBoardFromListing.
  destruct (findExact _ boards); [discriminate|].
  destruct (fuzzyMatch boardName (map res_name boards)) as [m|].
  - destruct (jsLt (fm_score m) acceptThreshold).
    + intros [= Heq]; subst e. auto.
    + destruct (findByName (fm_match m) boards); [discriminate|].
      intros [= Heq]; subst e. auto.
  - intros [= Heq]; subst e. auto.
Qed.

Lemma ensureBoardAllowed_error (boardName : string) (env : option string)
    (memo : AllowedMemo) (e : ResolveError) :
  fst (ensureBoardAllowed boardName env memo) = Err e -> e = AccessDenied boardName.
Proof.
  unfold ensureBoardAllowed. destruct (getAllowedBoards env memo) as [[l|] m].
  - destruct (includes l _); cbn [fst]; [discriminate|]. now intros [= Heq].
  - discriminate.
Qed.

(** Board resolution bounds what it shows: ten names when the match is
    ambiguous, five when no match is confident, taken from the front of
    the listing. *)
Lemma resolveBoardId_shows_bounded (boardName : string) (st : ResolverState)
    (env : option string) (tLookup tStore : Z) (resp : Fetched (Listing Resource))
    (k : ResourceKind) (requested : string) (shown : list string) :
  (fst (resolveBoardId boardName st env tLookup resp tStore)
     = Err (AmbiguousName k requested shown) ->
   (List.length shown <= 10)%nat
   /\ exists boards, resp = Body (Some boards) /\ shown = slice0 10 (map res_name boards))
  /\ (fst (resolveBoardId boardName st env tLookup resp tStore)
        = Err (NoConfidentMatch k requested shown) ->
      (List.length shown <= 5)%nat
      /\ exists boards, resp = Body (Some boards) /\ shown = slice0 5 (map res_name boards)).
Proof.
  assert (forall e, fst (resolveBoardId boardName st env tLookup resp tStore) = Err e ->
            (exists b, e = AccessDenied b) \/ (exists r, e = Rejected r)
            \/ (exists s, e = UpstreamError KBoard s) \/ e = NotFoundEmpty KBoard
            \/ exists boards, resp = Body (Some boards)
                 /\ (e = AmbiguousName KBoard boardName (slice0 10 (map res_name boards))
                     \/ e = NoConfidentMatch KBoard boardName
                              (slice0 5 (map res_name boards)))) as Hall.
  { intros e. unfold resolveBoardId.
    pose proof (ensureBoardAllowed_error boardName env (cachedAllowedBoards st)) as Hg.
    destruct (ensureBoardAllowed boardName env (cachedAllowedBoards st)) as [[[]|g] memo];
      [|cbn [fst]; intros [= Heq]; subst e; left; eexists; apply Hg; reflexivity].
    assert (forall c1, fst (resolveBoardFromFetch boardName c1 resp tStore) = Err e ->
              (exists b, e = AccessDenied b) \/ (exists r, e = Rejected r)
              \/ (exists s, e = UpstreamError KBoard s) \/ e = NotFoundEmpty KBoard
              \/ exists boards, resp = Body (Some boards)
                   /\ (e = AmbiguousName KBoard boardName (slice0 10 (map res_name boards))
                       \/ e = NoConfidentMatch KBoard boardName
                                (slice0 5 (map res_name boards)))) as Hfetch.
    { intros c1. unfold resolveBoardFromFetch.
      destruct resp as [r|s|r|[[|b bs]|]];
        try (cbn [fst]; intros [= Heq]; subst e; eauto 6).
      intros H. apply resolveBoardFromListing_errors in H.
      destruct H as [-> | [-> | ->]]; eauto 8. }
    destruct (cache st) as [c|].
    - destruct (getBoardId c tLookup boardName) as [[j|] c1].
      + destruct (nonEmpty j); [cbn [fst]; discriminate|].
        specialize (Hfetch (Some c1)).
        destruct (resolveBoardFromFetch boardName (Some c1) resp tStore). exact Hfetch.
      + specialize (Hfetch (Some c1)).
        destruct (resolveBoardFromFetch boardName (Some c1) resp tStore). exact Hfetch.
    - specialize (Hfetch None).
      destruct (resolveBoardFromFetch boardName None resp tStore). exact Hfetch. }
  split; intros H; apply Hall in H;
    destruct H as [[b H]|[[r H]|[[s H]|[H|(boards & Hresp & [H|H])]]]]; try congruence.
  - assert (shown = slice0 10 (map res_name boards)) as -> by congruence.
    split; [apply slice0_length | eauto].
  - assert (shown = slice0 5 (map res_name boards)) as -> by congruence.
    split; [apply slice0_length | eauto].
Qed.

(** C5 (the list path). With six lists and a request that resembles none
    of them closely, list resolution fails with NoConfidentMatch and shows
    six names, more than five; with eleven look-alike lists it fails with
    AmbiguousName and shows eleven names, more than ten. *)
Theorem list_failures_show_every_name :
  fst (resolveListId "b1" "Rev" None 0 (Body (Some sixLists)) 0)
  = Err (NoConfidentMatch KList "Rev"
           [ "Backlog"; "To Do"; "In Progress"; "Review"; "Done"; "Archive" ])
  /\ fst (resolveListId "b1" "Sprint" None 0 (Body (Some elevenLists)) 0)
     = Err (AmbiguousName KList "Sprint" (map res_name elevenLists))
  /\ List.length (map res_name elevenLists) = 11%nat.
Proof. vm_compute. repeat split. Qed.

(** ** Card resolution *)

(** What [fuzzyMatch] returns is one of the candidates, with its score. *)
Lemma fuzzyMatch_Some (input : string) (candidates : list string) (m : FuzzyMatch) :
  fuzzyMatch input candidates = Some m ->
  In (fm_match m) candidates
  /\ fm_score m
     = similarityScore (trim (toLowerCase input)) (trim (toLowerCase (fm_match m))).
Proof.
  intros H.
  assert (candidates <> []) as Hne by (intros ->; discriminate).
  rewrite fuzzyMatch_unfold in H by exact Hne.
  pose proof (sortScores_perm (scoreCandidates (trim (toLowerCase input)) candidates)) as Hp.
  destruct (sortScores (scoreCandidates (trim (toLowerCase input)) candidates))
    as [|best rest]; [discriminate|].
  assert (In best (scoreCandidates (trim (toLowerCase input)) candidates)) as Hin.
  { eapply Permutation_in; [exact Hp | now left]. }
  unfold scoreCandidates in Hin. apply in_map_iff in Hin. destruct Hin as (c & <- & Hc).
  assert (m = mkFuzzyMatch c
                (similarityScore (trim (toLowerCase input)) (trim (toLowerCase c)))) as ->.
  { cbn [candidate score] in H. destruct rest as [|second rest]; [congruence|].
    destruct (jsLt _ _) in H; [discriminate | congruence]. }
  split; [exact Hc | reflexivity].
Qed.

Lemma findExactCard_Some (normalizedInput : string) (cards : list ListedCard)
    (found : Resource) :
  findExactCard normalizedInput cards = Some found ->
  exists pre card post,
    cards = pre ++ card :: post
    /\ lc_id card = res_id found /\ lc_name card = Some (res_name found)
    /\ trim (toLowerCase (res_name found)) = normalizedInput
    /\ (forall y n, In y pre -> lc_name y = Some n ->
          trim (toLowerCase n) <> normalizedInput).
Proof.
  induction cards as [|card cards IH]; simpl; [discriminate|].
  destruct (lc_name card) as [n|] eqn:Hn.
  - destruct (String.eqb (trim (toLowerCase n)) normalizedInput) eqn:E.
    + intros [= <-]. exists [], card, cards. cbn [res_id res_name app].
      split; [reflexivity|]. split; [reflexivity|]. split; [exact Hn|].
      split; [now apply String.eqb_eq | intros y n' []].
    + intros H. destruct (IH H) as (pre & c & post & -> & H1 & H2 & H3 & H4).
      exists (card :: pre), c, post. repeat split; auto.
      intros y n' [<-|Hy] Hy'; [|now apply (H4 y)].
      rewrite Hn in Hy'. injection Hy' as <-. now apply String.eqb_neq.
  - intros H. destruct (IH H) as (pre & c & post & -> & H1 & H2 & H3 & H4).
    exists (card :: pre), c, post. repeat split; auto.
    intros y n' [<-|Hy] Hy'; [congruence | now apply (H4 y)].
Qed.











(** ** The similarity of the empty string *)

(** C2 (the failing input). The score of the empty string against itself
    is [NaN], not 1: the distance 0 is divided by the maximal length 0.
    [fuzzyMatch] reaches it on a blank request and a blank candidate, and
    returns the candidate with that score. The formula itself and the value
    1 on every non-empty string hold ([similarityScore_formula],
    [similarityScore_refl]). *)
Theorem similarity_of_empty_string_is_NaN :
  similarityScore "" "" = NaN
  /\ jsEqb (similarityScore "" "") jsOne = false
  /\ fuzzyMatch " " [""] = Some (mkFuzzyMatch "" NaN).
Proof. repeat split. Qed.

(** ** The cleaner on partial and malformed payloads *)

Lemma calculateChecklistStatus_absent :
  calculateChecklistStatus (orElse JUndefined (JArr [])) = Ok "0/0".
Proof. vm_compute. reflexivity. Qed.

(** Missing optional fields give the defaults. *)
Lemma cleanCard_missing_fields (fields : list (string * JsVal)) (mm lm : option JsMap) :
  (forall k, In k [ "idMembers"; "labels"; "checklists"; "name"; "desc"; "due"; "url";
                    "shortUrl"; "closed" ] -> lookupField k fields = JUndefined) ->
  cleanCard (JObj fields) mm lm
  = Ok (mkCleanCard (lookupField "id" fields) (JStr "") (JStr "") JNull [] [] "0/0"
          (JStr "") (JBool false)).
Proof.
  intros H. unfold cleanCard. cbn [getProp bindC].
  rewrite (H "idMembers") by (simpl; auto 10). cbn [bindC arrayItems truthy andb].
  rewrite (H "labels") by (simpl; auto 10). cbn [bindC arrayItems truthy andb].
  rewrite (H "checklists") by (simpl; auto 10).
  rewrite calculateChecklistStatus_absent. cbn [bindC].
  rewrite (H "name"), (H "desc"), (H "due"), (H "url"), (H "shortUrl"), (H "closed")
    by (simpl; auto 10).
  reflexivity.
Qed.

(** C8 (the failing inputs). A card whose [labels] array holds [null]
    makes the dispatcher throw, as does a [null] card handed to
    [cleanCard], a [null] element at the head of an array payload, and a
    [null] entry among a board's members. *)
Theorem null_entities_make_cleaning_throw :
  cleanTrelloResponse
    (JObj [ ("id", JStr "c1"); ("idList", JStr "l1"); ("name", JStr "Task");
            ("labels", JArr [JNull]) ])
  = Err (CannotReadProperty "name")
  /\ cleanCard JNull None None = Err (CannotReadProperty "idMembers")
  /\ cleanTrelloResponse (JArr [JNull]) = Err (CannotReadProperty "lists")
  /\ cleanBoard (JObj [ ("id", JStr "b1"); ("members", JArr [JNull]); ("lists", JArr []) ])
     = Err (CannotReadProperty "id").
Proof. repeat split. Qed.

(** ** The dispatcher on unrecognised payloads *)

Lemma lacksMarkers_reads (v : JsVal) :
  lacksMarkers v ->
  getProp v "lists" = Ok JUndefined /\ getProp v "prefs" = Ok JUndefined
  /\ getProp v "cards" = Ok JUndefined /\ getProp v "idList" = Ok JUndefined
  /\ getProp v "badges" = Ok JUndefined.
Proof. intros H. repeat split; apply H; simpl; auto 10. Qed.

Ltac fall_through H1 H2 H3 H4 H5 :=
  rewrite H1; cbn [bindC]; rewrite H2; cbn [bindC isDefined orb];
  rewrite H3; cbn [bindC isDefined]; rewrite H4; cbn [bindC];
  rewrite H5; reflexivity.

(** C10. The dispatcher returns its argument itself when the payload is
    falsy ([null] and [undefined] in particular), when it is the empty
    array, when it is an array whose first element has none of the five
    markers, and when it is not an array and has none of them. *)
Theorem dispatcher_returns_unrecognised_payload (data : JsVal) :
  (truthy data = false -> cleanTrelloResponse data = Ok (Raw data))
  /\ (data = JArr [] -> cleanTrelloResponse data = Ok (Raw data))
  /\ (forall first rest, data = JArr (first :: rest) -> lacksMarkers first ->
        cleanTrelloResponse data = Ok (Raw data))
  /\ (isArray data = false -> lacksMarkers data ->
        cleanTrelloResponse data = Ok (Raw data)).
Proof.
  split; [|split; [|split]].
  - intros H. unfold cleanTrelloResponse. now rewrite H.
  - intros ->. reflexivity.
  - intros first rest -> H. apply lacksMarkers_reads in H.
    destruct H as (H1 & H2 & H3 & H4 & H5).
    unfold cleanTrelloResponse. cbn [truthy negb].
    fall_through H1 H2 H3 H4 H5.
  - intros Harr H. apply lacksMarkers_reads in H.
    destruct H as (H1 & H2 & H3 & H4 & H5).
    unfold cleanTrelloResponse.
    destruct (negb (truthy data)); [reflexivity|].
    destruct data; try discriminate Harr; try discriminate H1;
      fall_through H1 H2 H3 H4 H5.
Qed.

Lemma dispatcher_returns_unrecognised_payload_witness :
  cleanTrelloResponse JNull = Ok (Raw JNull)
  /\ cleanTrelloResponse JUndefined = Ok (Raw JUndefined)
  /\ cleanTrelloResponse (JArr []) = Ok (Raw (JArr []))
  /\ cleanTrelloResponse (JArr [memberPayload; JNull]) = Ok (Raw (JArr [memberPayload; JNull]))
  /\ cleanTrelloResponse memberPayload = Ok (Raw memberPayload).
Proof.
  assert (lacksMarkers memberPayload) as Hlacks.
  { intros k Hk. simpl in Hk.
    destruct Hk as [<-|[<-|[<-|[<-|[<-|[]]]]]]; reflexivity. }
  split.
  { destruct (dispatcher_returns_unrecognised_payload JNull) as (Hfalsy & _).
    apply Hfalsy. reflexivity. }
  split.
  { destruct (dispatcher_returns_unrecognised_payload JUndefined) as (Hfalsy & _).
    apply Hfalsy. reflexivity. }
  split.
  { destruct (dispatcher_returns_unrecognised_payload (JArr [])) as (_ & Hempty & _).
    apply Hempty. reflexivity. }
  split.
  - destruct (dispatcher_returns_unrecognised_payload (JArr [memberPayload; JNull]))
      as (_ & _ & Harr & _).
    apply (Harr memberPayload [JNull]); [reflexivity | exact Hlacks].
  - destruct (dispatcher_returns_unrecognised_payload memberPayload) as (_ & _ & _ & Hobj).
    apply Hobj; [reflexivity | exact Hlacks].
Defined.

(** ** Stitching *)

Lemma lookupField_setField_eq (k : string) (v : JsVal) (fields : list (string * JsVal)) :
  lookupField k (setField k v fields) = v.
Proof.
  unfold lookupField. induction fields as [|[k' v'] fields IH]; simpl.
  - now rewrite String.eqb_refl.
  - destruct (String.eqb k' k) eqn:E; simpl.
    + now rewrite String.eqb_refl.
    + now rewrite E.
Qed.

Lemma lookupField_setField_ne (k k' : string) (v : JsVal) (fields : list (string * JsVal)) :
  k <> k' -> lookupField k (setField k' v fields) = lookupField k fields.
Proof.
  intros Hne. unfold lookupField. induction fields as [|[k0 v0] fields IH]; simpl.
  - apply String.eqb_neq in Hne. rewrite String.eqb_sym in Hne. now rewrite Hne.
  - destruct (String.eqb k0 k') eqn:E; simpl.
    + apply String.eqb_eq in E. subst k0.
      apply String.eqb_neq in Hne. rewrite String.eqb_sym in Hne. now rewrite Hne.
    + destruct (String.eqb k0 k); [reflexivity | exact IH].
Qed.

Lemma mapC_ext {A B} (f g : A -> Completion B) (l : list A) :
  (forall x, In x l -> f x = g x) -> mapC f l = mapC g l.
Proof.
  induction l as [|x l IH]; intros H; simpl; [reflexivity|].
  rewrite (H x) by (simpl; auto). rewrite IH by (intros y Hy; apply H; simpl; auto).
  reflexivity.
Qed.

Lemma mapC_map {A B C} (g : A -> B) (f : B -> Completion C) (l : list A) :
  mapC f (map g l) = mapC (fun x => f (g x)) l.
Proof. induction l as [|x l IH]; simpl; [reflexivity | now rewrite IH]. Qed.

Lemma mapC_Ok {A B} (g : A -> B) (l : list A) :
  mapC (fun x => Ok (g x) : Completion B) l = Ok (map g l).
Proof. induction l as [|x l IH]; simpl; [reflexivity | now rewrite IH]. Qed.

Lemma filter_snoc {A} (f : A -> bool) (l : list A) (x : A) :
  List.filter f (l ++ [x]) = List.filter f l ++ (if f x then [x] else []).
Proof. rewrite List.filter_app. reflexivity. Qed.

Lemma getPropOpt_Ok (v : JsVal) (k : string) : exists x, getPropOpt v k = Ok x.
Proof. destruct v; simpl; eauto. Qed.

Lemma groupCard_unfold (acc : gmap string (list JsVal)) (card : JsVal) :
  groupCard acc card =
    match cardListKey card with
    | None => Ok acc
    | Some k =>
        match accGet acc k with
        | JArr cards => Ok (<[k := cards ++ [card]]> acc)
        | JBuiltin => Err NotAFunction
        | _ => Ok (<[k := [card]]> acc)
        end
    end.
Proof.
  unfold groupCard, cardListKey.
  destruct (getPropOpt_Ok card "idList") as [idList ->]. cbn [bindC].
  now destruct (truthy idList).
Qed.

Lemma groupCard_step (acc : gmap string (list JsVal)) (seen : list JsVal) (card : JsVal) :
  groupedAs acc seen ->
  (forall k, cardListKey card = Some k -> inheritedKey k = false) ->
  exists acc', groupCard acc card = Ok acc' /\ groupedAs acc' (seen ++ [card]).
Proof.
  intros Hacc Hkey. rewrite groupCard_unfold.
  destruct (cardListKey card) as [k0|] eqn:Ek0.
  - specialize (Hkey _ eq_refl). unfold accGet. rewrite Hkey.
    pose proof (Hacc k0) as H0.
    destruct (acc !! k0) as [cs|] eqn:Ea.
    + exists (<[k0 := cs ++ [card]]> acc). split; [reflexivity|].
      intros k. rewrite filter_snoc. unfold belongsTo at 2. rewrite Ek0.
      destruct (String.eqb k0 k) eqn:Ek.
      * apply String.eqb_eq in Ek. subst k. rewrite lookup_insert_eq.
        destruct (List.filter _ seen) as [|c cs']; [discriminate|].
        injection H0 as ->. reflexivity.
      * apply String.eqb_neq in Ek. rewrite app_nil_r.
        rewrite lookup_insert_ne by exact Ek. apply Hacc.
    + exists (<[k0 := [card]]> acc). split; [reflexivity|].
      intros k. rewrite filter_snoc. unfold belongsTo at 2. rewrite Ek0.
      destruct (String.eqb k0 k) eqn:Ek.
      * apply String.eqb_eq in Ek. subst k. rewrite lookup_insert_eq.
        destruct (List.filter _ seen) as [|c cs']; [reflexivity | discriminate].
      * apply String.eqb_neq in Ek. rewrite app_nil_r.
        rewrite lookup_insert_ne by exact Ek. apply Hacc.
  - exists acc. split; [reflexivity|].
    intros k. rewrite filter_snoc. unfold belongsTo at 2. rewrite Ek0, app_nil_r.
    apply Hacc.
Qed.

Lemma foldC_groupCard (cards : list JsVal) :
  forall acc seen,
    groupedAs acc seen ->
    (forall card k, In card cards -> cardListKey card = Some k -> inheritedKey k = false) ->
    exists acc', foldC groupCard acc cards = Ok acc' /\ groupedAs acc' (seen ++ cards).
Proof.
  induction cards as [|card cards IH]; intros acc seen Hacc Hkeys.
  - exists acc. rewrite app_nil_r. now split.
  - destruct (groupCard_step acc seen card Hacc) as (acc1 & E1 & H1).
    { intros k. apply Hkeys. now left. }
    destruct (IH acc1 (seen ++ [card]) H1) as (acc2 & E2 & H2).
    { intros c k Hc. apply Hkeys. now right. }
    exists acc2. split.
    + cbn [foldC]. rewrite E1. exact E2.
    + now rewrite <- app_assoc in H2.
Qed.

Lemma attachCards_grouped (acc : gmap string (list JsVal)) (cards : list JsVal)
    (lf : list (string * JsVal)) :
  groupedAs acc cards ->
  inheritedKey (listKey (JObj lf)) = false ->
  attachCards acc (JObj lf)
  = Ok (JObj (setField "cards"
                (JArr (List.filter (belongsTo (listKey (JObj lf))) cards)) lf)).
Proof.
  intros Hacc Hkey. unfold attachCards, listKey in *. cbn [getProp bindC spreadFields] in *.
  unfold accGet. rewrite Hacc, Hkey.
  now destruct (List.filter _ cards).
Qed.

Lemma cleanList_stitched (lf : list (string * JsVal)) (cs : list JsVal)
    (mm lm : option JsMap) :
  cleanList (JObj (setField "cards" (JArr cs) lf)) mm lm
  = (do cleaned <- mapC (fun card => cleanCard card mm lm) cs;
     Ok (mkCleanList (lookupField "id" lf)
           (orElse (lookupField "name" lf) (JStr ""))
           (orElse (lookupField "closed" lf) (JBool false))
           (Some cleaned))).
Proof.
  unfold cleanList. cbn [getProp bindC].
  rewrite lookupField_setField_eq.
  rewrite !lookupField_setField_ne by discriminate.
  cbn [arrayItems truthy isArray andb].
  now destruct (mapC (fun card => cleanCard card mm lm) cs).
Qed.

(** C7. For a board payload with a flat [cards] array and a flat [lists]
    array of list objects (no id being the name of a built-in object
    member), the stitching step gives each list, as its [cards], exactly
    the cards of the flat array whose [idList] is the list's id, in their
    order; cleaning the stitched board then yields, for each list, the
    cleaned forms of exactly those cards. A card is filed under one key
    only, and a card without an [idList] under none. *)
Theorem cards_are_stitched_under_their_list
    (fields : list (string * JsVal)) (cards lists : list JsVal) :
  lookupField "cards" fields = JArr cards ->
  lookupField "lists" fields = JArr lists ->
  (forall card k, In card cards -> cardListKey card = Some k -> inheritedKey k = false) ->
  (forall l, In l lists -> (exists lf, l = JObj lf) /\ inheritedKey (listKey l) = false) ->
  let cardsOf l := List.filter (belongsTo (listKey l)) cards in
  stitchCards (JObj fields)
  = Ok (JObj (setField "lists"
                (JArr (map (fun l => JObj (setField "cards" (JArr (cardsOf l))
                                             (spreadFields l))) lists))
                fields))
  /\ boardSnapshot (JObj fields)
     = (do memberMap <- buildMemberMap (JObj fields);
        do labelMap <- buildLabelMap (JObj fields);
        do cleaned <-
          mapC (fun l =>
                  do cs <- mapC (fun card => cleanCard card (Some memberMap) (Some labelMap))
                             (cardsOf l);
                  Ok (mkCleanList (propOf l "id")
                        (orElse (propOf l "name") (JStr ""))
                        (orElse (propOf l "closed") (JBool false))
                        (Some cs)))
               lists;
        Ok (mkCleanBoard (lookupField "id" fields)
              (orElse (lookupField "name" fields) (JStr ""))
              (orElse (lookupField "desc" fields) (JStr ""))
              (orElse (orElse (lookupField "url" fields) (lookupField "shortUrl" fields))
                      (JStr ""))
              (Some cleaned)))
  /\ (forall card l,
        In card (cardsOf l) <-> In card cards /\ cardListKey card = Some (listKey l))
  /\ (forall card l1 l2,
        In card (cardsOf l1) -> In card (cardsOf l2) -> listKey l1 = listKey l2)
  /\ (forall card l, cardListKey card = None -> ~ In card (cardsOf l)).
Proof.
  intros Hcards Hlists Hck Hlk cardsOf.
  assert (forall card l,
            In card (cardsOf l) <-> In card cards /\ cardListKey card = Some (listKey l))
    as Hiff.
  { intros card l. unfold cardsOf. rewrite List.filter_In. unfold belongsTo.
    split; intros [Hin H]; (split; [exact Hin|]).
    - destruct (cardListKey card) as [k|]; [|discriminate].
      apply String.eqb_eq in H. now subst.
    - rewrite H. apply String.eqb_refl. }
  assert (stitchCards (JObj fields)
          = Ok (JObj (setField "lists"
                        (JArr (map (fun l => JObj (setField "cards" (JArr (cardsOf l))
                                                     (spreadFields l))) lists))
                        fields))) as Hstitch.
  { unfold stitchCards. cbn [getProp bindC]. rewrite Hcards, Hlists.
    destruct (foldC_groupCard cards ∅ []) as (acc & -> & Hacc).
    { intros k. cbn [List.filter]. apply lookup_empty. }
    { exact Hck. }
    cbn [bindC app] in *.
    rewrite (mapC_ext (attachCards acc)
               (fun l => Ok (JObj (setField "cards" (JArr (cardsOf l)) (spreadFields l))))).
    - now rewrite mapC_Ok.
    - intros l Hl. destruct (Hlk l Hl) as [[lf ->] Hkey].
      now apply attachCards_grouped. }
  split; [exact Hstitch|]. split; [|split; [exact Hiff|split]].
  - unfold boardSnapshot. rewrite Hstitch. cbn [bindC].
    unfold cleanBoard, buildMemberMap, buildLabelMap. cbn [getProp bindC].
    rewrite lookupField_setField_eq.
    rewrite !lookupField_setField_ne by discriminate.
    destruct (buildMapFrom (lookupField "members" fields) "fullName") as [mm|e];
      cbn [bindC]; [|reflexivity].
    destruct (buildMapFrom (lookupField "labels" fields) "name") as [lm|e];
      cbn [bindC]; [|reflexivity].
    cbn [arrayItems truthy isArray andb]. rewrite mapC_map.
    rewrite (mapC_ext _
               (fun l =>
                  do cs <- mapC (fun card => cleanCard card (Some mm) (Some lm)) (cardsOf l);
                  Ok (mkCleanList (propOf l "id")
                        (orElse (propOf l "name") (JStr ""))
                        (orElse (propOf l "closed") (JBool false))
                        (Some cs)))).
    + now destruct (mapC _ lists).
    + intros l Hl. destruct (Hlk l Hl) as [[lf ->] _].
      cbn [spreadFields]. apply cleanList_stitched.
  - intros card l1 l2 H1 H2. apply Hiff in H1, H2.
    destruct H1 as [_ H1], H2 as [_ H2]. congruence.
  - intros card l Hnone Hin. apply Hiff in Hin. destruct Hin as [_ Hin]. congruence.
Qed.

Lemma cards_are_stitched_under_their_list_witness :
  boardSnapshot (JObj sampleBoardFields)
  = Ok (mkCleanBoard (JStr "B1") (JStr "Roadmap") (JStr "") (JStr "")
          (Some [ mkCleanList (JStr "L1") (JStr "To Do") (JBool false)
                    (Some [ cleanedSample "c3" "Review" [] ]);
                  mkCleanList (JStr "L2") (JStr "Done") (JBool false)
                    (Some [ cleanedSample "c1" "Write spec" [JStr "Ada Lovelace"];
                            cleanedSample "c4" "Ship" [] ]);
                  mkCleanList (JStr "L3") (JStr "Later") (JBool false) (Some []) ])).
Proof.
  destruct (cards_are_stitched_under_their_list sampleBoardFields sampleCardsFlat
              sampleListsFlat) as (_ & Hsnapshot & _).
  - reflexivity.
  - reflexivity.
  - intros card k Hin Hk. simpl in Hin.
    destruct Hin as [<-|[<-|[<-|[<-|[<-|[]]]]]]; vm_compute in Hk;
      try discriminate Hk; injection Hk as <-; reflexivity.
  - intros l Hin. simpl in Hin.
    destruct Hin as [<-|[<-|[<-|[]]]]; (split; [eexists; reflexivity | reflexivity]).
  - rewrite Hsnapshot. vm_compute. reflexivity.
Defined.

(** * Further properties of the code *)

(** ** The edit distance *)

Lemma cell_succ (a b : string) (i j : nat) :
  cell a b (S i) (S j)
  = if sameChar (String.get i b) (String.get j a) then cell a b i j
    else Nat.min (cell a b i j + 1)
                 (Nat.min (cell a b (S i) j + 1) (cell a b i (S j) + 1)).
Proof. reflexivity. Qed.

Lemma cell_zero_r (a b : string) (i : nat) : cell a b i 0 = i.
Proof. destruct i; reflexivity. Qed.

Lemma get_app_skip (pre post : string) (t : nat) :
  String.get (String.length pre + t) (pre ++ post) = String.get t post.
Proof.
  induction pre as [|x pre IH]; [reflexivity|].
  rewrite append_cons. exact IH.
Qed.

(** The inner loop computes the recurrence along one row. *)
Lemma fillRow_cell (a b : string) (n : nat) (bi : ascii) :
  String.get n b = Some bi ->
  forall asuf apre prevsuf left,
    a = (apre ++ asuf)%string ->
    List.length prevsuf = S (String.length asuf) ->
    (forall t, (t <= String.length asuf)%nat ->
       nth t prevsuf O = cell a b n (String.length apre + t)) ->
    left = cell a b (S n) (String.length apre) ->
    forall t, (t < String.length asuf)%nat ->
      nth t (fillRow bi asuf prevsuf left) O = cell a b (S n) (String.length apre + S t).
Proof.
  intros Hb. induction asuf as [|aj asuf IH]; intros apre prevsuf left Ha Hlen Hprev Hleft t Ht.
  - simpl in Ht. lia.
  - destruct prevsuf as [|diag [|up rest]]; simpl in Hlen; try lia.
    cbn [fillRow].
    set (v := if Ascii.eqb bi aj then diag
              else Nat.min (diag + 1) (Nat.min (left + 1) (up + 1))).
    assert (v = cell a b (S n) (String.length apre + 1)) as Hv.
    { replace (String.length apre + 1)%nat with (S (String.length apre)) by lia.
      rewrite cell_succ, Hb.
      assert (String.get (String.length apre) a = Some aj) as ->.
      { rewrite Ha. apply get_app_middle. }
      cbn [sameChar]. subst v.
      pose proof (Hprev O ltac:(simpl; lia)) as H0.
      pose proof (Hprev 1%nat ltac:(simpl; lia)) as H1.
      cbn [nth] in H0, H1. rewrite Nat.add_0_r in H0.
      replace (String.length apre + 1)%nat with (S (String.length apre)) in H1 by lia.
      now rewrite H0, H1, Hleft. }
    destruct t as [|t]; [exact Hv|].
    cbn [nth].
    specialize (IH (apre ++ String aj EmptyString)%string (up :: rest) v).
    rewrite length_app_string in IH. cbn [String.length] in IH.
    replace (String.length apre + S (S t))%nat
      with (String.length apre + 1 + S t)%nat by lia.
    apply IH.
    + rewrite Ha. symmetry. apply app_string_assoc_cons.
    + simpl. lia.
    + intros u Hu. transitivity (nth (S u) (diag :: up :: rest) O); [reflexivity|].
      rewrite Hprev by (simpl; lia). f_equal. lia.
    + exact Hv.
    + simpl in Ht. lia.
Qed.

(** Every row of the matrix holds the recurrence. *)
Lemma fillMatrix_cell (a b : string) :
  forall bsuf bpre prev,
    b = (bpre ++ bsuf)%string ->
    List.length prev = S (String.length a) ->
    (forall j, (j <= String.length a)%nat -> nth j prev O = cell a b (String.length bpre) j) ->
    forall k j, (k <= String.length bsuf)%nat -> (j <= String.length a)%nat ->
      nth j (nth k (prev :: fillMatrix bsuf a (S (String.length bpre)) prev) []) O
      = cell a b (String.length bpre + k) j.
Proof.
  induction bsuf as [|bi bsuf IH]; intros bpre prev Hb Hlen Hprev k j Hk Hj.
  - simpl in Hk. assert (k = O) as -> by lia. rewrite Nat.add_0_r. now apply Hprev.
  - destruct k as [|k]; [rewrite Nat.add_0_r; now apply Hprev|].
    cbn [fillMatrix nth].
    set (n := String.length bpre) in *.
    set (row := S n :: fillRow bi a prev (S n)).
    assert (String.get n b = Some bi) as Hget by (rewrite Hb; apply get_app_middle).
    assert (forall j', (j' <= String.length a)%nat -> nth j' row O = cell a b (S n) j') as Hrow.
    { intros [|j'] Hj'; [now rewrite cell_zero_r|].
      subst row. cbn [nth].
      apply (fillRow_cell a b n bi Hget a EmptyString prev (S n)); auto. }
    specialize (IH (bpre ++ String bi EmptyString)%string row).
    rewrite length_app_string in IH. cbn [String.length] in IH. fold n in IH.
    replace (n + 1)%nat with (S n) in IH by lia.
    replace (n + S k)%nat with (S n + k)%nat by lia.
    apply IH; auto.
    + rewrite Hb. symmetry. apply app_string_assoc_cons.
    + subst row. simpl. f_equal. now apply fillRow_length.
    + simpl in Hk. lia.
Qed.

Lemma levenshteinDistance_cell (a b : string) :
  levenshteinDistance a b = cell a b (String.length b) (String.length a).
Proof.
  unfold levenshteinDistance, levenshteinMatrix.
  apply (fillMatrix_cell a b b EmptyString); auto.
  - now rewrite length_seq.
  - intros j Hj. cbn [String.length cell]. rewrite seq_nth by lia. reflexivity.
Qed.

Lemma cell_ind2 (P : nat -> nat -> Prop) :
  (forall j, P O j) ->
  (forall i, P (S i) O) ->
  (forall i j, P i j -> P (S i) j -> P i (S j) -> P (S i) (S j)) ->
  forall i j, P i j.
Proof.
  intros H0 H1 HS. induction i as [|i IHi]; [exact H0|].
  induction j as [|j IHj]; [apply H1 | apply HS; auto].
Qed.

Lemma cell_upper (a b : string) (i j : nat) : (cell a b i j <= Nat.max i j)%nat.
Proof.
  pattern i, j. apply cell_ind2; clear i j.
  - intros j. simpl. lia.
  - intros i. rewrite cell_zero_r. lia.
  - intros i j Hd Hl Hu. rewrite cell_succ.
    destruct (sameChar _ _); lia.
Qed.

Lemma cell_lower (a b : string) (i j : nat) :
  (i <= cell a b i j + j)%nat /\ (j <= cell a b i j + i)%nat.
Proof.
  pattern i, j. apply cell_ind2; clear i j.
  - intros j. simpl. lia.
  - intros i. rewrite cell_zero_r. lia.
  - intros i j Hd Hl Hu. rewrite cell_succ.
    destruct (sameChar _ _); lia.
Qed.

Lemma sameChar_sym (x y : option ascii) : sameChar x y = sameChar y x.
Proof. destruct x, y; simpl; auto. apply Ascii.eqb_sym. Qed.

Lemma sameChar_true (x y : option ascii) : sameChar x y = true -> x = y.
Proof.
  destruct x, y; simpl; try discriminate.
  intros H. apply Ascii.eqb_eq in H. now subst.
Qed.

Lemma cell_sym (a b : string) (i j : nat) : cell a b i j = cell b a j i.
Proof.
  pattern i, j. apply cell_ind2; clear i j.
  - intros j. now rewrite cell_zero_r.
  - intros i. now rewrite cell_zero_r.
  - intros i j Hd Hl Hu. rewrite !cell_succ, Hd, Hl, Hu, sameChar_sym.
    destruct (sameChar _ _); [reflexivity|]. lia.
Qed.

Lemma cell_zero (a b : string) (i j : nat) :
  cell a b i j = O ->
  i = j /\ forall t, (t < i)%nat -> String.get t b = String.get t a.
Proof.
  pattern i, j. apply cell_ind2; clear i j.
  - intros j H. change (j = O) in H. subst j. split; [reflexivity | intros t Ht; lia].
  - intros i H. rewrite cell_zero_r in H. discriminate.
  - intros i j Hd _ _. rewrite cell_succ.
    destruct (sameChar _ _) eqn:E; [|lia].
    intros H. destruct (Hd H) as [-> Hpre]. split; [reflexivity|].
    intros t Ht. destruct (Nat.eq_dec t j) as [->|Hne].
    + now apply sameChar_true.
    + apply Hpre. lia.
Qed.

Lemma get_beyond (s : string) (n : nat) : (String.length s <= n)%nat -> String.get n s = None.
Proof.
  revert n. induction s as [|c s IH]; intros n Hn; [now destruct n|].
  destruct n as [|n]; simpl in *; [lia | apply IH; lia].
Qed.

(** X1. The distance lies between the difference of the two lengths and
    the larger of them. *)
Theorem levenshteinDistance_bounds (a b : string) :
  (String.length a - String.length b <= levenshteinDistance a b)%nat
  /\ (String.length b - String.length a <= levenshteinDistance a b)%nat
  /\ (levenshteinDistance a b <= Nat.max (String.length a) (String.length b))%nat.
Proof.
  rewrite levenshteinDistance_cell.
  pose proof (cell_upper a b (String.length b) (String.length a)).
  pose proof (cell_lower a b (String.length b) (String.length a)).
  lia.
Qed.

(** X2. The distance is zero exactly between equal strings. *)
Theorem levenshteinDistance_zero_iff (a b : string) :
  levenshteinDistance a b = O <-> a = b.
Proof.
  split; [|intros ->; apply levenshteinDistance_refl].
  rewrite levenshteinDistance_cell. intros H.
  destruct (cell_zero _ _ _ _ H) as [Hlen Hget].
  apply String.get_correct. intros n.
  destruct (Nat.lt_ge_cases n (String.length b)) as [Hlt|Hge].
  - symmetry. now apply Hget.
  - rewrite !get_beyond; auto. lia.
Qed.

(** X3. The distance does not depend on the order of its arguments. *)
Theorem levenshteinDistance_sym (a b : string) :
  levenshteinDistance a b = levenshteinDistance b a.
Proof. rewrite !levenshteinDistance_cell. apply cell_sym. Qed.

(** ** The similarity score *)

Lemma similarityScore_value (a b : string) (m : nat) :
  Nat.max (String.length a) (String.length b) = S m ->
  similarityScore a b
  = Fin (1 - (Z.of_nat (levenshteinDistance (toLowerCase a) (toLowerCase b))
              # Pos.of_succ_nat m)).
Proof.
  intros Hm. unfold similarityScore. rewrite Hm. cbn [jsDivNat jsSub jsOne].
  now rewrite Pos.of_nat_succ.
Qed.

Lemma levenshteinDistance_lower_le (a b : string) :
  (levenshteinDistance (toLowerCase a) (toLowerCase b)
   <= Nat.max (String.length a) (String.length b))%nat.
Proof.
  pose proof (levenshteinDistance_bounds (toLowerCase a) (toLowerCase b)) as H.
  now rewrite !toLowerCase_length in H.
Qed.

(** X4. Unless both strings are empty, the score is a number between 0
    and 1. *)
Theorem similarityScore_range (a b : string) :
  nonEmpty a = true \/ nonEmpty b = true ->
  exists q, similarityScore a b = Fin q /\ (0 <= q)%Q /\ (q <= 1)%Q.
Proof.
  intros Hne.
  destruct (Nat.max (String.length a) (String.length b)) as [|m] eqn:Hm.
  { destruct Hne as [H|H]; apply nonEmpty_length in H; lia. }
  rewrite (similarityScore_value a b m Hm). eexists. split; [reflexivity|].
  pose proof (levenshteinDistance_lower_le a b) as Hd. rewrite Hm in Hd.
  unfold Qle, Qminus, Qplus, Qopp. cbn [Qnum Qden].
  rewrite !Zpos_P_of_succ_nat. split; nia.
Qed.

Lemma similarityScore_range_witness :
  exists q, similarityScore "" "Backlog" = Fin q /\ (0 <= q)%Q /\ (q <= 1)%Q.
Proof. apply similarityScore_range. right. reflexivity. Defined.

(** X5. The score is 1 exactly for two non-empty strings that are equal up
    to case. *)
Theorem similarityScore_one_iff (a b : string) :
  jsEqb (similarityScore a b) jsOne = true
  <-> toLowerCase a = toLowerCase b /\ nonEmpty a = true.
Proof.
  destruct (Nat.max (String.length a) (String.length b)) as [|m] eqn:Hm.
  { assert (a = EmptyString /\ b = EmptyString) as [-> ->].
    { destruct a, b; simpl in Hm; try lia. now split. }
    split; [discriminate | intros [_ H]; discriminate]. }
  rewrite (similarityScore_value a b m Hm). cbn [jsEqb jsOne].
  rewrite Qeq_bool_iff. unfold Qeq, Qminus, Qplus, Qopp. cbn [Qnum Qden].
  rewrite Zpos_P_of_succ_nat. split.
  - intros H.
    assert (levenshteinDistance (toLowerCase a) (toLowerCase b) = O) as Hd by nia.
    apply levenshteinDistance_zero_iff in Hd. split; [exact Hd|].
    apply nonEmpty_length.
    assert (String.length a = String.length b) as Hlen.
    { rewrite <- (toLowerCase_length a), <- (toLowerCase_length b). now rewrite Hd. }
    lia.
  - intros [Heq _]. apply levenshteinDistance_zero_iff in Heq. rewrite Heq. nia.
Qed.

(** X6. The score does not depend on the order of its arguments. *)
Theorem similarityScore_sym (a b : string) : similarityScore a b = similarityScore b a.
Proof.
  unfold similarityScore.
  now rewrite levenshteinDistance_sym, Nat.max_comm.
Qed.

(** ** What [fuzzyMatch] accepts *)

Lemma scores_finite (ni : string) (candidates : list string) :
  nonEmpty ni = true -> Forall finiteScore (scoreCandidates ni candidates).
Proof.
  intros Hne. apply List.Forall_forall. intros e He.
  unfold scoreCandidates in He. apply in_map_iff in He. destruct He as (c & <- & _).
  destruct (similarityScore_range ni (trim (toLowerCase c))) as (q & Hq & _); [now left|].
  exists q. exact Hq.
Qed.

Lemma candidate_scoreCandidates (ni : string) (candidates : list string) :
  map candidate (scoreCandidates ni candidates) = candidates.
Proof.
  unfold scoreCandidates. rewrite map_map. cbn [candidate]. apply map_id.
Qed.

Lemma score_scoreCandidates (ni : string) (candidates : list string) (e : Scored) :
  In e (scoreCandidates ni candidates) ->
  score e = similarityScore ni (trim (toLowerCase (candidate e))).
Proof.
  unfold scoreCandidates. intros He. apply in_map_iff in He.
  now destruct He as (c & <- & _).
Qed.

(** When the ambiguity test fails on two ordered scores, the first leads
    by 0.05 at least. *)
Lemma gap_false_lead (a b : Q) :
  (b <= a)%Q ->
  jsLt (jsAbs (jsSub (Fin a) (Fin b))) ambiguityGap = false ->
  (b + (5 # 100) <= a)%Q.
Proof.
  intros Hle H. unfold ambiguityGap in H. cbn [jsSub jsAbs] in H.
  destruct (Qlt_le_dec (Qabs (a - b)) (5 # 100)) as [Hlt|Hge].
  - apply jsLt_Fin_iff in Hlt. congruence.
  - rewrite Qabs_pos in Hge by lra. lra.
Qed.

(** X7. For a request that is not blank, the candidate [fuzzyMatch]
    returns is one of the candidates, with its own score, and every other
    candidate scores at least 0.05 less. *)
Theorem fuzzyMatch_winner_leads (input : string) (candidates : list string)
    (m : FuzzyMatch) :
  let sc c := similarityScore (trim (toLowerCase input)) (trim (toLowerCase c)) in
  nonEmpty (trim (toLowerCase input)) = true ->
  fuzzyMatch input candidates = Some m ->
  exists others,
    Permutation candidates (fm_match m :: others)
    /\ fm_score m = sc (fm_match m)
    /\ forall c, In c others ->
         exists best other,
           fm_score m = Fin best /\ sc c = Fin other /\ (other + (5 # 100) <= best)%Q.
Proof.
  intros sc Hne H.
  set (ni := trim (toLowerCase input)) in *.
  assert (candidates <> []) as Hcs by (intros ->; discriminate).
  rewrite fuzzyMatch_unfold in H by exact Hcs. fold ni in H.
  pose proof (sortScores_perm (scoreCandidates ni candidates)) as Hp.
  pose proof (sortScores_sorted _ (scores_finite ni candidates Hne)) as Hs.
  assert (Forall finiteScore (sortScores (scoreCandidates ni candidates))) as Hf.
  { eapply Permutation_Forall; [symmetry; exact Hp | now apply scores_finite]. }
  assert (forall e, In e (sortScores (scoreCandidates ni candidates)) ->
            score e = sc (candidate e)) as Hsc.
  { intros e He. apply (score_scoreCandidates ni candidates).
    eapply Permutation_in; eassumption. }
  assert (Permutation candidates
            (map candidate (sortScores (scoreCandidates ni candidates)))) as Hpc.
  { rewrite <- (candidate_scoreCandidates ni candidates) at 1.
    apply Permutation_map. now symmetry. }
  destruct (sortScores (scoreCandidates ni candidates)) as [|h rest]; [discriminate|].
  assert (m = mkFuzzyMatch (candidate h) (score h)
          /\ (forall k t, rest = k :: t ->
                jsLt (jsAbs (jsSub (score h) (score k))) ambiguityGap = false))
    as [-> Hgap].
  { destruct rest as [|k t]; [split; [congruence | discriminate]|].
    destruct (jsLt _ _) eqn:E; [discriminate|].
    split; [congruence|]. intros k' t' [= <- <-]. exact E. }
  exists (map candidate rest). cbn [fm_match fm_score].
  split; [exact Hpc|]. split; [apply Hsc; now left|].
  intros c Hc. apply in_map_iff in Hc. destruct Hc as (e & <- & He).
  destruct rest as [|k t]; [destruct He|].
  inversion Hs as [|? ? Hs' Hh]; subst. inversion Hs' as [|? ? _ Hk]; subst.
  rewrite List.Forall_forall in Hh, Hk, Hf.
  destruct (Hf h ltac:(simpl; auto)) as [a Ea].
  destruct (Hf k ltac:(simpl; auto)) as [b Eb].
  destruct (Hf e ltac:(simpl; auto)) as [d Ed].
  pose proof (Hh k ltac:(simpl; auto)) as Hhk. unfold geScore in Hhk.
  rewrite Ea, Eb, jsGe_Fin_iff in Hhk.
  specialize (Hgap k t eq_refl). rewrite Ea, Eb in Hgap.
  pose proof (gap_false_lead a b Hhk Hgap) as Hlead.
  exists a, d. split; [exact Ea|]. split; [rewrite <- Hsc by (simpl; auto); exact Ed|].
  destruct He as [<-|He].
  - assert (d = b) as -> by congruence. exact Hlead.
  - specialize (Hk e He). unfold geScore in Hk. rewrite Eb, Ed, jsGe_Fin_iff in Hk.
    lra.
Qed.

Lemma fuzzyMatch_winner_leads_witness :
  exists others,
    Permutation ["Backlog"; "Review"; "Done"] ("Review" :: others)
    /\ forall c, In c others ->
         exists best other,
           Fin (5 # 6) = Fin best
           /\ similarityScore "revew" (trim (toLowerCase c)) = Fin other
           /\ (other + (5 # 100) <= best)%Q.
Proof.
  destruct (fuzzyMatch_winner_leads "Revew" ["Backlog"; "Review"; "Done"]
              (mkFuzzyMatch "Review" (Fin (5 # 6))))
    as (others & Hp & _ & Hlead).
  - reflexivity.
  - vm_compute. reflexivity.
  - exists others. split; [exact Hp | exact Hlead].
Defined.

Lemma geScore_head_sorted (h : Scored) (t : list Scored) :
  Forall finiteScore (h :: t) -> StronglySorted geScore (h :: t) ->
  forall e, In e (h :: t) -> geScore h e.
Proof.
  intros Hf Hs e [<-|He].
  - apply geScore_finite_refl. now inversion Hf.
  - inversion Hs as [|? ? _ Hh]; subst. rewrite List.Forall_forall in Hh. now apply Hh.
Qed.

(** X8. For a request that is not blank, the answer of [fuzzyMatch] does
    not depend on the order in which the candidates are listed. *)
Theorem fuzzyMatch_order_independent (input : string) (l1 l2 : list string) :
  nonEmpty (trim (toLowerCase input)) = true ->
  Permutation l1 l2 ->
  fuzzyMatch input l1 = fuzzyMatch input l2.
Proof.
  intros Hne Hp.
  destruct l1 as [|c1 l1'].
  { apply Permutation_nil in Hp. now subst. }
  assert (l2 <> []) as Hl2.
  { intros ->. apply Permutation_sym, Permutation_nil in Hp. discriminate. }
  rewrite !fuzzyMatch_unfold by (auto; discriminate).
  set (ni := trim (toLowerCase input)) in *.
  set (S1 := scoreCandidates ni (c1 :: l1')). set (S2 := scoreCandidates ni l2).
  assert (Permutation (sortScores S1) (sortScores S2)) as Hps.
  { rewrite !sortScores_perm. unfold S1, S2, scoreCandidates. now apply Permutation_map. }
  pose proof (sortScores_sorted S1 (scores_finite ni _ Hne)) as Hs1.
  pose proof (sortScores_sorted S2 (scores_finite ni _ Hne)) as Hs2.
  assert (Forall finiteScore (sortScores S1)) as Hf1.
  { eapply Permutation_Forall; [symmetry; apply sortScores_perm | now apply scores_finite]. }
  assert (Forall finiteScore (sortScores S2)) as Hf2.
  { eapply Permutation_Forall; [symmetry; apply sortScores_perm | now apply scores_finite]. }
  destruct (sortScores S1) as [|h1 [|k1 t1]], (sortScores S2) as [|h2 [|k2 t2]];
    try (apply Permutation_length in Hps; simpl in Hps; lia).
  - reflexivity.
  - apply Permutation_length_1 in Hps. now subst.
  - destruct (top_two_of_sorted h1 k1 t1 h2 k2 t2 Hf2 Hs1 Hps) as [[Hh Hh'] [Hk Hk']].
    + apply (geScore_head_sorted h2 (k2 :: t2)); simpl; auto.
    + intros e He. apply (geScore_head_sorted h2 (k2 :: t2)); simpl; auto.
    + intros e He. inversion Hs2 as [|? ? Hs2' _]; subst. inversion Hf2; subst.
      apply (geScore_head_sorted k2 t2); simpl; auto.
    + inversion Hf1 as [|? ? Fh1 Hf1']; subst. inversion Hf1' as [|? ? Fk1 _]; subst.
      inversion Hf2 as [|? ? Fh2 Hf2']; subst. inversion Hf2' as [|? ? Fk2 _]; subst.
      destruct (geScore_antisym h1 h2 Fh1 Fh2 Hh Hh') as (a & a' & Ea & Ea' & Haa).
      destruct (geScore_antisym k1 k2 Fk1 Fk2 Hk Hk') as (b & b' & Eb & Eb' & Hbb).
      rewrite Ea, Eb, Ea', Eb', (gap_test_compat a a' b b' Haa Hbb).
      destruct (jsLt (jsAbs (jsSub (Fin a') (Fin b'))) ambiguityGap) eqn:Egap;
        [reflexivity|].
      rewrite <- Ea, <- Ea'.
      assert (h2 = h1) as ->; [|reflexivity].
      assert (In h2 (h1 :: k1 :: t1)) as Hin.
      { eapply Permutation_in; [symmetry; exact Hps | now left]. }
      destruct Hin as [->|Hin]; [reflexivity|]. exfalso.
      assert (geScore k1 h2) as Hk1h2.
      { inversion Hs1 as [|? ? Hs1' _]; subst.
        apply (geScore_head_sorted k1 t1); auto. }
      unfold geScore in Hk1h2. rewrite Eb, Ea', jsGe_Fin_iff in Hk1h2.
      assert (b <= a)%Q as Hba.
      { pose proof (geScore_head_sorted h1 (k1 :: t1) Hf1 Hs1 k1 ltac:(simpl; auto)) as H.
        unfold geScore in H. now rewrite Ea, Eb, jsGe_Fin_iff in H. }
      rewrite <- (gap_test_compat a a' b b' Haa Hbb) in Egap.
      pose proof (gap_false_lead a b Hba Egap). lra.
Qed.

Lemma fuzzyMatch_order_independent_witness :
  fuzzyMatch "Revew" ["Backlog"; "Review"; "Done"]
  = fuzzyMatch "Revew" ["Done"; "Backlog"; "Review"].
Proof.
  apply fuzzyMatch_order_independent; [reflexivity|].
  apply Permutation_sym. apply (Permutation_cons_append ["Backlog"; "Review"] "Done").
Defined.

(** ** Normal forms of names *)

Lemma isWhiteSpace_lowerChar (c : ascii) : isWhiteSpace (lowerChar c) = isWhiteSpace c.
Proof. destruct c as [[] [] [] [] [] [] [] []]; reflexivity. Qed.

Lemma toLowerCase_trimStart (s : string) :
  toLowerCase (trimStart s) = trimStart (toLowerCase s).
Proof.
  induction s as [|c s IH]; [reflexivity|].
  cbn [trimStart toLowerCase]. rewrite isWhiteSpace_lowerChar.
  destruct (isWhiteSpace c); [exact IH | reflexivity].
Qed.

Lemma toLowerCase_trimEnd (s : string) :
  toLowerCase (trimEnd s) = trimEnd (toLowerCase s).
Proof.
  induction s as [|c s IH]; [reflexivity|].
  cbn [trimEnd toLowerCase]. rewrite <- IH, isWhiteSpace_lowerChar.
  destruct (trimEnd s) as [|d t]; cbn [toLowerCase]; [|reflexivity].
  now destruct (isWhiteSpace c).
Qed.

(** X9. Trimming then lower-casing (the allow-list guard) and lower-casing
    then trimming (the cache, the exact-match scan, the fuzzy matcher) give
    the same normal form. *)
Theorem normal_forms_agree (s : string) :
  toLowerCase (trim s) = trim (toLowerCase s).
Proof. unfold trim. now rewrite toLowerCase_trimEnd, toLowerCase_trimStart. Qed.

(** ** The allow-list guard *)

Lemma includes_In (l : list string) (s : string) : includes l s = true <-> In s l.
Proof.
  unfold includes. rewrite existsb_exists. split.
  - intros (x & Hx & E). apply String.eqb_eq in E. now subst.
  - intros H. exists s. split; [exact H | apply String.eqb_refl].
Qed.

Lemma parseAllowedBoards_In (e x : string) :
  In x (parseAllowedBoards e)
  <-> nonEmpty x = true /\ exists item, In item (splitComma e) /\ x = toLowerCase (trim item).
Proof.
  unfold parseAllowedBoards. rewrite List.filter_In, in_map_iff. split.
  - intros [(item & <- & Hitem) Hne]. eauto.
  - intros [Hne (item & Hitem & ->)]. eauto.
Qed.

Lemma getAllowedBoards_fresh (e : string) :
  e <> EmptyString ->
  getAllowedBoards (Some e) None
  = (match parseAllowedBoards e with [] => None | _ => Some (parseAllowedBoards e) end,
     Some (match parseAllowedBoards e with [] => None | _ => Some (parseAllowedBoards e) end)).
Proof. destruct e; [congruence | reflexivity]. Qed.

(** X10. With the allow-list not read yet: an unset or empty
    [TRELLO_ALLOWED_BOARDS] allows every board; so does a value that holds
    no name (only commas and white space); otherwise a board is allowed
    exactly when its normal form is the normal form of one of the
    comma-separated items. *)
Theorem guard_decision (name : string) (env : option string) :
  (env = None \/ env = Some EmptyString ->
     fst (ensureBoardAllowed name env None) = Ok tt)
  /\ (forall e, env = Some e -> e <> EmptyString ->
        (fst (ensureBoardAllowed name env None) = Ok tt
         <-> (forall item, In item (splitComma e) -> trim item = EmptyString)
             \/ exists item, In item (splitComma e)
                             /\ trim item <> EmptyString
                             /\ trim (toLowerCase item) = trim (toLowerCase name))).
Proof.
  split; [intros [-> | ->]; reflexivity|].
  intros e -> He. unfold ensureBoardAllowed. rewrite getAllowedBoards_fresh by exact He.
  assert (forall item, nonEmpty (toLowerCase (trim item)) = true <-> trim item <> EmptyString)
    as Hblank.
  { intros item. destruct (trim item); simpl; split; congruence. }
  destruct (parseAllowedBoards e) as [|x xs] eqn:Hparse.
  - split; [|reflexivity]. intros _. left. intros item Hitem.
    destruct (trim item) as [|c t] eqn:Et; [reflexivity|]. exfalso.
    assert (In (toLowerCase (trim item)) (parseAllowedBoards e)) as Hin.
    { apply parseAllowedBoards_In. split; [|eauto]. rewrite Et. reflexivity. }
    rewrite Hparse in Hin. destruct Hin.
  - rewrite <- Hparse.
    destruct (includes (parseAllowedBoards e) (toLowerCase (trim name))) eqn:Hinc.
    + split; [|reflexivity]. intros _. right.
      apply includes_In, parseAllowedBoards_In in Hinc.
      destruct Hinc as [Hne (item & Hitem & Heq)].
      exists item. split; [exact Hitem|]. split.
      * apply Hblank. now rewrite <- Heq.
      * now rewrite <- !normal_forms_agree.
    + split; [discriminate|]. intros [Hall | (item & Hitem & Hne & Heq)]; exfalso.
      * assert (In x (parseAllowedBoards e)) as Hx by (rewrite Hparse; now left).
        apply parseAllowedBoards_In in Hx. destruct Hx as [Hne (item & Hitem & ->)].
        apply Hblank in Hne. apply Hne. now apply Hall.
      * assert (includes (parseAllowedBoards e) (toLowerCase (trim name)) = true) as Habs.
        { apply includes_In, parseAllowedBoards_In. split.
          - rewrite normal_forms_agree, <- Heq, <- normal_forms_agree. now apply Hblank.
          - exists item. split; [exact Hitem|].
            now rewrite !normal_forms_agree. }
        congruence.
Qed.

Lemma guard_decision_witness :
  fst (ensureBoardAllowed "  ROADMAP " (Some "Project Alpha, Marketing ,roadmap") None) = Ok tt
  /\ fst (ensureBoardAllowed "Finance" (Some " , ,") None) = Ok tt.
Proof.
  split.
  - destruct (guard_decision "  ROADMAP " (Some "Project Alpha, Marketing ,roadmap"))
      as [_ H].
    apply (H "Project Alpha, Marketing ,roadmap" eq_refl); [discriminate|].
    right. exists "roadmap". split; [simpl; auto|]. split; [discriminate | reflexivity].
  - destruct (guard_decision "Finance" (Some " , ,")) as [_ H].
    apply (H " , ," eq_refl); [discriminate|].
    left. intros item Hitem. simpl in Hitem.
    destruct Hitem as [<-|[<-|[<-|[]]]]; reflexivity.
Defined.

(** X11. The allow-list is read once: after any check, every later check
    gives the verdict that the environment of the first check gives,
    whatever the environment holds by then. *)
Theorem allow_list_is_read_once (name : string) (env : option string) (memo : AllowedMemo)
    (name2 : string) (env2 : option string) :
  ensureBoardAllowed name2 env2 (snd (ensureBoardAllowed name env memo))
  = (fst (ensureBoardAllowed name2 env memo), snd (ensureBoardAllowed name env memo)).
Proof.
  unfold ensureBoardAllowed.
  destruct (getAllowedBoards env memo) as [allowed m1] eqn:E1.
  assert (m1 = Some allowed) as ->.
  { unfold getAllowedBoards in E1. destruct memo as [cached|].
    - now injection E1 as <- <-.
    - destruct env as [[|ch e]|]; injection E1 as <- <-; reflexivity. }
  assert (forall n, snd (match allowed with
                         | Some l => if includes l (toLowerCase (trim n))
                                     then (Ok tt, Some allowed)
                                     else (Err (AccessDenied n), Some allowed)
                         | None => (Ok tt, Some allowed)
                         end : Result ResolveError unit * AllowedMemo) = Some allowed) as Hsnd.
  { intros n. destruct allowed as [l|]; [destruct (includes l _)|]; reflexivity. }
  rewrite Hsnd. cbn [getAllowedBoards].
  destruct allowed as [l|]; [destruct (includes l _)|]; reflexivity.
Qed.

(** X12. A board the guard rejects is denied before anything else happens:
    whatever the cache holds (a live entry for that very name included) and
    whatever the upstream would answer, the result is AccessDenied and the
    cache is left as it was. *)
Theorem denied_board_short_circuits (name : string) (st : ResolverState)
    (env : option string) (tLookup tStore : Z) (resp : Fetched (Listing Resource)) :
  fst (ensureBoardAllowed name env (cachedAllowedBoards st)) <> Ok tt ->
  resolveBoardId name st env tLookup resp tStore
  = (Err (AccessDenied name),
     mkResolverState (snd (ensureBoardAllowed name env (cachedAllowedBoards st))) (cache st)).
Proof.
  intros Hdenied. unfold resolveBoardId.
  pose proof (ensureBoardAllowed_error name env (cachedAllowedBoards st)) as Herr.
  destruct (ensureBoardAllowed name env (cachedAllowedBoards st)) as [[[]|e] memo].
  - now destruct Hdenied.
  - cbn [fst snd] in *. now rewrite (Herr e eq_refl).
Qed.

Lemma denied_board_short_circuits_witness :
  resolveBoardId "Finance"
    (mkResolverState None (Some (setBoardId (newTrelloCache 5) 0 "Finance" "b7")))
    (Some "Marketing, Roadmap") 10 (Body (Some [mkResource "b7" "Finance"])) 20
  = (Err (AccessDenied "Finance"),
     mkResolverState (Some (Some ["marketing"; "roadmap"]))
       (Some (setBoardId (newTrelloCache 5) 0 "Finance" "b7"))).
Proof.
  apply (denied_board_short_circuits "Finance"
           (mkResolverState None (Some (setBoardId (newTrelloCache 5) 0 "Finance" "b7")))
           (Some "Marketing, Roadmap") 10 20 (Body (Some [mkResource "b7" "Finance"]))).
  vm_compute. discriminate.
Defined.

(** ** What the resolvers accept and what they store *)

Lemma toLowerCase_normal (s : string) :
  toLowerCase (trim (toLowerCase s)) = trim (toLowerCase s).
Proof. now rewrite normal_forms_agree, toLowerCase_idempotent. Qed.

(** A fuzzy match taken after the exact scan found nothing scores at least
    0.8 and less than 1. *)
Lemma accepted_score (name : string) (listing : list Resource) (m : FuzzyMatch) :
  findExact (trim (toLowerCase name)) listing = None ->
  fuzzyMatch name (map res_name listing) = Some m ->
  jsLt (fm_score m) acceptThreshold = false ->
  exists q,
    similarityScore (trim (toLowerCase name)) (trim (toLowerCase (fm_match m))) = Fin q
    /\ (8 # 10 <= q)%Q /\ (q < 1)%Q.
Proof.
  intros Hexact Hm Hlt.
  destruct (fuzzyMatch_Some _ _ _ Hm) as [Hin Hscore].
  apply in_map_iff in Hin. destruct Hin as (matched & Hname & Hmatched).
  pose proof (findExact_None _ _ Hexact matched Hmatched) as Hne. rewrite Hname in Hne.
  set (ni := trim (toLowerCase name)) in *. set (nc := trim (toLowerCase (fm_match m))) in *.
  assert (nonEmpty ni = true \/ nonEmpty nc = true) as Hnb.
  { destruct ni, nc; simpl; auto; congruence. }
  destruct (similarityScore_range ni nc Hnb) as (q & Hq & H0 & H1).
  exists q. split; [exact Hq|]. rewrite Hscore, Hq in Hlt. split.
  - unfold acceptThreshold in Hlt. destruct (Qlt_le_dec q (8 # 10)) as [Hq8|Hq8]; [|exact Hq8].
    apply jsLt_Fin_iff in Hq8. congruence.
  - apply Qle_lt_or_eq in H1. destruct H1 as [H1|H1]; [exact H1|]. exfalso.
    assert (jsEqb (similarityScore ni nc) jsOne = true) as Hone.
    { rewrite Hq. cbn [jsEqb jsOne]. now apply Qeq_bool_iff. }
    apply similarityScore_one_iff in Hone. destruct Hone as [Heq _].
    unfold ni, nc in Heq. rewrite !toLowerCase_normal in Heq. now apply Hne.
Qed.

Lemma resolveBoardId_fuzzy_inv (name : string) (st : ResolverState) (env : option string)
    (tLookup tStore : Z) (resp : Fetched (Listing Resource)) (i : string) :
  fst (resolveBoardId name st env tLookup resp tStore) = Ok (mkResolved i false) ->
  exists listing cache1,
    resp = Body (Some listing)
    /\ fst (resolveBoardFromListing name cache1 listing tStore) = Ok (mkResolved i false).
Proof.
  unfold resolveBoardId.
  destruct (ensureBoardAllowed name env (cachedAllowedBoards st)) as [[[]|e] memo];
    [|discriminate].
  assert (forall c1, fst (resolveBoardFromFetch name c1 resp tStore) = Ok (mkResolved i false) ->
            exists listing cache1,
              resp = Body (Some listing)
              /\ fst (resolveBoardFromListing name cache1 listing tStore)
                 = Ok (mkResolved i false)) as Hfetch.
  { intros c1. unfold resolveBoardFromFetch.
    destruct resp as [r|s|r|[[|b bs]|]]; try discriminate. eauto. }
  destruct (cache st) as [c|].
  - destruct (getBoardId c tLookup name) as [[j|] c1].
    + destruct (nonEmpty j); [discriminate|].
      specialize (Hfetch (Some c1)).
      destruct (resolveBoardFromFetch name (Some c1) resp tStore). exact Hfetch.
    + specialize (Hfetch (Some c1)).
      destruct (resolveBoardFromFetch name (Some c1) resp tStore). exact Hfetch.
  - specialize (Hfetch None).
    destruct (resolveBoardFromFetch name None resp tStore). exact Hfetch.
Qed.

Lemma resolveListId_fuzzy_inv (boardId name : string) (cache : option TrelloCache)
    (tLookup tStore : Z) (resp : Fetched (Listing Resource)) (i : string) :
  fst (resolveListId boardId name cache tLookup resp tStore) = Ok (mkResolved i false) ->
  exists listing cache1,
    resp = Body (Some listing)
    /\ fst (resolveListFromListing boardId name cache1 listing tStore)
       = Ok (mkResolved i false).
Proof.
  unfold resolveListId.
  assert (forall c1, fst (resolveListFromFetch boardId name c1 resp tStore)
                     = Ok (mkResolved i false) ->
            exists listing cache1,
              resp = Body (Some listing)
              /\ fst (resolveListFromListing boardId name cache1 listing tStore)
                 = Ok (mkResolved i false)) as Hfetch.
  { intros c1. unfold resolveListFromFetch.
    destruct resp as [r|s|r|[[|b bs]|]]; try discriminate. eauto. }
  destruct cache as [c|]; [|apply Hfetch].
  destruct (getListId c tLookup boardId name) as [[j|] c1]; [|apply Hfetch].
  destruct (nonEmpty j); [discriminate | apply Hfetch].
Qed.

(** X13. Whenever board resolution or list resolution answers with
    [exactMatch = false], the id is that of a listed resource whose name
    is not an exact match and whose similarity to the request is at least
    0.8 and less than 1. *)
Theorem fuzzy_answer_meets_threshold (name : string) (resp : Fetched (Listing Resource))
    (i : string) :
  (exists st env tLookup tStore,
     fst (resolveBoardId name st env tLookup resp tStore) = Ok (mkResolved i false))
  \/ (exists boardId cache tLookup tStore,
        fst (resolveListId boardId name cache tLookup resp tStore) = Ok (mkResolved i false)) ->
  exists listing matched q,
    resp = Body (Some listing)
    /\ In matched listing /\ res_id matched = i
    /\ trim (toLowerCase (res_name matched)) <> trim (toLowerCase name)
    /\ similarityScore (trim (toLowerCase name)) (trim (toLowerCase (res_name matched)))
       = Fin q
    /\ (8 # 10 <= q)%Q /\ (q < 1)%Q.
Proof.
  assert (forall listing,
            (exists m matched,
               findExact (trim (toLowerCase name)) listing = None
               /\ fuzzyMatch name (map res_name listing) = Some m
               /\ jsLt (fm_score m) acceptThreshold = false
               /\ findByName (fm_match m) listing = Some matched
               /\ res_id matched = i) ->
            exists matched q,
              In matched listing /\ res_id matched = i
              /\ trim (toLowerCase (res_name matched)) <> trim (toLowerCase name)
              /\ similarityScore (trim (toLowerCase name))
                   (trim (toLowerCase (res_name matched))) = Fin q
              /\ (8 # 10 <= q)%Q /\ (q < 1)%Q) as Hcore.
  { intros listing (m & matched & Hexact & Hm & Hlt & Hfind & Hid).
    destruct (accepted_score name listing m Hexact Hm Hlt) as (q & Hq & H8 & H1).
    apply find_some in Hfind. destruct Hfind as [Hin Hname].
    apply String.eqb_eq in Hname.
    exists matched, q. rewrite Hname. repeat split; auto.
    rewrite <- Hname. exact (findExact_None _ _ Hexact matched Hin). }
  intros [(st & env & tLookup & tStore & H)|(boardId & cache & tLookup & tStore & H)].
  - apply resolveBoardId_fuzzy_inv in H. destruct H as (listing & cache1 & -> & H).
    exists listing. destruct (Hcore listing) as (matched & q & Hrest); [|eauto].
    unfold resolveBoardFromListing in H.
    destruct (findExact _ listing) eqn:Hexact; [discriminate|].
    destruct (fuzzyMatch name (map res_name listing)) as [m|] eqn:Hm; [|discriminate].
    destruct (jsLt (fm_score m) acceptThreshold) eqn:Hlt; [discriminate|].
    destruct (findByName (fm_match m) listing) as [matched|] eqn:Hfind; [|discriminate].
    cbn [fst] in H. injection H as Hid. exists m, matched. auto.
  - apply resolveListId_fuzzy_inv in H. destruct H as (listing & cache1 & -> & H).
    exists listing. destruct (Hcore listing) as (matched & q & Hrest); [|eauto].
    unfold resolveListFromListing in H.
    destruct (findExact _ listing) eqn:Hexact; [discriminate|].
    destruct (fuzzyMatch name (map res_name listing)) as [m|] eqn:Hm; [|discriminate].
    destruct (jsLt (fm_score m) acceptThreshold) eqn:Hlt; [discriminate|].
    destruct (findByName (fm_match m) listing) as [matched|] eqn:Hfind; [|discriminate].
    cbn [fst] in H. injection H as Hid. exists m, matched. auto.
Qed.

Lemma fuzzy_answer_meets_threshold_witness :
  exists listing matched q,
    Body (Some marketingBoards) = Body (Some listing)
    /\ In matched listing /\ res_id matched = "b1"
    /\ trim (toLowerCase (res_name matched)) <> trim (toLowerCase "Markting")
    /\ similarityScore (trim (toLowerCase "Markting")) (trim (toLowerCase (res_name matched)))
       = Fin q
    /\ (8 # 10 <= q)%Q /\ (q < 1)%Q.
Proof.
  apply (fuzzy_answer_meets_threshold "Markting" (Body (Some marketingBoards)) "b1").
  left. exists (mkResolverState None None), None, 0, 0. vm_compute. reflexivity.
Defined.

Lemma getBoardId_footprint (c : TrelloCache) (now : Z) (name : string) :
  let key := trim (toLowerCase name) in
  let c1 := snd (getBoardId c now name) in
  ttlMs c1 = ttlMs c /\ listsByBoard c1 = listsByBoard c
  /\ (forall k, k <> key -> boardNameToId c1 !! k = boardNameToId c !! k)
  /\ (boardNameToId c1 !! key = boardNameToId c !! key \/ boardNameToId c1 !! key = None)
  /\ (forall j, fst (getBoardId c now name) = Some j ->
        c1 = c /\ exists entry, boardNameToId c !! key = Some entry /\ value entry = j).
Proof.
  intros key c1. subst c1. unfold getBoardId. fold key.
  destruct (boardNameToId c !! key) as [entry|] eqn:E.
  - destruct (isValid c now (Some entry)); cbn [fst snd fmap option_fmap option_map].
    + repeat split; auto. exists entry. split; [reflexivity | congruence].
    + cbn [ttlMs listsByBoard boardNameToId]. repeat split; try discriminate.
      * intros k Hk. now rewrite lookup_delete_ne.
      * right. apply lookup_delete_eq.
  - cbn [isValid fst snd]. rewrite E. repeat split; auto; discriminate.
Qed.

Lemma resolveBoardFromFetch_store (name : string) (c1 : TrelloCache)
    (resp : Fetched (Listing Resource)) (tStore : Z) :
  (exists e, resolveBoardFromFetch name (Some c1) resp tStore = (Err e, Some c1))
  \/ (exists r, resolveBoardFromFetch name (Some c1) resp tStore
                = (Ok r, Some (setBoardId c1 tStore name (resolved_id r)))).
Proof.
  unfold resolveBoardFromFetch.
  destruct resp as [r|s|r|[[|b bs]|]]; try (left; eexists; reflexivity).
  unfold resolveBoardFromListing.
  destruct (findExact _ (b :: bs)) as [hit|];
    [right; exists (mkResolved (res_id hit) true); reflexivity|].
  destruct (fuzzyMatch name (map res_name (b :: bs))) as [m|];
    [|left; eexists; reflexivity].
  destruct (jsLt (fm_score m) acceptThreshold); [left; eexists; reflexivity|].
  destruct (findByName (fm_match m) (b :: bs)) as [matched|];
    [right; exists (mkResolved (res_id matched) false); reflexivity
    |left; eexists; reflexivity].
Qed.

(** X14. A board resolution with a cache touches one cache entry only, the
    one under the normal form of the requested name: the list entries, the
    lifetime and every other board entry stay as they were. When it fails,
    that entry is as before or has been purged, so a failure stores
    nothing; when it succeeds, that entry holds the id it returns. *)
Theorem resolveBoardId_cache_footprint (name : string) (st : ResolverState)
    (c : TrelloCache) (env : option string) (tLookup tStore : Z)
    (resp : Fetched (Listing Resource)) :
  cache st = Some c ->
  let out := resolveBoardId name st env tLookup resp tStore in
  let key := trim (toLowerCase name) in
  exists c',
    cache (snd out) = Some c'
    /\ ttlMs c' = ttlMs c /\ listsByBoard c' = listsByBoard c
    /\ (forall k, k <> key -> boardNameToId c' !! k = boardNameToId c !! k)
    /\ (forall e, fst out = Err e ->
          boardNameToId c' !! key = boardNameToId c !! key
          \/ boardNameToId c' !! key = None)
    /\ (forall r, fst out = Ok r ->
          exists entry, boardNameToId c' !! key = Some entry
                        /\ value entry = resolved_id r).
Proof.
  intros Hc out key. subst out. unfold resolveBoardId. rewrite Hc.
  destruct (ensureBoardAllowed name env (cachedAllowedBoards st)) as [[[]|e0] memo].
  2:{ exists c. cbn [fst snd cache].
      repeat split; auto. discriminate. }
  destruct (getBoardId_footprint c tLookup name) as (Httl & Hlists & Hother & Hkey & Hhit).
  fold key in Hother, Hkey, Hhit.
  destruct (getBoardId c tLookup name) as [cachedId c1]. cbn [fst snd] in *.
  assert (forall c2 res,
            (exists e, res = (Err e : Result ResolveError Resolved, Some c1))
            \/ (exists r, res = (Ok r, Some (setBoardId c1 tStore name (resolved_id r)))) ->
            res = (fst res, Some c2) ->
            ttlMs c2 = ttlMs c /\ listsByBoard c2 = listsByBoard c
            /\ (forall k, k <> key -> boardNameToId c2 !! k = boardNameToId c !! k)
            /\ (forall e, fst res = Err e ->
                  boardNameToId c2 !! key = boardNameToId c !! key
                  \/ boardNameToId c2 !! key = None)
            /\ (forall r, fst res = Ok r ->
                  exists entry, boardNameToId c2 !! key = Some entry
                                /\ value entry = resolved_id r)) as Hstore.
  { intros c2 res [[e ->]|[r ->]] Hres; cbn [fst] in *; injection Hres as <-.
    - repeat split; auto. discriminate.
    - unfold setBoardId. cbn [ttlMs listsByBoard boardNameToId]. fold key.
      repeat split; auto.
      + intros k Hk. rewrite lookup_insert_ne by congruence. now apply Hother.
      + discriminate.
      + intros r' [= <-]. rewrite lookup_insert_eq. eauto. }
  assert (exists c2, resolveBoardFromFetch name (Some c1) resp tStore
                     = (fst (resolveBoardFromFetch name (Some c1) resp tStore), Some c2))
    as [c2 Hc2].
  { destruct (resolveBoardFromFetch_store name c1 resp tStore) as [[e ->]|[r ->]]; eauto. }
  specialize (Hstore c2 _ (resolveBoardFromFetch_store name c1 resp tStore) Hc2).
  destruct cachedId as [j|]; [destruct (nonEmpty j) eqn:Hj|].
  - destruct (Hhit j eq_refl) as [-> (entry & Hentry & Hval)].
    exists c. cbn [fst snd cache]. repeat split; auto; try discriminate.
    intros r [= <-]. cbn [resolved_id]. eauto.
  - rewrite Hc2. exists c2. split; [reflexivity | exact Hstore].
  - rewrite Hc2. exists c2. split; [reflexivity | exact Hstore].
Qed.

Lemma resolveBoardId_cache_footprint_witness :
  exists c',
    cache (snd (resolveBoardId "Rev"
                  (mkResolverState None
                     (Some (setBoardId (newTrelloCache 5) 0 "Marketing" "b1")))
                  None 10 (Body (Some sixLists)) 20)) = Some c'
    /\ boardNameToId c' !! "marketing" = Some (mkCacheEntry "b1" 0)
    /\ boardNameToId c' !! "rev" = None.
Proof.
  destruct (resolveBoardId_cache_footprint "Rev"
              (mkResolverState None (Some (setBoardId (newTrelloCache 5) 0 "Marketing" "b1")))
              (setBoardId (newTrelloCache 5) 0 "Marketing" "b1")
              None 10 20 (Body (Some sixLists)) eq_refl)
    as (c' & Hc' & _ & _ & Hother & Hfail & _).
  exists c'. split; [exact Hc'|]. split.
  - rewrite Hother by discriminate. reflexivity.
  - destruct (Hfail (NoConfidentMatch KBoard "Rev" (slice0 5 (map res_name sixLists))))
      as [H|H]; [vm_compute; reflexivity | | exact H].
    transitivity (boardNameToId (setBoardId (newTrelloCache 5) 0 "Marketing" "b1") !! "rev");
      [exact H | reflexivity].
Defined.

(** ** More on the cache *)

(** X15. Lists are scoped by board and kept apart from boards: storing a
    list id changes no board lookup and no list lookup under another board
    or another name, and storing a board id changes no list lookup. *)
Theorem cache_scopes_are_separate (c : TrelloCache) (boardId name value : string)
    (T t : Z) (otherBoard otherName : string) :
  otherBoard <> boardId \/ trim (toLowerCase otherName) <> trim (toLowerCase name) ->
  fst (getListId (setListId c T boardId name value) t otherBoard otherName)
  = fst (getListId c t otherBoard otherName)
  /\ fst (getBoardId (setListId c T boardId name value) t otherName)
     = fst (getBoardId c t otherName)
  /\ fst (getListId (setBoardId c T name value) t otherBoard otherName)
     = fst (getListId c t otherBoard otherName).
Proof.
  intros Hother. split; [|split].
  - unfold getListId, setListId. cache_simpl.
    destruct (decide (otherBoard = boardId)) as [->|Hb].
    + destruct Hother as [H|Hn]; [congruence|].
      rewrite lookup_insert_eq.
      destruct (listsByBoard c !! boardId) as [m|] eqn:Em.
      * rewrite lookup_insert_ne by congruence.
        destruct (isValid _ t (m !! _)) eqn:V.
        -- replace (isValid c t (m !! trim (toLowerCase otherName))) with true; reflexivity.
        -- replace (isValid c t (m !! trim (toLowerCase otherName))) with false
             by (rewrite <- V; reflexivity).
           now destruct (m !! trim (toLowerCase otherName)).
      * rewrite lookup_insert_ne by congruence. rewrite lookup_empty. reflexivity.
    + rewrite lookup_insert_ne by congruence.
      destruct (listsByBoard c !! otherBoard) as [m|]; [|reflexivity].
      destruct (isValid _ t (m !! _)) eqn:V.
      * replace (isValid c t (m !! trim (toLowerCase otherName))) with true; reflexivity.
      * replace (isValid c t (m !! trim (toLowerCase otherName))) with false
          by (rewrite <- V; reflexivity).
        now destruct (m !! trim (toLowerCase otherName)).
  - unfold getBoardId, setListId. cache_simpl.
    destruct (isValid _ t (boardNameToId c !! _)) eqn:V.
    + replace (isValid c t (boardNameToId c !! trim (toLowerCase otherName))) with true;
        reflexivity.
    + replace (isValid c t (boardNameToId c !! trim (toLowerCase otherName))) with false
        by (rewrite <- V; reflexivity).
      now destruct (boardNameToId c !! trim (toLowerCase otherName)).
  - unfold getListId, setBoardId. cache_simpl.
    destruct (listsByBoard c !! otherBoard) as [m|]; [|reflexivity].
    destruct (isValid _ t (m !! _)) eqn:V.
    + replace (isValid c t (m !! trim (toLowerCase otherName))) with true; reflexivity.
    + replace (isValid c t (m !! trim (toLowerCase otherName))) with false
        by (rewrite <- V; reflexivity).
      now destruct (m !! trim (toLowerCase otherName)).
Qed.

Lemma cache_scopes_are_separate_witness :
  fst (getListId (setListId (setListId (newTrelloCache 5) 0 "b1" "To Do" "l1") 5 "b2"
                    "to do" "l9") 10 "b1" "To Do")
  = fst (getListId (setListId (newTrelloCache 5) 0 "b1" "To Do" "l1") 10 "b1" "To Do").
Proof.
  apply (cache_scopes_are_separate (setListId (newTrelloCache 5) 0 "b1" "To Do" "l1")
           "b2" "to do" "l9" 5 10 "b1" "To Do").
  left. discriminate.
Defined.

(** X16. A later write under the same normalized name replaces the earlier
    one: the cache is as if only the later write had happened. *)
Theorem later_write_replaces_earlier (c : TrelloCache) (T1 T2 : Z)
    (boardId name1 name2 v1 v2 : string) :
  trim (toLowerCase name2) = trim (toLowerCase name1) ->
  setBoardId (setBoardId c T1 name1 v1) T2 name2 v2 = setBoardId c T2 name2 v2
  /\ setListId (setListId c T1 boardId name1 v1) T2 boardId name2 v2
     = setListId c T2 boardId name2 v2.
Proof.
  intros Hkey. split.
  - unfold setBoardId. cache_simpl. rewrite Hkey, insert_insert_eq. reflexivity.
  - unfold setListId. cache_simpl.
    rewrite lookup_insert_eq, Hkey, !insert_insert_eq. reflexivity.
Qed.

Lemma later_write_replaces_earlier_witness :
  setBoardId (setBoardId (newTrelloCache 5) 0 "Marketing" "b1") 7 " marketing " "b2"
  = setBoardId (newTrelloCache 5) 7 " marketing " "b2".
Proof.
  apply (later_write_replaces_earlier (newTrelloCache 5) 0 7 "b0" "Marketing" " marketing "
           "b1" "b2").
  reflexivity.
Defined.

(** X17. A miss is final until the next write: once a read has returned
    null, a read of the same name returns null whatever the clock says,
    since an expired entry is deleted by the read that finds it. *)
Theorem a_miss_is_final (c : TrelloCache) (t t' : Z) (boardId name : string) :
  (fst (getBoardId c t name) = None ->
   fst (getBoardId (snd (getBoardId c t name)) t' name) = None)
  /\ (fst (getListId c t boardId name) = None ->
      fst (getListId (snd (getListId c t boardId name)) t' boardId name) = None).
Proof.
  split.
  - unfold getBoardId.
    destruct (boardNameToId c !! trim (toLowerCase name)) as [e|] eqn:E.
    + destruct (isValid c t (Some e)) eqn:V; cache_simpl; [discriminate|].
      intros _. rewrite lookup_delete_eq. reflexivity.
    + cache_simpl. rewrite E. reflexivity.
  - unfold getListId.
    destruct (listsByBoard c !! boardId) as [m|] eqn:Em; cache_simpl.
    + destruct (m !! trim (toLowerCase name)) as [e|] eqn:E.
      * destruct (isValid c t (Some e)) eqn:V; cache_simpl; [discriminate|].
        intros _. rewrite lookup_insert_eq, lookup_delete_eq. reflexivity.
      * cache_simpl. rewrite Em, E. reflexivity.
    + rewrite Em. reflexivity.
Qed.

Lemma a_miss_is_final_witness :
  fst (getBoardId (snd (getBoardId (setBoardId (newTrelloCache 5) 0 "Marketing" "b1")
                          300000 "Marketing")) 1 "Marketing") = None.
Proof.
  apply (a_miss_is_final (setBoardId (newTrelloCache 5) 0 "Marketing" "b1") 300000 1
           "b1" "Marketing").
  reflexivity.
Defined.

Lemma getStats_lists_insert (bn bn' : gmap string CacheEntry)
    (lm : gmap string (gmap string CacheEntry)) (ttl ttl' : Z) (b : string)
    (new : gmap string CacheEntry) :
  (snd (getStats (mkTrelloCache bn (<[b := new]> lm) ttl))
   + match lm !! b with Some old => size old | None => O end
   = snd (getStats (mkTrelloCache bn' lm ttl')) + size new)%nat.
Proof.
  unfold getStats. cbn [snd listsByBoard].
  destruct (lm !! b) as [old|] eqn:E.
  - rewrite <- (insert_delete_eq lm).
    rewrite map_fold_insert_L; [| intros; lia | apply lookup_delete_eq].
    rewrite (map_fold_delete_L _ _ b old lm); [lia | intros; lia | exact E].
  - rewrite map_fold_insert_L; [lia | intros; lia | exact E].
Qed.

(** X18. [getStats] counts stored names: a write under a name not yet
    stored raises the matching count by one, a write under a stored name
    leaves both counts as they were, and after [clear] both are zero. *)
Theorem getStats_counts_writes (c : TrelloCache) (T : Z) (boardId name v : string) :
  getStats (setBoardId c T name v)
  = (match boardNameToId c !! trim (toLowerCase name) with
     | Some _ => fst (getStats c)
     | None => S (fst (getStats c))
     end, snd (getStats c))
  /\ getStats (setListId c T boardId name v)
     = (fst (getStats c),
        match listsByBoard c !! boardId ≫= (fun m => m !! trim (toLowerCase name)) with
        | Some _ => snd (getStats c)
        | None => S (snd (getStats c))
        end)
  /\ getStats (clear c) = (O, O).
Proof.
  split; [|split].
  - unfold setBoardId, getStats. cache_simpl. f_equal.
    rewrite map_size_insert.
    now destruct (boardNameToId c !! trim (toLowerCase name)).
  - pose proof (getStats_lists_insert (boardNameToId c) (boardNameToId c) (listsByBoard c)
                  (ttlMs c) (ttlMs c) boardId
                  (<[trim (toLowerCase name) := mkCacheEntry v T]>
                     (match listsByBoard c !! boardId with Some m => m | None => ∅ end)))
      as H.
    unfold setListId.
    replace (mkTrelloCache (boardNameToId c) (listsByBoard c) (ttlMs c)) with c in H
      by now destruct c.
    destruct (getStats (mkTrelloCache _ (<[boardId := _]> _) _)) as [nb nl] eqn:Eg.
    assert (nb = fst (getStats c)) as ->.
    { unfold getStats in Eg. cbn [boardNameToId listsByBoard] in Eg. injection Eg as Hb Hl. now rewrite <- Hb. }
    f_equal. cbn [snd] in H.
    rewrite map_size_insert in H.
    destruct (listsByBoard c !! boardId) as [m|] eqn:Em; cbn [mbind option_bind].
    + destruct (m !! trim (toLowerCase name)); cbn [id] in H; lia.
    + rewrite lookup_empty, map_size_empty in H. cbn [id] in H. lia.
  - unfold clear, getStats. cache_simpl. rewrite map_fold_empty. reflexivity.
Qed.

(** X19. [getStats] does not look at the clock: an entry that has outlived
    the cache's lifetime is still counted, until the read that finds it
    deletes it and the count drops by one. *)
Theorem getStats_counts_expired_entries (c : TrelloCache) (t : Z) (boardId name : string)
    (e : CacheEntry) :
  ttlMs c <= t - timestamp e ->
  (boardNameToId c !! trim (toLowerCase name) = Some e ->
   fst (getStats c) = S (fst (getStats (snd (getBoardId c t name)))))
  /\ (listsByBoard c !! boardId ≫= (fun m => m !! trim (toLowerCase name)) = Some e ->
      snd (getStats c) = S (snd (getStats (snd (getListId c t boardId name))))).
Proof.
  intros Hold.
  assert (isValid c t (Some e) = false) as V.
  { unfold isValid. apply Z.ltb_ge. exact Hold. }
  split.
  - intros E. unfold getBoardId. rewrite E, V. unfold getStats. cache_simpl.
    rewrite map_size_delete, E.
    assert (size (boardNameToId c) <> O) as Hne.
    { intros H0. apply map_size_empty_inv in H0. rewrite H0, lookup_empty in E.
      discriminate. }
    cbn [Nat.pred]. lia.
  - intros E. unfold getListId.
    destruct (listsByBoard c !! boardId) as [m|] eqn:Em; cbn [mbind option_bind] in E;
      [|discriminate].
    rewrite E, V. cbn [snd].
    pose proof (getStats_lists_insert (boardNameToId c) (boardNameToId c) (listsByBoard c)
                  (ttlMs c) (ttlMs c) boardId (delete (trim (toLowerCase name)) m)) as H.
    replace (mkTrelloCache (boardNameToId c) (listsByBoard c) (ttlMs c)) with c in H
      by now destruct c.
    rewrite Em, map_size_delete, E in H.
    assert (size m <> O) as Hne.
    { intros H0. apply map_size_empty_inv in H0. rewrite H0, lookup_empty in E.
      discriminate. }
    cbn [Nat.pred] in H. lia.
Qed.

Lemma getStats_counts_expired_entries_witness :
  fst (getStats (setBoardId (newTrelloCache 5) 0 "Marketing" "b1"))
  = S (fst (getStats (snd (getBoardId (setBoardId (newTrelloCache 5) 0 "Marketing" "b1")
                             300000 "Marketing")))).
Proof.
  apply (getStats_counts_expired_entries (setBoardId (newTrelloCache 5) 0 "Marketing" "b1")
           300000 "b1" "Marketing" (mkCacheEntry "b1" 0)).
  - vm_compute. discriminate.
  - reflexivity.
Defined.

Lemma invalidateBoard_names (c : TrelloCache) (order : list string) (boardId : string) :
  boardNameToId (invalidateBoard c order boardId) = boardNameToId c
  /\ (forall name e, In name order -> boardNameToId c !! name = Some e -> value e <> boardId)
  \/ exists k0 e0, In k0 order /\ boardNameToId c !! k0 = Some e0 /\ value e0 = boardId
                   /\ boardNameToId (invalidateBoard c order boardId)
                      = delete k0 (boardNameToId c).
Proof.
  unfold invalidateBoard. cbn [boardNameToId].
  destruct (List.find _ order) as [k0|] eqn:F.
  - right. apply find_some in F as [Hin Hf].
    destruct (boardNameToId c !! k0) as [e0|] eqn:E0; [|discriminate].
    exists k0, e0. apply String.eqb_eq in Hf. auto.
  - left. split; [reflexivity|]. intros name e Hin E Hv.
    pose proof (find_none _ _ F name Hin) as Hf. cbn beta in Hf.
    rewrite E in Hf. apply String.eqb_neq in Hf. contradiction.
Qed.

(** X20. [invalidateBoard] forgets every list of the board and nothing of
    the other boards' lists, and it removes at most one name: names stored
    for other boards stay, and of two names stored for the invalidated
    board (the resolver stores an accepted misspelling under the requested
    name) one still resolves afterwards. *)
Theorem invalidateBoard_removes_one_name (c : TrelloCache) (order : list string)
    (boardId : string) :
  (forall t name,
      getListId (invalidateBoard c order boardId) t boardId name
      = (None, invalidateBoard c order boardId))
  /\ (forall other, other <> boardId ->
        listsByBoard (invalidateBoard c order boardId) !! other = listsByBoard c !! other)
  /\ (forall k e, boardNameToId c !! k = Some e -> value e <> boardId ->
        boardNameToId (invalidateBoard c order boardId) !! k = Some e)
  /\ (forall k1 k2 e1 e2, k1 <> k2 ->
        boardNameToId c !! k1 = Some e1 -> boardNameToId c !! k2 = Some e2 ->
        boardNameToId (invalidateBoard c order boardId) !! k1 = Some e1
        \/ boardNameToId (invalidateBoard c order boardId) !! k2 = Some e2)
  /\ ttlMs (invalidateBoard c order boardId) = ttlMs c.
Proof.
  split; [|split; [|split; [|split]]].
  - intros t name. unfold getListId.
    replace (listsByBoard (invalidateBoard c order boardId) !! boardId) with
      (@None (gmap string CacheEntry)); [reflexivity|].
    unfold invalidateBoard. cbn [listsByBoard]. now rewrite lookup_delete_eq.
  - intros other Hne. unfold invalidateBoard. cbn [listsByBoard].
    now rewrite lookup_delete_ne by congruence.
  - intros k e E Hv.
    destruct (invalidateBoard_names c order boardId)
      as [[-> _] | (k0 & e0 & _ & E0 & Hv0 & ->)]; [exact E|].
    rewrite lookup_delete_ne; [exact E|]. intros ->. congruence.
  - intros k1 k2 e1 e2 Hne E1 E2.
    destruct (invalidateBoard_names c order boardId)
      as [[-> _] | (k0 & e0 & _ & E0 & Hv0 & ->)]; [now left|].
    destruct (decide (k0 = k1)) as [->|Hk].
    + right. now rewrite lookup_delete_ne.
    + left. now rewrite lookup_delete_ne.
  - reflexivity.
Qed.

Lemma invalidateBoard_removes_one_name_witness :
  boardNameToId (invalidateBoard
                   (setBoardId (setBoardId (newTrelloCache 5) 0 "Marketing" "b1")
                      10 "Markting" "b1")
                   ["marketing"; "markting"] "b1") !! "marketing"
  = Some (mkCacheEntry "b1" 0)
  \/ boardNameToId (invalidateBoard
                      (setBoardId (setBoardId (newTrelloCache 5) 0 "Marketing" "b1")
                         10 "Markting" "b1")
                      ["marketing"; "markting"] "b1") !! "markting"
     = Some (mkCacheEntry "b1" 10).
Proof.
  apply (invalidateBoard_removes_one_name
           (setBoardId (setBoardId (newTrelloCache 5) 0 "Marketing" "b1") 10 "Markting" "b1")
           ["marketing"; "markting"] "b1");
    [discriminate | reflexivity | reflexivity].
Defined.

(** X21. When the names visited are the stored ones and some name is
    stored for the board, [invalidateBoard] removes exactly one entry, and
    when no other name is stored for the board that name no longer
    resolves. *)
Theorem invalidateBoard_forgets_the_name (c : TrelloCache) (order : list string)
    (boardId k : string) (e : CacheEntry) :
  (forall name, is_Some (boardNameToId c !! name) -> In name order) ->
  boardNameToId c !! k = Some e ->
  value e = boardId ->
  fst (getStats c) = S (fst (getStats (invalidateBoard c order boardId)))
  /\ ((forall k' e', k' <> k -> boardNameToId c !! k' = Some e' -> value e' <> boardId) ->
      forall t name, trim (toLowerCase name) = k ->
        fst (getBoardId (invalidateBoard c order boardId) t name) = None).
Proof.
  intros Hcover E Hv.
  destruct (invalidateBoard_names c order boardId)
    as [[_ Hnone] | (k0 & e0 & Hin & E0 & Hv0 & Hdel)].
  { exfalso. apply (Hnone k e); auto. }
  split.
  - unfold getStats. cbn [fst]. rewrite Hdel, map_size_delete, E0.
    assert (size (boardNameToId c) <> O) as Hne.
    { intros H0. apply map_size_empty_inv in H0. rewrite H0, lookup_empty in E0.
      discriminate. }
    cbn [Nat.pred]. lia.
  - intros Honly t name Hname.
    assert (k0 = k) as ->.
    { destruct (decide (k0 = k)) as [H|H]; [exact H|].
      exfalso. exact (Honly k0 e0 H E0 Hv0). }
    unfold getBoardId. rewrite Hname, Hdel, lookup_delete_eq. reflexivity.
Qed.

Lemma invalidateBoard_forgets_the_name_witness :
  fst (getBoardId (invalidateBoard
                     (setBoardId (setBoardId (newTrelloCache 5) 0 "Marketing" "b1")
                        10 "Roadmap" "b2")
                     ["marketing"; "roadmap"] "b2") 20 " ROADMAP ") = None.
Proof.
  refine (proj2 (invalidateBoard_forgets_the_name
           (setBoardId (setBoardId (newTrelloCache 5) 0 "Marketing" "b1") 10 "Roadmap" "b2")
           ["marketing"; "roadmap"] "b2" "roadmap" (mkCacheEntry "b2" 10) _ _ _) _ 20
           " ROADMAP " _).
  - intros name [x Hx].
    destruct (decide (name = "roadmap")) as [->|H1]; [simpl; auto|].
    destruct (decide (name = "marketing")) as [->|H2]; [simpl; auto|].
    exfalso. unfold setBoardId in Hx. cbn [boardNameToId newTrelloCache] in Hx.
    change (trim (toLowerCase "Roadmap")) with "roadmap" in Hx.
    change (trim (toLowerCase "Marketing")) with "marketing" in Hx.
    rewrite !lookup_insert_ne, lookup_empty in Hx by congruence. discriminate.
  - reflexivity.
  - reflexivity.
  - intros k' e' Hk' Hl Hv.
    destruct (decide (k' = "marketing")) as [->|H2].
    + vm_compute in Hl. injection Hl as Hl. subst e'. discriminate.
    + unfold setBoardId in Hl. cbn [boardNameToId newTrelloCache] in Hl.
      change (trim (toLowerCase "Roadmap")) with "roadmap" in Hl.
      change (trim (toLowerCase "Marketing")) with "marketing" in Hl.
      rewrite !lookup_insert_ne, lookup_empty in Hl by congruence. discriminate.
  - reflexivity.
Defined.

(** ** More on the cleaner *)

Lemma bindC_Ok_inv {A B} (c : Completion A) (k : A -> Completion B) (b : B) :
  bindC c k = Ok b -> exists a, c = Ok a /\ k a = Ok b.
Proof. destruct c as [a|e]; cbn [bindC]; [eauto | discriminate]. Qed.

Ltac inv_bind H :=
  repeat (let a := fresh "a" in
          let E := fresh "E" in
          apply bindC_Ok_inv in H as (a & E & H)).

Ltac use_props :=
  unfold propOf;
  repeat match goal with
         | E : getProp _ _ = Ok _ |- _ => rewrite E; clear E
         end.

Lemma mapC_In_inv {A B} (f : A -> Completion B) (l : list A) :
  forall ys y, mapC f l = Ok ys -> In y ys -> exists x, In x l /\ f x = Ok y.
Proof.
  induction l as [|x l IH]; intros ys y H Hin; cbn [mapC] in H.
  - injection H as <-. destruct Hin.
  - inv_bind H. injection H as <-. destruct Hin as [->|Hin].
    + exists x. split; [now left | assumption].
    + destruct (IH _ _ E0 Hin) as (x' & Hx' & Hf). exists x'. split; [now right | exact Hf].
Qed.

Lemma mapC_Forall {A B} (f : A -> Completion B) (P : B -> Prop) (l : list A) (ys : list B) :
  (forall x y, f x = Ok y -> P y) -> mapC f l = Ok ys -> Forall P ys.
Proof.
  intros HP H. apply List.Forall_forall. intros y Hy.
  destruct (mapC_In_inv f l ys y H Hy) as (x & _ & Hf). exact (HP x y Hf).
Qed.

Lemma mapC_map_inv {A B C} (f : A -> Completion B) (g : B -> C) (h : A -> C) (l : list A) :
  (forall x y, f x = Ok y -> g y = h x) ->
  forall ys, mapC f l = Ok ys -> map g ys = map h l.
Proof.
  intros Hgh. induction l as [|x l IH]; intros ys H; cbn [mapC] in H.
  - injection H as <-. reflexivity.
  - inv_bind H. injection H as <-. cbn [map]. f_equal; [now apply Hgh | now apply IH].
Qed.

Lemma foldC_invariant {A S} (P : S -> Prop) (f : S -> A -> Completion S) (l : list A) :
  (forall acc x acc', P acc -> f acc x = Ok acc' -> P acc') ->
  forall acc acc', P acc -> foldC f acc l = Ok acc' -> P acc'.
Proof.
  intros Hstep. induction l as [|x l IH]; intros acc acc' Hacc H; cbn [foldC] in H.
  - injection H as <-. exact Hacc.
  - inv_bind H. eapply IH; [|exact H]. eapply Hstep; eassumption.
Qed.

Lemma strictEquals_true (x y : JsVal) : strictEquals x y = true -> x = y.
Proof.
  destruct x, y; cbn [strictEquals]; try discriminate; intros H; try reflexivity.
  - apply Bool.eqb_prop in H. now subst.
  - apply Z.eqb_eq in H. now subst.
  - apply String.eqb_eq in H. now subst.
Qed.

Lemma mapGet_mapSet (k v key : JsVal) (m : JsMap) :
  mapGet (mapSet k v m) key = if strictEquals k key then v else mapGet m key.
Proof.
  unfold mapGet. induction m as [|[k' v'] m IH]; cbn [mapSet List.find fst snd].
  - now destruct (strictEquals k key).
  - destruct (strictEquals k' k) eqn:Ek; cbn [List.find fst snd].
    + apply strictEquals_true in Ek. subst k'.
      now destruct (strictEquals k key).
    + destruct (strictEquals k' key) eqn:Ek'.
      * destruct (strictEquals k key) eqn:Ekk; [|reflexivity].
        apply strictEquals_true in Ek'. subst k'.
        pose proof (strictEquals_true _ _ Ekk) as Hk. subst k. congruence.
      * exact IH.
Qed.

Lemma find_snoc {A} (f : A -> bool) (l : list A) (x : A) :
  List.find f (l ++ [x])
  = match List.find f l with
    | Some y => Some y
    | None => if f x then Some x else None
    end.
Proof.
  induction l as [|y l IH]; cbn [List.find app]; [reflexivity|].
  now destruct (f y).
Qed.

Lemma buildMapFrom_fold (valueKey : string) (items : list JsVal) :
  forall m m',
    foldC (fun (m : JsMap) entry =>
             do i <- getProp entry "id";
             if truthy i then
               do v <- getProp entry valueKey;
               if truthy v then Ok (mapSet i v m) else Ok m
             else Ok m) m items = Ok m' ->
    forall key,
      mapGet m' key = match List.find (boundTo valueKey key) (rev items) with
                      | Some entry => propOf entry valueKey
                      | None => mapGet m key
                      end.
Proof.
  induction items as [|x l IH]; intros m m' H key; cbn [foldC] in H.
  - injection H as <-. reflexivity.
  - apply bindC_Ok_inv in H as (m1 & H1 & H).
    rewrite (IH _ _ H key). cbn [rev]. rewrite find_snoc.
    destruct (List.find _ (rev l)); [reflexivity|].
    apply bindC_Ok_inv in H1 as (i & Hi & H1).
    unfold boundTo, propOf. rewrite Hi.
    destruct (truthy i); cbn [andb].
    + apply bindC_Ok_inv in H1 as (v & Hv & H1). rewrite Hv.
      destruct (truthy v); cbn [andb]; injection H1 as <-; [|reflexivity].
      rewrite mapGet_mapSet.
      destruct (strictEquals i key); [now rewrite Hv | reflexivity].
    + injection H1 as <-. reflexivity.
Qed.

Lemma buildMapFrom_lookup (entries : JsVal) (valueKey : string) (m : JsMap) (key : JsVal) :
  buildMapFrom entries valueKey = Ok m ->
  mapGet m key = lastBinding valueKey key entries.
Proof.
  unfold buildMapFrom, lastBinding. destruct (arrayItems entries) as [items|].
  - intros H. rewrite (buildMapFrom_fold _ _ _ _ H key).
    now destruct (List.find _ (rev items)).
  - intros H. injection H as <-. reflexivity.
Qed.

(** X22. What the lookup maps answer: the member map gives for a key the
    [fullName] of the last board member whose truthy [id] is the key and
    whose [fullName] is truthy, and [undefined] when there is none; the
    label map likewise with [name]. A later duplicate wins. *)
Theorem lookup_maps_keep_the_last_binding (board : JsVal) (memberMap labelMap : JsMap) :
  buildMemberMap board = Ok memberMap ->
  buildLabelMap board = Ok labelMap ->
  (forall key, mapGet memberMap key = lastBinding "fullName" key (propOf board "members"))
  /\ (forall key, mapGet labelMap key = lastBinding "name" key (propOf board "labels")).
Proof.
  unfold buildMemberMap, buildLabelMap. intros Hm Hl.
  apply bindC_Ok_inv in Hm as (members & Em & Hm).
  apply bindC_Ok_inv in Hl as (labels & El & Hl).
  split; intros key; unfold propOf.
  - rewrite Em. now apply buildMapFrom_lookup.
  - rewrite El. now apply buildMapFrom_lookup.
Qed.

Lemma lookup_maps_keep_the_last_binding_witness :
  mapGet [ (JStr "m1", JStr "Ada L.") ] (JStr "m1")
  = lastBinding "fullName" (JStr "m1")
      (propOf (JObj [ ("members",
                       JArr [ JObj [ ("id", JStr "m1"); ("fullName", JStr "Ada Lovelace") ];
                              JObj [ ("id", JStr "m1"); ("fullName", JStr "Ada L.") ] ]) ])
              "members").
Proof.
  refine (proj1 (lookup_maps_keep_the_last_binding
                   (JObj [ ("members",
                            JArr [ JObj [ ("id", JStr "m1"); ("fullName", JStr "Ada Lovelace") ];
                                   JObj [ ("id", JStr "m1"); ("fullName", JStr "Ada L.") ] ]) ])
                   [ (JStr "m1", JStr "Ada L.") ] [] _ _) (JStr "m1"));
    reflexivity.
Defined.

Lemma cleanCard_inv (card : JsVal) (mm lm : option JsMap) (c : CleanCard) :
  cleanCard card mm lm = Ok c ->
  card_id c = propOf card "id"
  /\ card_members c
     = match arrayItems (propOf card "idMembers"), mm with
       | Some ids, Some m => List.filter truthy (map (fun memberId => mapGet m memberId) ids)
       | _, _ => []
       end.
Proof.
  unfold cleanCard. intros H. inv_bind H. injection H as <-.
  cbn [card_id card_members]. use_props. split; reflexivity.
Qed.

Lemma cleanList_inv (l : JsVal) (mm lm : option JsMap) (cl : CleanList) :
  cleanList l mm lm = Ok cl ->
  list_id cl = propOf l "id"
  /\ forall cs, list_cards cl = Some cs ->
       exists raw, arrayItems (propOf l "cards") = Some raw
                   /\ mapC (fun card => cleanCard card mm lm) raw = Ok cs.
Proof.
  unfold cleanList. intros H. inv_bind H. injection H as <-.
  cbn [list_id list_cards]. unfold propOf. rewrite E, E2. split; [reflexivity|].
  intros cs Hcs. subst a3.
  destruct (arrayItems a2) as [raw|]; [|discriminate].
  inv_bind E3. injection E3 as <-. exists raw. split; [reflexivity | assumption].
Qed.

Lemma cleanBoard_inv (board : JsVal) (b : CleanBoard) :
  cleanBoard board = Ok b ->
  board_id b = propOf board "id"
  /\ exists mm lm,
       buildMemberMap board = Ok mm /\ buildLabelMap board = Ok lm
       /\ forall ls, board_lists b = Some ls ->
            exists raw, arrayItems (propOf board "lists") = Some raw
                        /\ mapC (fun list => cleanList list (Some mm) (Some lm)) raw = Ok ls.
Proof.
  unfold cleanBoard. intros H.
  apply bindC_Ok_inv in H as (mm & Emm & H).
  apply bindC_Ok_inv in H as (lm & Elm & H).
  inv_bind H. injection H as <-.
  cbn [board_id board_lists]. unfold propOf. rewrite E, E4. split; [reflexivity|].
  exists mm, lm. split; [assumption|]. split; [assumption|].
  intros ls Hls. subst a5.
  destruct (arrayItems a4) as [raw|]; [|discriminate].
  inv_bind E5. injection E5 as <-. exists raw. split; [reflexivity | assumption].
Qed.

Lemma memberMap_lookup (board : JsVal) (mm : JsMap) (key : JsVal) :
  buildMemberMap board = Ok mm ->
  mapGet mm key = lastBinding "fullName" key (propOf board "members").
Proof.
  unfold buildMemberMap. intros H.
  apply bindC_Ok_inv in H as (members & Em & H).
  unfold propOf. rewrite Em. now apply buildMapFrom_lookup.
Qed.

Lemma lastBinding_member (board memberId : JsVal) :
  truthy (lastBinding "fullName" memberId (propOf board "members")) = true ->
  exists member,
    In member (boardMembers board)
    /\ strictEquals (propOf member "id") memberId = true
    /\ propOf member "fullName" = lastBinding "fullName" memberId (propOf board "members").
Proof.
  unfold lastBinding, boardMembers.
  destruct (arrayItems (propOf board "members")) as [items|]; [|discriminate].
  destruct (List.find _ (rev items)) as [member|] eqn:F; [|discriminate].
  intros _. apply List.find_some in F as (Hin & Hb).
  apply List.in_rev in Hin. unfold boundTo in Hb.
  apply andb_prop in Hb as (_ & Hid).
  exists member. auto.
Qed.

Lemma filter_map_filter {A B} (f : A -> B) (p : A -> bool) (q : B -> bool) (l : list A) :
  (forall x, In x l -> q (f x) = true -> p x = true) ->
  List.filter q (map f l) = List.filter q (map f (List.filter p l)).
Proof.
  induction l as [|x l IH]; intros H; [reflexivity|].
  assert (List.filter q (map f l) = List.filter q (map f (List.filter p l))) as Hrest.
  { apply IH. intros y Hy. apply H. now right. }
  cbn [map List.filter]. destruct (p x) eqn:Ep; cbn [map List.filter].
  - now rewrite Hrest.
  - destruct (q (f x)) eqn:Eq; [|exact Hrest].
    rewrite (H x) in Ep by (auto; now left). discriminate.
Qed.

(** X23. The members shown on a card of a cleaned board come from the ids
    of the raw card it was cleaned from: they are, in the order of
    [idMembers], the [fullName] the board's members give for each id,
    unresolved ids left out. Each shown name is the [fullName] of a board
    member whose [id] is one of the card's ids, and an id the board does
    not list contributes nothing: removing such ids from the card leaves
    the members as they are. *)
Theorem card_members_are_board_members (board : JsVal) (b : CleanBoard)
    (ls : list CleanList) (l : CleanList) (cs : list CleanCard) (c : CleanCard) :
  cleanBoard board = Ok b ->
  board_lists b = Some ls -> In l ls ->
  list_cards l = Some cs -> In c cs ->
  exists rawLists rawList rawCards rawCard,
    arrayItems (propOf board "lists") = Some rawLists /\ In rawList rawLists
    /\ arrayItems (propOf rawList "cards") = Some rawCards /\ In rawCard rawCards
    /\ card_id c = propOf rawCard "id"
    /\ card_members c
       = List.filter truthy
           (map (fun memberId => lastBinding "fullName" memberId (propOf board "members"))
                (idMembersOf rawCard))
    /\ card_members c
       = List.filter truthy
           (map (fun memberId => lastBinding "fullName" memberId (propOf board "members"))
                (List.filter (listsMember board) (idMembersOf rawCard)))
    /\ (forall x, In x (card_members c) ->
          truthy x = true
          /\ exists memberId member,
               In memberId (idMembersOf rawCard)
               /\ In member (boardMembers board)
               /\ strictEquals (propOf member "id") memberId = true
               /\ propOf member "fullName" = x).
Proof.
  intros Hb Hls Hl Hcs Hc.
  apply cleanBoard_inv in Hb as (_ & mm & lm & Hmm & Hlm & Hlists).
  destruct (Hlists ls Hls) as (rawLists & HrawLists & HmapL).
  destruct (mapC_In_inv _ _ _ _ HmapL Hl) as (rawList & HinL & HcleanL).
  apply cleanList_inv in HcleanL as (_ & Hcards).
  destruct (Hcards cs Hcs) as (rawCards & HrawCards & HmapC).
  destruct (mapC_In_inv _ _ _ _ HmapC Hc) as (rawCard & HinC & HcleanC).
  apply cleanCard_inv in HcleanC as (Hid & Hmembers).
  assert (card_members c
          = List.filter truthy
              (map (fun memberId => lastBinding "fullName" memberId (propOf board "members"))
                   (idMembersOf rawCard))) as Hshown.
  { rewrite Hmembers. unfold idMembersOf.
    destruct (arrayItems (propOf rawCard "idMembers")) as [ids|]; [|reflexivity].
    f_equal. apply map_ext. intros memberId. now apply memberMap_lookup. }
  exists rawLists, rawList, rawCards, rawCard.
  repeat (split; [assumption|]). split.
  - rewrite Hshown. apply filter_map_filter. intros memberId _ Ht.
    destruct (lastBinding_member board memberId Ht) as (member & Hin & Hse & _).
    unfold listsMember. apply existsb_exists. exists member. auto.
  - intros x Hx. rewrite Hshown in Hx.
    apply List.filter_In in Hx as (Hin & Ht). split; [exact Ht|].
    apply List.in_map_iff in Hin as (memberId & Hget & HinId).
    rewrite <- Hget in Ht.
    destruct (lastBinding_member board memberId Ht) as (member & Hin & Hse & Hname).
    exists memberId, member. rewrite <- Hget. auto.
Qed.

Lemma card_members_are_board_members_witness :
  exists rawLists rawList rawCards rawCard,
    arrayItems (propOf stitchedSample "lists") = Some rawLists /\ In rawList rawLists
    /\ arrayItems (propOf rawList "cards") = Some rawCards /\ In rawCard rawCards
    /\ card_id (cleanedSample "c1" "Write spec" [JStr "Ada Lovelace"]) = propOf rawCard "id"
    /\ card_members (cleanedSample "c1" "Write spec" [JStr "Ada Lovelace"])
       = List.filter truthy
           (map (fun memberId =>
                   lastBinding "fullName" memberId (propOf stitchedSample "members"))
                (idMembersOf rawCard))
    /\ card_members (cleanedSample "c1" "Write spec" [JStr "Ada Lovelace"])
       = List.filter truthy
           (map (fun memberId =>
                   lastBinding "fullName" memberId (propOf stitchedSample "members"))
                (List.filter (listsMember stitchedSample) (idMembersOf rawCard)))
    /\ (forall x,
          In x (card_members (cleanedSample "c1" "Write spec" [JStr "Ada Lovelace"])) ->
          truthy x = true
          /\ exists memberId member,
               In memberId (idMembersOf rawCard)
               /\ In member (boardMembers stitchedSample)
               /\ strictEquals (propOf member "id") memberId = true
               /\ propOf member "fullName" = x).
Proof.
  eapply (card_members_are_board_members stitchedSample).
  - reflexivity.
  - reflexivity.
  - left. reflexivity.
  - reflexivity.
  - left. reflexivity.
Defined.

Lemma cleanCard_None_members (card : JsVal) (lm : option JsMap) (c : CleanCard) :
  cleanCard card None lm = Ok c -> card_members c = [].
Proof.
  intros H. apply cleanCard_inv in H as (_ & ->).
  now destruct (arrayItems _).
Qed.

Lemma cleanList_None_members (l : JsVal) (lm : option JsMap) (cl : CleanList) :
  cleanList l None lm = Ok cl -> showsNoMember cl.
Proof.
  intros H cs Hcs. apply cleanList_inv in H as (_ & Hcards).
  destruct (Hcards cs Hcs) as (raw & _ & Hmap).
  eapply mapC_Forall; [|exact Hmap].
  intros x y Hf. exact (cleanCard_None_members _ _ _ Hf).
Qed.

Ltac dispatch H :=
  repeat first
    [ apply bindC_Ok_inv in H as (? & ? & H)
    | match type of H with
      | (if ?b then _ else _) = _ => destruct b
      end ].

(** X24. The dispatcher resolves no member: a payload it cleans as a card,
    as cards, as a list or as lists comes back with every card's [members]
    empty, whatever [idMembers] holds; only a board payload brings the
    member map. *)
Theorem dispatcher_shows_no_member (data : JsVal) (r : Cleaned) :
  cleanTrelloResponse data = Ok r ->
  match r with
  | OneCard c => card_members c = []
  | Cards cs => Forall (fun c => card_members c = []) cs
  | OneList l => showsNoMember l
  | Lists ls => Forall showsNoMember ls
  | Raw _ | OneBoard _ | Boards _ => True
  end.
Proof.
  unfold cleanTrelloResponse. intros H.
  destruct (negb (truthy data)); [injection H as <-; exact I|].
  destruct data as [ | | ? | ? | ? | [|firstItem rest] | ? | ];
    dispatch H; injection H as <-;
    first [ exact I
          | eapply cleanCard_None_members; eassumption
          | eapply cleanList_None_members; eassumption
          | eapply mapC_Forall; [|eassumption];
            intros ? ? Hf; cbn beta in Hf;
            first [ eapply cleanCard_None_members; exact Hf
                  | eapply cleanList_None_members; exact Hf ] ].
Qed.

Lemma dispatcher_shows_no_member_witness :
  Forall (fun c => card_members c = [])
    [ cleanedSample "c1" "Write spec" [] ].
Proof.
  exact (dispatcher_shows_no_member
           (JArr [ JObj [ ("id", JStr "c1"); ("name", JStr "Write spec");
                          ("idList", JStr "L2");
                          ("idMembers", JArr [JStr "m1"; JStr "m9"]) ] ])
           (Cards [ cleanedSample "c1" "Write spec" [] ]) eq_refl).
Defined.

Lemma mapC_length {A B} (f : A -> Completion B) (l : list A) :
  forall ys, mapC f l = Ok ys -> List.length ys = List.length l.
Proof.
  induction l as [|x l IH]; intros ys H; cbn [mapC] in H.
  - injection H as <-. reflexivity.
  - inv_bind H. injection H as <-. cbn [List.length]. f_equal. now apply IH.
Qed.

Lemma countComplete_le (its : list JsVal) (n : nat) :
  countComplete its = Ok n -> (n <= List.length its)%nat.
Proof.
  unfold countComplete. intros H. inv_bind H. injection H as <-.
  rewrite <- (mapC_length _ _ _ E). apply List.filter_length_le.
Qed.

(** X25. The checklist status is always [completed/total] in decimal with
    [completed] at most [total]; [total] counts the items of the
    checklists whose [checkItems] is an array. *)
Theorem checklist_status_is_a_fraction (checklists : JsVal) (s : string) :
  calculateChecklistStatus checklists = Ok s ->
  exists completed total : nat,
    s = (decimalNat completed ++ "/" ++ decimalNat total)%string
    /\ (completed <= total)%nat.
Proof.
  unfold calculateChecklistStatus. intros H.
  destruct (negb (truthy checklists)).
  { injection H as <-. exists O, O. split; [reflexivity | lia]. }
  apply bindC_Ok_inv in H as (len & _ & H).
  destruct (strictEquals len (JNum 0)).
  { injection H as <-. exists O, O. split; [reflexivity | lia]. }
  apply bindC_Ok_inv in H as (items & _ & H).
  apply bindC_Ok_inv in H as (counts & Hfold & H).
  injection H as <-.
  exists (snd counts), (fst counts). split; [reflexivity|].
  apply (foldC_invariant (fun acc : nat * nat => (snd acc <= fst acc)%nat)) in Hfold;
    [exact Hfold | | cbn; lia].
  intros [totalItems completedItems] checklist acc' Hacc Hstep. cbn [fst snd] in Hacc.
  apply bindC_Ok_inv in Hstep as (checkItems & _ & Hstep).
  destruct (arrayItems checkItems) as [its|].
  - apply bindC_Ok_inv in Hstep as (n & Hn & Hstep). injection Hstep as <-.
    apply countComplete_le in Hn. cbn [fst snd]. lia.
  - injection Hstep as <-. exact Hacc.
Qed.

Lemma checklist_status_is_a_fraction_witness :
  exists completed total : nat,
    "1/2" = (decimalNat completed ++ "/" ++ decimalNat total)%string
    /\ (completed <= total)%nat.
Proof.
  exact (checklist_status_is_a_fraction
           (JArr [ JObj [ ("checkItems",
                           JArr [ JObj [ ("state", JStr "complete") ];
                                  JObj [ ("state", JStr "incomplete") ] ]) ];
                   JObj [ ("name", JStr "No items") ] ])
           "1/2" eq_refl).
Defined.

(** X26. Cleaning an array is element-wise: whichever shape the first
    element selects, the result has one clean object per element, in the
    order of the payload and with the element's [id]; an array is never
    answered with a single entity. *)
Theorem array_cleaning_is_elementwise (items : list JsVal) (r : Cleaned) :
  cleanTrelloResponse (JArr items) = Ok r ->
  match r with
  | Raw d => d = JArr items
  | Boards bs => map board_id bs = map (fun x => propOf x "id") items
  | Lists ls => map list_id ls = map (fun x => propOf x "id") items
  | Cards cs => map card_id cs = map (fun x => propOf x "id") items
  | OneBoard _ | OneList _ | OneCard _ => False
  end.
Proof.
  unfold cleanTrelloResponse. cbn [truthy negb]. intros H.
  destruct items as [|firstItem rest]; [injection H as <-; reflexivity|].
  dispatch H; injection H as <-;
    first [ reflexivity
          | eapply mapC_map_inv; [|eassumption];
            intros ? ? Hf; cbn beta in Hf;
            first [ apply cleanBoard_inv in Hf as (Hf & _); exact Hf
                  | apply cleanList_inv in Hf as (Hf & _); exact Hf
                  | apply cleanCard_inv in Hf as (Hf & _); exact Hf ] ].
Qed.

Lemma array_cleaning_is_elementwise_witness :
  map card_id [ cleanedSample "c1" "Write spec" []; cleanedSample "c2" "Orphan" [] ]
  = map (fun x => propOf x "id")
      [ JObj [ ("id", JStr "c1"); ("name", JStr "Write spec"); ("idList", JStr "L2") ];
        JObj [ ("id", JStr "c2"); ("name", JStr "Orphan") ] ].
Proof.
  exact (array_cleaning_is_elementwise
           [ JObj [ ("id", JStr "c1"); ("name", JStr "Write spec"); ("idList", JStr "L2") ];
             JObj [ ("id", JStr "c2"); ("name", JStr "Orphan") ] ]
           (Cards [ cleanedSample "c1" "Write spec" []; cleanedSample "c2" "Orphan" [] ])
           eq_refl).
Defined.

(** ** More on the snapshot tool *)

Lemma groupCard_inherited (acc : gmap string (list JsVal)) (card : JsVal) (k : string) :
  cardListKey card = Some k -> inheritedKey k = true -> acc !! k = None ->
  groupCard acc card = Err NotAFunction.
Proof.
  intros Hk Hi Ha. rewrite groupCard_unfold, Hk. unfold accGet. now rewrite Ha, Hi.
Qed.

Lemma groupCard_own_keys (acc acc' : gmap string (list JsVal)) (card : JsVal) :
  (forall k, inheritedKey k = true -> acc !! k = None) ->
  groupCard acc card = Ok acc' ->
  forall k, inheritedKey k = true -> acc' !! k = None.
Proof.
  intros Hacc H k Hk. rewrite groupCard_unfold in H.
  destruct (cardListKey card) as [k0|]; [|injection H as <-; auto].
  unfold accGet in H.
  destruct (acc !! k0) as [cs|] eqn:E0.
  - injection H as <-. rewrite lookup_insert_ne; [auto|].
    intros ->. rewrite (Hacc k Hk) in E0. discriminate.
  - destruct (inheritedKey k0) eqn:Ei; [discriminate|].
    injection H as <-. rewrite lookup_insert_ne; [auto|].
    intros ->. congruence.
Qed.

Lemma groupCard_Err (acc : gmap string (list JsVal)) (card : JsVal) (e : JsError) :
  groupCard acc card = Err e -> e = NotAFunction.
Proof.
  rewrite groupCard_unfold. destruct (cardListKey card) as [k0|]; [|discriminate].
  destruct (accGet acc k0); intros H; try discriminate. now injection H as <-.
Qed.

Lemma foldC_groupCard_inherited (card : JsVal) (k : string) (cs : list JsVal) :
  cardListKey card = Some k -> inheritedKey k = true ->
  forall acc,
    (forall k', inheritedKey k' = true -> acc !! k' = None) ->
    In card cs ->
    foldC groupCard acc cs = Err NotAFunction.
Proof.
  intros Hk Hi. induction cs as [|x cs IH]; intros acc Hacc Hin; [destruct Hin|].
  cbn [foldC]. destruct (groupCard acc x) as [acc1|e] eqn:G; cbn [bindC].
  - destruct Hin as [->|Hin].
    + rewrite (groupCard_inherited acc card k Hk Hi (Hacc k Hi)) in G. discriminate.
    + apply IH; [|exact Hin]. exact (groupCard_own_keys acc acc1 x Hacc G).
  - now rewrite (groupCard_Err _ _ _ G).
Qed.

(** X27. The grouping accumulator starts as a plain object, so a card
    whose [idList] names a member of [Object.prototype] ([constructor],
    [__proto__], [toString], ...) finds that member under its key and the
    call of [push] on it throws: stitching fails, and with it the snapshot,
    whatever the other cards and the lists are. *)
Theorem stitching_throws_on_inherited_key (fields : list (string * JsVal))
    (cs ls : list JsVal) (card : JsVal) (k : string) :
  lookupField "cards" fields = JArr cs ->
  lookupField "lists" fields = JArr ls ->
  In card cs ->
  cardListKey card = Some k ->
  inheritedKey k = true ->
  stitchCards (JObj fields) = Err NotAFunction
  /\ boardSnapshot (JObj fields) = Err NotAFunction.
Proof.
  intros Hcs Hls Hin Hk Hi.
  assert (stitchCards (JObj fields) = Err NotAFunction) as Hs.
  { unfold stitchCards. cbn [getProp bindC]. rewrite Hcs, Hls.
    rewrite (foldC_groupCard_inherited card k cs Hk Hi ∅); [reflexivity | | exact Hin].
    intros k' _. apply lookup_empty. }
  split; [exact Hs|]. unfold boardSnapshot. now rewrite Hs.
Qed.

Lemma stitching_throws_on_inherited_key_witness :
  boardSnapshot
    (JObj [ ("id", JStr "B1");
            ("lists", JArr sampleListsFlat);
            ("cards", JArr [ JObj [ ("id", JStr "c1"); ("idList", JStr "L1") ];
                             JObj [ ("id", JStr "c2"); ("idList", JStr "constructor") ] ]) ])
  = Err NotAFunction.
Proof.
  apply (stitching_throws_on_inherited_key
           [ ("id", JStr "B1");
             ("lists", JArr sampleListsFlat);
             ("cards", JArr [ JObj [ ("id", JStr "c1"); ("idList", JStr "L1") ];
                              JObj [ ("id", JStr "c2"); ("idList", JStr "constructor") ] ]) ]
           [ JObj [ ("id", JStr "c1"); ("idList", JStr "L1") ];
             JObj [ ("id", JStr "c2"); ("idList", JStr "constructor") ] ]
           sampleListsFlat
           (JObj [ ("id", JStr "c2"); ("idList", JStr "constructor") ])
           "constructor");
    [reflexivity | reflexivity | right; left; reflexivity | reflexivity | reflexivity].
Defined.

Lemma trimEnd_idempotent (s : string) : trimEnd (trimEnd s) = trimEnd s.
Proof.
  induction s as [|c s IH]; [reflexivity|].
  cbn [trimEnd]. destruct (trimEnd s) as [|d t] eqn:E.
  - destruct (isWhiteSpace c) eqn:W; [reflexivity|]. cbn [trimEnd]. now rewrite W.
  - change (trimEnd (String c (String d t))) with
      (match trimEnd (String d t) with
       | EmptyString => if isWhiteSpace c then EmptyString else String c EmptyString
       | String x y => String c (String x y)
       end).
    now rewrite IH.
Qed.

Lemma trimStart_head (s : string) :
  trimStart s = EmptyString
  \/ exists c r, trimStart s = String c r /\ isWhiteSpace c = false.
Proof.
  induction s as [|c s IH]; [now left|].
  cbn [trimStart]. destruct (isWhiteSpace c) eqn:W; [exact IH|].
  right. now exists c, s.
Qed.

Lemma trim_idempotent (s : string) : trim (trim s) = trim s.
Proof.
  unfold trim.
  assert (trimStart (trimEnd (trimStart s)) = trimEnd (trimStart s)) as ->.
  { destruct (trimStart_head s) as [-> | (c & r & -> & W)]; [reflexivity|].
    assert (trimEnd (String c r)
            = match trimEnd r with
              | EmptyString => if isWhiteSpace c then EmptyString else String c EmptyString
              | String x y => String c (String x y)
              end) as -> by reflexivity.
    rewrite W. destruct (trimEnd r); cbn [trimStart]; now rewrite W. }
  apply trimEnd_idempotent.
Qed.

Lemma snapshotEntry_Proceed (board_name defaultBoard allowedEnv : option string)
    (name : string) :
  snapshotEntry board_name defaultBoard allowedEnv = Proceed name ->
  name = trim (orString board_name (orString defaultBoard ""))
  /\ nonEmpty name = true
  /\ match allowedEnv with
     | Some e =>
         e = EmptyString \/ includes (parseAllowedBoards e) (toLowerCase name) = true
     | None => True
     end.
Proof.
  unfold snapshotEntry, parseAllowedBoards.
  destruct (nonEmpty (trim _)) eqn:N; cbn [negb]; [|discriminate].
  destruct allowedEnv as [e|].
  - destruct e as [|c e]; cbn [nonEmpty].
    + intros [= <-]. auto.
    + destruct (includes _ _) eqn:I; cbn [negb]; [|discriminate].
      intros [= <-]. auto.
  - intros [= <-]. auto.
Qed.

(** X28. The snapshot tool's own allow-list check is at least as strict as
    the resolver's: the name it passes on is trimmed and not empty, and the
    guard of [resolveBoardId], reading the same [TRELLO_ALLOWED_BOARDS] for
    the first time, lets it through. *)
Theorem snapshot_name_passes_the_guard (board_name defaultBoard allowedEnv : option string)
    (name : string) :
  snapshotEntry board_name defaultBoard allowedEnv = Proceed name ->
  nonEmpty name = true
  /\ trim name = name
  /\ fst (ensureBoardAllowed name allowedEnv None) = Ok tt.
Proof.
  intros H. apply snapshotEntry_Proceed in H as (Hname & Hne & Hallowed).
  assert (trim name = name) as Htrim by (subst name; apply trim_idempotent).
  split; [exact Hne|]. split; [exact Htrim|].
  destruct allowedEnv as [e|]; [|reflexivity].
  destruct Hallowed as [-> | Hinc]; [reflexivity|].
  unfold ensureBoardAllowed.
  rewrite getAllowedBoards_fresh by (intros ->; discriminate).
  destruct (parseAllowedBoards e) as [|x l] eqn:P; [reflexivity|].
  cbn [fst]. rewrite Htrim, Hinc. reflexivity.
Qed.

Lemma snapshot_name_passes_the_guard_witness :
  nonEmpty "Marketing" = true
  /\ trim "Marketing" = "Marketing"
  /\ fst (ensureBoardAllowed "Marketing" (Some "roadmap, marketing") None) = Ok tt.
Proof.
  exact (snapshot_name_passes_the_guard None (Some " Marketing ")
           (Some "roadmap, marketing") "Marketing" eq_refl).
Defined.

(** X29. The two checks part on a [TRELLO_ALLOWED_BOARDS] that is not empty
    but holds no name (commas and white space only): the resolver's guard
    takes it for no restriction and allows every board, the snapshot tool
    takes it for an empty allow-list and never reaches resolution. *)
Theorem blank_allow_list_splits_the_checks (e : string)
    (board_name defaultBoard : option string) (name : string) :
  e <> EmptyString ->
  parseAllowedBoards e = [] ->
  fst (ensureBoardAllowed name (Some e) None) = Ok tt
  /\ snapshotEntry board_name defaultBoard (Some e)
     = (if nonEmpty (trim (orString board_name (orString defaultBoard "")))
        then Denied (trim (orString board_name (orString defaultBoard "")))
        else NameRequired).
Proof.
  intros He Hp. split.
  - unfold ensureBoardAllowed. rewrite getAllowedBoards_fresh by exact He.
    now rewrite Hp.
  - unfold snapshotEntry. fold (parseAllowedBoards e). rewrite Hp.
    destruct (nonEmpty (trim _)); cbn [negb]; [|reflexivity].
    destruct e; [congruence | reflexivity].
Qed.

Lemma blank_allow_list_splits_the_checks_witness :
  fst (ensureBoardAllowed "Marketing" (Some " , ") None) = Ok tt
  /\ snapshotEntry (Some "Marketing") None (Some " , ") = Denied "Marketing".
Proof.
  apply (blank_allow_list_splits_the_checks " , " (Some "Marketing") None "Marketing").
  - discriminate.
  - reflexivity.
Defined.

(** ** More on card resolution *)

Lemma findExactCard_listed (normalizedInput : string) (cards : list ListedCard) (r : Resource) :
  findExactCard normalizedInput cards = Some r ->
  exists card, In card cards /\ lc_id card = res_id r /\ lc_name card = Some (res_name r).
Proof.
  induction cards as [|card rest IH]; cbn [findExactCard]; [discriminate|].
  intros H.
  assert (findExactCard normalizedInput rest = Some r ->
          exists card0, In card0 (card :: rest) /\ lc_id card0 = res_id r
                        /\ lc_name card0 = Some (res_name r)) as Hrest.
  { intros H'. destruct (IH H') as (card0 & Hin & Hid). exists card0. split; [now right | exact Hid]. }
  destruct (lc_name card) as [n|] eqn:En; [|auto].
  destruct (String.eqb _ _); [|auto].
  injection H as <-. exists card. cbn [res_id res_name]. split; [now left | auto].
Qed.

(** X30. A resolved card is a card the server was given: its id and name
    are those of one record of the search result or, when the search found
    nothing, of one record of the board's open-card listing. No id is made
    up and none is paired with another card's name. *)
Theorem resolved_card_is_a_listed_card (boardId cardName : string)
    (search : Fetched (option (list Resource))) (fallback : Fetched (Listing ListedCard))
    (r : Resource) :
  resolveCardId boardId cardName search fallback = Ok r ->
  (exists found, search = Body (Some found) /\ In r found)
  \/ (exists cards card,
        (search = Body None \/ search = Body (Some []))
        /\ fallback = Body (Some cards)
        /\ In card cards
        /\ lc_id card = res_id r
        /\ lc_name card = Some (res_name r)).
Proof.
  unfold resolveCardId. intros H.
  destruct search as [? | ? | ? | result]; try discriminate.
  assert (resolveCardIdFromBoardListing boardId cardName fallback = Ok r ->
          exists cards card, fallback = Body (Some cards) /\ In card cards
                             /\ lc_id card = res_id r /\ lc_name card = Some (res_name r))
    as Hfallback.
  { clear H. unfold resolveCardIdFromBoardListing. intros H.
    destruct fallback as [? | ? | ? | [[|c0 cards]|]]; try discriminate.
    exists (c0 :: cards).
    destruct (findExactCard _ (c0 :: cards)) as [found|] eqn:Ex.
    - injection H as <-. destruct (findExactCard_listed _ _ _ Ex) as (card & Hc).
      exists card. tauto.
    - destruct (fuzzyMatch _ _) as [m|]; [|discriminate].
      destruct (jsGe _ _); [|discriminate].
      destruct (findCardByName _ _) as [matchedCard|] eqn:F; [|discriminate].
      injection H as <-. apply List.find_some in F as (Hin & Hn).
      exists matchedCard. cbn [res_id res_name].
      destruct (lc_name matchedCard) as [n|]; [|discriminate].
      apply String.eqb_eq in Hn. subst n. auto. }
  destruct result as [[|first [|second rest]]|].
  - right. destruct (Hfallback H) as (cards & card & Hc). exists cards, card. tauto.
  - left. exists [first]. injection H as <-. destruct first. split; [reflexivity | now left].
  - left. exists (first :: second :: rest). split; [reflexivity|].
    destruct (findExact _ _) as [card|] eqn:Ex; injection H as <-.
    + unfold findExact in Ex. apply List.find_some in Ex as (Hin & _). now destruct card.
    + destruct first. now left.
  - right. destruct (Hfallback H) as (cards & card & Hc). exists cards, card. tauto.
Qed.

Lemma resolved_card_is_a_listed_card_witness :
  (exists found, Body (Some ([] : list Resource)) = Body (Some found)
                 /\ In (mkResource "c3" "Write the release notes") found)
  \/ (exists cards card,
        (Body (Some ([] : list Resource)) = Body None
         \/ Body (Some ([] : list Resource)) = Body (Some []))
        /\ Body (Some sampleCards) = Body (Some cards)
        /\ In card cards
        /\ lc_id card = "c3"
        /\ lc_name card = Some "Write the release notes").
Proof.
  exact (resolved_card_is_a_listed_card "b1" "write the release note" (Body (Some []))
           (Body (Some sampleCards)) (mkResource "c3" "Write the release notes") eq_refl).
Defined.
